(** * tinyhttp: allocators, buffers, buffer streams, the event channel, the
    packet framing and the timer, embedded from [include/memory.h],
    [include/io.h], [include/evchannel.h], [include/log.h] and
    [include/timer.h].

    Conventions of the embedding.
    - The data model is LP64 (the code base is Linux only: epoll, execinfo):
      [int] and [log_level] are 4 bytes, [size_t], [int64_t], [time_t] and
      pointers are 8 bytes, little endian.
    - A pointer is its address, a [Z]; [nullptr] is [0].
    - [size_t] arithmetic wraps modulo [2^64] and the wrap is written out
      with [to_size_t].
    - A C++ function is a function into [outcome]: it returns normally,
      throws (the state reached at the throw is kept), or has undefined
      behaviour.
    - The C library is an oracle [libc]: what [malloc] and [realloc] answer
      may depend on every call made before, and fresh memory holds
      indeterminate bytes.
    - Mutexes and reader/writer locks carry no state: every function is
      read as run by one thread that finds the locks free. The two places
      where the code leaves a lock unbalanced are written out: the last
      statement of the destructor of [shared_array_buffer], and
      [shared_array_buffer::expand] when an exception leaves it. *)

From Stdlib Require Import ZArith List Lia String.
From Stdlib.Strings Require Import Byte.
From stdpp Require Import base option list gmap.

Local Open Scope Z_scope.

(** ** Machine integers and bytes *)

Module Mach.

Definition size_modulus : Z := 2 ^ 64.
Definition SIZE_MAX : Z := size_modulus - 1.
Definition PTRDIFF_MAX : Z := 2 ^ 63 - 1.
Definition INT_MAX : Z := 2 ^ 31 - 1.
Definition INT_MIN : Z := - 2 ^ 31.

(** Conversion to [size_t] (and every [size_t] operation result). *)
Definition to_size_t (z : Z) : Z := z mod size_modulus.

(** Two's complement reading of the low [w] bits. *)
Definition to_signed (w : Z) (z : Z) : Z :=
  let m := z mod 2 ^ w in
  if m <? 2 ^ (w - 1) then m else m - 2 ^ w.

Definition to_int : Z -> Z := to_signed 32.
Definition to_int64 : Z -> Z := to_signed 64.
Definition to_ssize_t : Z -> Z := to_signed 64.

Definition sizeof_int : Z := 4.
Definition sizeof_size_t : Z := 8.
Definition sizeof_int64_t : Z := 8.
Definition sizeof_time_t : Z := 8.
Definition sizeof_pointer : Z := 8.

Definition byte_of_Z (z : Z) : byte :=
  match Byte.of_N (Z.to_N (z mod 256)) with
  | Some b => b
  | None => x00
  end.

Definition Z_of_byte (b : byte) : Z := Z.of_N (Byte.to_N b).

(** The object representation of an integer of [n] bytes, little endian. *)
Fixpoint encode_le (n : nat) (z : Z) : list byte :=
  match n with
  | O => []
  | S n' => byte_of_Z z :: encode_le n' (z / 256)
  end.

Fixpoint decode_le (l : list byte) : Z :=
  match l with
  | [] => 0
  | b :: r => Z_of_byte b + 256 * decode_le r
  end.

(** [memcpy(dest, src, n)] on object contents: the first [n] bytes of
    [dest] become the first [n] bytes of [src]. *)
Definition memcpy (dest src : list byte) (n : Z) : list byte :=
  take (Z.to_nat n) src ++ drop (Z.to_nat n) dest.

(** The bytes [off, off + n) of a region. *)
Definition slice (mem : list byte) (off n : Z) : list byte :=
  take (Z.to_nat n) (drop (Z.to_nat off) mem).

(** The region with the bytes from [off] on overwritten by [src]. *)
Definition blit (mem : list byte) (off : Z) (src : list byte) : list byte :=
  take (Z.to_nat off) mem ++ src
    ++ drop (Z.to_nat off + length src) mem.

(** [strlen]: the number of bytes before the first zero byte; [None] when
    the scan leaves the object without finding one. *)
Fixpoint strlen (l : list byte) : option Z :=
  match l with
  | [] => None
  | b :: r =>
      if Byte.eqb b x00 then Some 0
      else match strlen r with
           | Some n => Some (1 + n)
           | None => None
           end
  end.

End Mach.

(** ** Outcomes of a call *)

Inductive exception : Type :=
| memory_exception (who reason : string)
| io_exception (who reason : string).

Inductive outcome (A S : Type) : Type :=
| Returns (a : A) (s : S)
| Throws (e : exception) (s : S)
| Undefined.

Arguments Returns {A S} a s.
Arguments Throws {A S} e s.
Arguments Undefined {A S}.

Definition bind {A B S : Type} (c : outcome A S) (k : A -> S -> outcome B S)
  : outcome B S :=
  match c with
  | Returns a s => k a s
  | Throws e s => Throws e s
  | Undefined => Undefined
  end.

(** ** The C library as an oracle *)

Inductive libc_call : Type :=
| Malloc (size ret : Z)
| Realloc (p size ret : Z)
| Free (p : Z).

Record libc : Type := {
  malloc : list libc_call -> Z -> Z;
  realloc : list libc_call -> Z -> Z -> Z;
  junk : nat -> byte
}.

(** Fresh contents of [n] bytes, and a region resized as [realloc] does. *)
Definition fresh (L : libc) (n : Z) : list byte :=
  map (junk L) (seq 0 (Z.to_nat n)).

Definition resized (L : libc) (mem : list byte) (n : Z) : list byte :=
  take (Z.to_nat n) mem
    ++ map (junk L) (seq (length mem) (Z.to_nat n - length mem)).

(** ** [heap_allocator] (memory.h, lines 50-94) *)

Module heap_allocator.

Record t : Type := {
  ptrs_ : list Z;
  calls : list libc_call
}.

Definition new : t := {| ptrs_ := []; calls := [] |}.

Definition allocate (L : libc) (size : Z) (a : t) : outcome Z t :=
  let ptr := malloc L (calls a) size in
  let log := calls a ++ [Malloc size ptr] in
  if ptr =? 0 then
    Throws (memory_exception "heap_allocator::allocate()"
                             "malloc() returned nullptr")
           {| ptrs_ := ptrs_ a; calls := log |}
  else Returns ptr {| ptrs_ := ptrs_ a ++ [ptr]; calls := log |}.

(** The loop of [reallocate]: the first recorded pointer equal to [ptr]
    is overwritten by [r]; [None] when the loop runs to its end. *)
Fixpoint scan (ptr r : Z) (recorded : list Z) : option (list Z) :=
  match recorded with
  | [] => None
  | p :: rest =>
      if p =? ptr then Some (r :: rest)
      else match scan ptr r rest with
           | Some rest' => Some (p :: rest')
           | None => None
           end
  end.

Definition reallocate (L : libc) (ptr size : Z) (a : t) : outcome Z t :=
  let r := realloc L (calls a) ptr size in
  match scan ptr r (ptrs_ a) with
  | Some ptrs' =>
      let a' := {| ptrs_ := ptrs';
                   calls := calls a ++ [Realloc ptr size r] |} in
      if r =? 0 then
        Throws (memory_exception "heap_allocator::reallocate()"
                                 "realloc() returned nullptr") a'
      else Returns r a'
  | None => Returns 0 a
  end.

Definition release (a : t) : t :=
  {| ptrs_ := []; calls := calls a ++ map Free (ptrs_ a) |}.

Definition destroy (a : t) : t :=
  match ptrs_ a with
  | [] => a
  | _ :: _ => release a
  end.

(** The move constructor: the new object and the source afterwards. The
    registry goes to the new object; the log of calls made so far is the
    history of both. *)
Definition move_construct (a : t) : t * t :=
  ({| ptrs_ := ptrs_ a; calls := calls a |},
   {| ptrs_ := []; calls := calls a |}).

End heap_allocator.

(** ** [aligned_heap_allocator] (memory.h, lines 96-150) *)

Module aligned_heap_allocator.

Record aligned_chunk : Type := {
  ptr : Z;
  offset : Z
}.

Record t : Type := {
  ptrs_ : list aligned_chunk;
  align_ : Z;
  calls : list libc_call
}.

Definition new (align : Z) : t :=
  {| ptrs_ := []; align_ := align; calls := [] |}.

(** [x % align_] with [x] a [size_t]: [align_] is converted to [size_t];
    a zero divisor is undefined. *)
Definition rem (x align : Z) : option Z :=
  let d := Mach.to_size_t align in
  if d =? 0 then None else Some (x mod d).

Definition allocate (L : libc) (size : Z) (a : t) : outcome Z t :=
  let request := Mach.to_size_t (size + Mach.to_size_t (align_ a)) in
  let p := malloc L (calls a) request in
  let log := calls a ++ [Malloc request p] in
  if p =? 0 then
    Throws (memory_exception "aligned_heap_allocator::allocate()"
                             "malloc() returned nullptr")
           {| ptrs_ := ptrs_ a; align_ := align_ a; calls := log |}
  else
    match rem p (align_ a) with
    | None => Undefined
    | Some off =>
        let q := Mach.to_size_t (p + off) in
        Returns q {| ptrs_ := ptrs_ a ++ [{| ptr := q; offset := off |}];
                     align_ := align_ a; calls := log |}
    end.

(** The loop of [reallocate]: the first record whose pointer is [p]. *)
Fixpoint find (p : Z) (records : list aligned_chunk)
  : option (nat * aligned_chunk) :=
  match records with
  | [] => None
  | c :: rest =>
      if ptr c =? p then Some (O, c)
      else match find p rest with
           | Some (i, c') => Some (S i, c')
           | None => None
           end
  end.

Definition reallocate (L : libc) (p size : Z) (a : t) : outcome Z t :=
  match find p (ptrs_ a) with
  | Some (i, record) =>
      let old := Mach.to_size_t (ptr record - offset record) in
      let request := Mach.to_size_t (size + Mach.to_size_t (align_ a)) in
      let base := realloc L (calls a) old request in
      let log := calls a ++ [Realloc old request base] in
      if base =? 0 then
        Throws (memory_exception "aligned_heap_allocator::reallocate()"
                                 "realloc() returned nullptr")
               {| ptrs_ := ptrs_ a; align_ := align_ a; calls := log |}
      else
        match rem base (align_ a) with
        | None => Undefined
        | Some off =>
            let q := Mach.to_size_t (base + off) in
            Returns q {| ptrs_ := <[i := {| ptr := q; offset := off |}]>
                                    (ptrs_ a);
                         align_ := align_ a; calls := log |}
        end
  | None => Returns 0 a
  end.

Definition release (a : t) : t :=
  {| ptrs_ := []; align_ := align_ a;
     calls := calls a ++ map (fun c => Free (ptr c)) (ptrs_ a) |}.

Definition destroy (a : t) : t :=
  match ptrs_ a with
  | [] => a
  | _ :: _ => release a
  end.

End aligned_heap_allocator.

(** A C library for examples: an arena handing out addresses from [base]
    on, every block rounded up to 16 bytes, never failing (the addresses
    start over after 4 GiB); fresh memory reads [xaa]. *)
Definition call_extent (c : libc_call) : Z :=
  match c with
  | Malloc size _ => (size / 16 + 1) * 16
  | Realloc _ size _ => (size / 16 + 1) * 16
  | Free _ => 0
  end.

Definition arena_top (log : list libc_call) : Z :=
  fold_right Z.add 0 (map call_extent log) mod 2 ^ 32.

Definition arena (base : Z) : libc :=
  {| malloc := fun log _ => base + arena_top log;
     realloc := fun log _ _ => base + arena_top log;
     junk := fun _ => xaa |}.

(** The same arena with a C library that refuses a request above 4 GiB. *)
Definition frugal (base : Z) : libc :=
  {| malloc := fun log n =>
                 if n <=? 2 ^ 32 then malloc (arena base) log n else 0;
     realloc := fun log p n =>
                  if n <=? 2 ^ 32 then realloc (arena base) log p n else 0;
     junk := junk (arena base) |}.

(** ** [shared_array_buffer<heap_allocator>] (memory.h, lines 414-494) *)

Module shared_array_buffer.

(** [sizeof(meta)] with glibc: three words, a 40-byte [std::mutex], a
    56-byte [std::shared_mutex], the [int] count, padded to 8. *)
Definition sizeof_meta : Z := 128.

(** [offsetof(meta, ptr)]: [ptr] is the first member. *)
Definition offsetof_ptr : Z := 0.

(** The block [*meta_]. [allocator] is the object the member points to,
    [mem] the bytes of the region [ptr, ptr + capacity). The two locks
    have no field; see [destructor] and [expand_leaves_locked]. *)
Record meta : Type := {
  ptr : Z;
  allocator : heap_allocator.t;
  capacity : Z;
  reference_count : Z;
  mem : list byte
}.

Definition with_count (rc : Z) (m : meta) : meta :=
  {| ptr := ptr m; allocator := allocator m; capacity := capacity m;
     reference_count := rc; mem := mem m |}.

Definition with_mem (bytes : list byte) (m : meta) : meta :=
  {| ptr := ptr m; allocator := allocator m; capacity := capacity m;
     reference_count := reference_count m; mem := bytes |}.

(** [shared_array_buffer(capacity, allocator)]: the value is the address
    of the meta block and the block; the state is the allocator object
    handed in. The data region is not initialised. *)
Definition construct (L : libc) (cap : Z) (a : heap_allocator.t)
  : outcome (Z * meta) heap_allocator.t :=
  bind (heap_allocator.allocate L sizeof_meta a) (fun meta_ a1 =>
  bind (heap_allocator.allocate L cap a1) (fun data a2 =>
    Returns (meta_, {| ptr := data; allocator := a2; capacity := cap;
                       reference_count := 0 + 1; mem := fresh L cap |})
            a2)).

(** The copy constructor, on the block both objects point to. The
    increment of an [int] at [INT_MAX] is undefined. *)
Definition copy_construct (m : meta) : outcome unit meta :=
  if reference_count m =? 0 then
    Throws (memory_exception
              "shared_array_buffer::shared_array_buffer(const shared_array_buffer&)"
              "source array buffer has released") m
  else if reference_count m =? Mach.INT_MAX then Undefined
  else Returns tt (with_count (reference_count m + 1) m).

(** The destructor's body under [&meta_->ptr != nullptr], up to its last
    statement; the value tells whether [allocator->release()] and
    [delete allocator_ptr] ran. The registry of the allocator holds the
    meta block itself (the constructor took it from this allocator), so
    the meta block is among the blocks [release()] frees. *)
Definition destructor_body (m : meta) : outcome bool meta :=
  if reference_count m =? Mach.INT_MIN then Undefined
  else
    let rc := reference_count m - 1 in
    if rc =? 0 then
      Returns true
        {| ptr := ptr m;
           allocator :=
             heap_allocator.destroy (heap_allocator.release (allocator m));
           capacity := capacity m; reference_count := rc; mem := mem m |}
    else Returns false (with_count rc m).

(** The destructor: its body and then its last statement,
    [meta_->mutex.unlock()]. After the branch that released, that
    statement unlocks a mutex that was unlocked already, and the mutex lies
    in the meta block, which [release()] has just freed: undefined. *)
Definition destructor (m : meta) : outcome unit meta :=
  match destructor_body m with
  | Returns released m' => if released then Undefined else Returns tt m'
  | Throws e m' => Throws e m'
  | Undefined => Undefined
  end.

Definition expand (L : libc) (new_capacity : Z) (m : meta)
  : outcome unit meta :=
  match heap_allocator.reallocate L (ptr m) new_capacity (allocator m) with
  | Returns r a' =>
      Returns tt {| ptr := r; allocator := a'; capacity := new_capacity;
                    reference_count := reference_count m;
                    mem := if r =? 0 then []
                           else resized L (mem m) new_capacity |}
  | Throws e a' =>
      Throws e {| ptr := ptr m; allocator := a'; capacity := new_capacity;
                  reference_count := reference_count m; mem := mem m |}
  | Undefined => Undefined
  end.


(** *** The objects that share one block

    [objects] holds the [shared_array_buffer] objects alive, each with its
    [meta_] member; [block] is the one meta block, at address [meta_at]. *)
Record world : Type := {
  block : meta;
  meta_at : Z;
  objects : gmap nat Z
}.

Inductive op : Type :=
| Copy (src dst : nat)
| Move (src dst : nat)
| Destroy (h : nat).

Definition start (meta_ : Z) (m : meta) (h : nat) : world :=
  {| block := m; meta_at := meta_; objects := {[ h := meta_ ]} |}.

(** One operation. Naming an object that is not alive, building an object
    where one is alive, and reading through a [meta_] that is not the
    block's address are undefined. The destructor's test
    [&meta_->ptr != nullptr] compares the address [meta_ + offsetof_ptr]
    with null: it fails exactly for an object that was moved from. *)
Definition step (w : world) (o : op) : outcome unit world :=
  match o with
  | Copy src dst =>
      match objects w !! src, objects w !! dst with
      | Some meta_, None =>
          if meta_ =? meta_at w then
            match copy_construct (block w) with
            | Returns _ m' =>
                Returns tt {| block := m'; meta_at := meta_at w;
                              objects := <[dst := meta_]> (objects w) |}
            | Throws e m' =>
                Throws e {| block := m'; meta_at := meta_at w;
                            objects := objects w |}
            | Undefined => Undefined
            end
          else Undefined
      | _, _ => Undefined
      end
  | Move src dst =>
      match objects w !! src, objects w !! dst with
      | Some meta_, None =>
          Returns tt {| block := block w; meta_at := meta_at w;
                        objects := <[src := 0]> (<[dst := meta_]> (objects w)) |}
      | _, _ => Undefined
      end
  | Destroy h =>
      match objects w !! h with
      | Some meta_ =>
          if meta_ + offsetof_ptr =? 0 then
            Returns tt {| block := block w; meta_at := meta_at w;
                          objects := delete h (objects w) |}
          else if meta_ =? meta_at w then
            match destructor (block w) with
            | Returns _ m' =>
                Returns tt {| block := m'; meta_at := meta_at w;
                              objects := delete h (objects w) |}
            | Throws e m' =>
                Throws e {| block := m'; meta_at := meta_at w;
                            objects := delete h (objects w) |}
            | Undefined => Undefined
            end
          else Undefined
      | None => Undefined
      end
  end.

(** A sequence of operations; a caller that catches an exception goes on
    from the state of the throw. [None] once behaviour is undefined. *)
Fixpoint run (w : world) (ops : list op) : option world :=
  match ops with
  | [] => Some w
  | o :: rest =>
      match step w o with
      | Returns _ w' => run w' rest
      | Throws _ w' => run w' rest
      | Undefined => None
      end
  end.

(** The number of objects alive that were not moved from. *)
Definition live_in (objs : gmap nat Z) : nat :=
  length (filter (fun kv : nat * Z => kv.2 <> 0) (map_to_list objs)).

Definition live_copies (w : world) : nat := live_in (objects w).

(** One operation that returns or throws takes [w] to [w']. *)
Definition reaches (w : world) (o : op) (w' : world) : Prop :=
  step w o = Returns tt w' \/ exists e, step w o = Throws e w'.

(** What every state reached from a constructed buffer satisfies. *)
Record consistent (w : world) : Prop := {
  count_is_live : reference_count (block w) = Z.of_nat (live_copies w);
  one_is_live : 1 <= reference_count (block w);
  meta_not_null : meta_at w <> 0;
  points_to_block :
    forall h p, objects w !! h = Some p -> p = 0 \/ p = meta_at w
}.

End shared_array_buffer.

(** ** [unique_array_buffer<heap_allocator>] (memory.h, lines 497-554) *)

Module unique_array_buffer.

Record t : Type := {
  allocator_ : heap_allocator.t;
  ptr_ : Z;
  capacity_ : Z;
  mem_ : list byte
}.

Definition with_mem (bytes : list byte) (b : t) : t :=
  {| allocator_ := allocator_ b; ptr_ := ptr_ b; capacity_ := capacity_ b;
     mem_ := bytes |}.

Definition construct (L : libc) (cap : Z) (a : heap_allocator.t)
  : outcome t heap_allocator.t :=
  bind (heap_allocator.allocate L cap a) (fun p a1 =>
    Returns {| allocator_ := a1; ptr_ := p; capacity_ := cap;
               mem_ := replicate (Z.to_nat cap) x00 |} a1).

Definition expand (L : libc) (new_capacity : Z) (b : t) : outcome unit t :=
  match heap_allocator.reallocate L (ptr_ b) new_capacity (allocator_ b) with
  | Returns r a' =>
      Returns tt {| allocator_ := a'; ptr_ := r; capacity_ := new_capacity;
                    mem_ := if r =? 0 then []
                            else resized L (mem_ b) new_capacity |}
  | Throws e a' =>
      Throws e {| allocator_ := a'; ptr_ := ptr_ b;
                  capacity_ := capacity_ b; mem_ := mem_ b |}
  | Undefined => Undefined
  end.

(** The move constructor: the new object and the source afterwards. *)
Definition move_construct (b : t) : t * t :=
  let moved := heap_allocator.move_construct (allocator_ b) in
  ({| allocator_ := moved.1; ptr_ := ptr_ b; capacity_ := capacity_ b;
      mem_ := mem_ b |},
   {| allocator_ := moved.2; ptr_ := 0; capacity_ := 0; mem_ := [] |}).

(** [release()]: [ptr_] and [capacity_] stay as they are; the region is
    gone. *)
Definition release (b : t) : t :=
  if ptr_ b =? 0 then b
  else {| allocator_ := heap_allocator.release (allocator_ b);
          ptr_ := ptr_ b; capacity_ := capacity_ b; mem_ := [] |}.

(** The destructor: its body, then the end of the member [allocator_]. *)
Definition destructor (b : t) : t :=
  let b1 := release b in
  {| allocator_ := heap_allocator.destroy (allocator_ b1);
     ptr_ := ptr_ b1; capacity_ := capacity_ b1; mem_ := mem_ b1 |}.

End unique_array_buffer.

(** ** The concept [is_buffer] and [buffer_stream] (memory.h, lines 152-410) *)

Class is_buffer (B : Type) : Type := {
  pointer : B -> Z;
  capacity : B -> Z;
  contents : B -> list byte;
  set_contents : list byte -> B -> B;
  expand : libc -> Z -> B -> outcome unit B
}.

#[export] Instance shared_is_buffer : is_buffer shared_array_buffer.meta := {
  pointer := shared_array_buffer.ptr;
  capacity := shared_array_buffer.capacity;
  contents := shared_array_buffer.mem;
  set_contents := shared_array_buffer.with_mem;
  expand := shared_array_buffer.expand
}.

#[export] Instance unique_is_buffer : is_buffer unique_array_buffer.t := {
  pointer := unique_array_buffer.ptr_;
  capacity := unique_array_buffer.capacity_;
  contents := unique_array_buffer.mem_;
  set_contents := unique_array_buffer.with_mem;
  expand := unique_array_buffer.expand
}.

Module stream.

Record buffer_stream (B : Type) : Type := {
  buffer_ : B;
  position_ : Z;
  eof_ : bool;
  auto_expand : bool
}.

Arguments buffer_ {B} _.
Arguments position_ {B} _.
Arguments eof_ {B} _.
Arguments auto_expand {B} _.

Section ops.

Context {B : Type} `{is_buffer B}.

Definition open (b : B) : buffer_stream B :=
  {| buffer_ := b; position_ := 0; eof_ := false; auto_expand := false |}.

Definition set_buffer (b : B) (s : buffer_stream B) : buffer_stream B :=
  {| buffer_ := b; position_ := position_ s; eof_ := eof_ s;
     auto_expand := auto_expand s |}.

Definition set_position (p : Z) (s : buffer_stream B) : buffer_stream B :=
  {| buffer_ := buffer_ s; position_ := p; eof_ := eof_ s;
     auto_expand := auto_expand s |}.

Definition set_eof (e : bool) (s : buffer_stream B) : buffer_stream B :=
  {| buffer_ := buffer_ s; position_ := position_ s; eof_ := e;
     auto_expand := auto_expand s |}.

Definition set_auto_expand (enable : bool) (s : buffer_stream B)
  : buffer_stream B :=
  {| buffer_ := buffer_ s; position_ := position_ s; eof_ := eof_ s;
     auto_expand := enable |}.

(** Whether the bytes [offset, offset + size) lie inside the region. *)
Definition accessible (mem : list byte) (offset size : Z) : bool :=
  (0 <=? offset) && (0 <=? size)
  && (offset + size <=? Z.of_nat (length mem)).

(** The buffer is an object: [capacity] bytes at an address that is not
    null, inside the address space, and no more than [PTRDIFF_MAX]. *)
Definition is_object (b : B) : Prop :=
  0 < pointer b
  /\ pointer b + capacity b <= Mach.SIZE_MAX
  /\ Z.of_nat (length (contents b)) = capacity b
  /\ capacity b <= Mach.PTRDIFF_MAX.

Definition reference (s : buffer_stream B) (offset size : Z) : Z :=
  if Mach.to_size_t (offset + size) >? capacity (buffer_ s) then 0
  else Mach.to_size_t (pointer (buffer_ s) + offset).

(** [read]: the value is the flag and the bytes of [dest] afterwards. A
    copy that leaves the region or overruns [dest] is undefined. *)
Definition read (s : buffer_stream B) (dest : list byte) (offset size : Z)
  : outcome (bool * list byte) (buffer_stream B) :=
  if reference s offset size =? 0 then Returns (false, dest) s
  else if accessible (contents (buffer_ s)) offset size
          && (size <=? Z.of_nat (length dest))
  then Returns (true, Mach.memcpy dest
                        (drop (Z.to_nat offset) (contents (buffer_ s))) size)
               s
  else Undefined.

Definition write (s : buffer_stream B) (src : list byte) (offset size : Z)
  : outcome bool (buffer_stream B) :=
  if Mach.to_size_t (offset + size) >? capacity (buffer_ s) then
    Returns false s
  else if accessible (contents (buffer_ s)) offset size
          && (size <=? Z.of_nat (length src))
  then Returns true
         (set_buffer
            (set_contents
               (Mach.blit (contents (buffer_ s)) offset
                          (take (Z.to_nat size) src))
               (buffer_ s)) s)
  else Undefined.

Definition mark_eof_at (curr : Z) (s : buffer_stream B) : buffer_stream B :=
  if curr =? capacity (buffer_ s) then set_eof true s else s.

(** [get<T>()] with [step = sizeof(T)]: the value is the object
    representation of the [T] returned. *)
Definition get_plain (step : Z) (s : buffer_stream B)
  : outcome (list byte) (buffer_stream B) :=
  let curr := Mach.to_size_t (position_ s + step) in
  let s1 := set_position curr (mark_eof_at curr s) in
  let object := replicate (Z.to_nat step) x00 in
  bind (read s1 object (Mach.to_size_t (curr - step)) step)
    (fun r s2 =>
       if r.1 then Returns r.2 s2
       else Returns (replicate (Z.to_nat step) x00) (set_eof true s2)).

(** [get(dest, size)]: the value is the count returned and the bytes of
    [dest] afterwards. *)
Definition get (dest : list byte) (size : Z) (s : buffer_stream B)
  : outcome (Z * list byte) (buffer_stream B) :=
  let curr := Mach.to_size_t (position_ s + size) in
  if eof_ s then Returns (-1, dest) s
  else if curr >=? capacity (buffer_ s) then
    let s1 := set_eof true s in
    let remain := Mach.to_size_t (capacity (buffer_ s1) - position_ s1) in
    bind (read s1 dest (position_ s1) remain)
      (fun r s2 =>
         Returns (Mach.to_ssize_t remain, r.2)
                 (set_position (capacity (buffer_ s2)) s2))
  else
    bind (read s dest (position_ s) size)
      (fun r s1 =>
         Returns (Mach.to_ssize_t size, r.2) (set_position curr s1)).

(** The bare-string [get()]. [strlen] that runs off the region is
    undefined. The string is sized to [length] and then filled by [read]. *)
Definition get_string (s : buffer_stream B)
  : outcome (list byte) (buffer_stream B) :=
  match Mach.strlen (drop (Z.to_nat (position_ s))
                          (contents (buffer_ s))) with
  | None => Undefined
  | Some length =>
      let curr := Mach.to_size_t (position_ s + length) in
      let s1 := set_position curr (mark_eof_at curr s) in
      let str := replicate (Z.to_nat length) x00 in
      bind (read s1 str (Mach.to_size_t (curr - length)) length)
        (fun r s2 =>
           if r.1 then Returns r.2 s2
           else Returns [] (set_eof true s2))
  end.

(** [get_as<T>()]: the value is the object representation seen through
    the reference returned. *)
Definition get_as_plain (step : Z) (s : buffer_stream B)
  : outcome (list byte) (buffer_stream B) :=
  let curr := Mach.to_size_t (position_ s + step) in
  let s1 := set_position curr (mark_eof_at curr s) in
  let offset := Mach.to_size_t (curr - step) in
  if reference s1 offset step =? 0 then
    Throws (memory_exception "buffer_stream::get_as<T>()"
                             "segment fault, invalid pointer access")
           (set_eof true s1)
  else if accessible (contents (buffer_ s1)) offset step then
    Returns (Mach.slice (contents (buffer_ s1)) offset step) s1
  else Undefined.

(** [get_as()]: the value is the bytes the view returned covers. *)
Definition get_as_view (s : buffer_stream B)
  : outcome (list byte) (buffer_stream B) :=
  if reference s (position_ s) Mach.sizeof_size_t =? 0 then
    Returns [] (set_eof true s)
  else if negb (accessible (contents (buffer_ s)) (position_ s)
                           Mach.sizeof_size_t) then Undefined
  else
    let length :=
      Mach.decode_le (Mach.slice (contents (buffer_ s)) (position_ s)
                                 Mach.sizeof_size_t) in
    let data := Mach.to_size_t (position_ s + Mach.sizeof_size_t) in
    if reference s data length =? 0 then Returns [] (set_eof true s)
    else if negb (accessible (contents (buffer_ s)) data length) then
      Undefined
    else
      Returns (Mach.slice (contents (buffer_ s)) data length)
              (set_position
                 (Mach.to_size_t
                    (position_ s + (Mach.sizeof_size_t + length))) s).

Definition grow (L : libc) (curr : Z) (s : buffer_stream B)
  : outcome unit (buffer_stream B) :=
  if auto_expand s && (curr >=? capacity (buffer_ s)) then
    match expand L curr (buffer_ s) with
    | Returns _ b => Returns tt (set_buffer b s)
    | Throws e b => Throws e (set_buffer b s)
    | Undefined => Undefined
    end
  else Returns tt s.

(** [append<T>(t)], [t] given by its object representation. *)
Definition append_plain (L : libc) (t : list byte) (s : buffer_stream B)
  : outcome bool (buffer_stream B) :=
  let step := Z.of_nat (length t) in
  let curr := Mach.to_size_t (position_ s + step) in
  bind (grow L curr s) (fun _ s1 =>
    let s2 := set_position curr (mark_eof_at curr s1) in
    bind (write s2 t (Mach.to_size_t (curr - step)) step) (fun ok s3 =>
      if ok then Returns true s3 else Returns false (set_eof true s3))).

(** [append(const std::string_view&)]. *)
Definition append_view (L : libc) (sv : list byte) (s : buffer_stream B)
  : outcome bool (buffer_stream B) :=
  let original_length := Z.of_nat (length sv) in
  let length := Mach.to_size_t (original_length + Mach.sizeof_size_t) in
  let curr := Mach.to_size_t (position_ s + length) in
  bind (grow L curr s) (fun _ s1 =>
    let s2 := set_position curr (mark_eof_at curr s1) in
    bind (write s2 (Mach.encode_le 8 original_length)
                (Mach.to_size_t (curr - length)) Mach.sizeof_size_t)
      (fun ok s3 =>
         if ok then
           bind (write s3 sv (Mach.to_size_t (curr - original_length))
                       original_length)
             (fun ok' s4 =>
                if ok' then Returns true s4
                else Returns false (set_eof true s4))
         else Returns false (set_eof true s3))).

(** [append(const char*, size_t)]. *)
Definition append_raw (L : libc) (src : list byte) (size : Z)
           (s : buffer_stream B) : outcome bool (buffer_stream B) :=
  let curr := Mach.to_size_t (position_ s + size) in
  bind (grow L curr s) (fun _ s1 =>
    let s2 := set_position curr (mark_eof_at curr s1) in
    bind (write s2 src (Mach.to_size_t (curr - size)) size) (fun ok s3 =>
      if ok then Returns true s3 else Returns false (set_eof true s3))).

Definition rewind (s : buffer_stream B) : buffer_stream B :=
  set_position 0 s.

Definition eof (s : buffer_stream B) : bool := eof_ s.

Definition clear_eof (s : buffer_stream B) : buffer_stream B :=
  set_eof false s.

Definition back (len : Z) (s : buffer_stream B) : buffer_stream B :=
  let s1 := set_position (Mach.to_size_t (position_ s - len)) s in
  if position_ s1 <? capacity (buffer_ s1) then set_eof false s1 else s1.

Definition forward (len : Z) (s : buffer_stream B) : buffer_stream B :=
  let s1 := set_position (Mach.to_size_t (position_ s + len)) s in
  if position_ s1 >=? capacity (buffer_ s1) then set_eof true s1 else s1.

End ops.
End stream.

(** ** The concept [is_event] (evchannel.h, lines 10-15)

    [content] yields a new object on the event's block: its outcome is read
    on that block, which the event and the new object share. *)

Class is_event (E : Type) : Type := {
  unique_event_id : Z;
  from_buffer : shared_array_buffer.meta -> outcome E unit;
  content : E -> outcome unit shared_array_buffer.meta
}.

(** ** [event_log] (log.h, lines 38-117) *)

Inductive log_level : Type :=
| UNKNOWN | TRACE | INFO | WARN | DEBUG | ERROR | FATAL.

Definition level_value (lv : log_level) : Z :=
  match lv with
  | UNKNOWN => 0 | TRACE => 1 | INFO => 2 | WARN => 3
  | DEBUG => 4 | ERROR => 5 | FATAL => 6
  end.

Module event_log.

(** An object of type [log_level] is the [int] under it; [time_t] is a
    signed 64-bit integer; a [string_view] is read as the bytes it covers. *)
Record t : Type := {
  buffer_ : shared_array_buffer.meta;
  lv_ : Z;
  tm_ : Z;
  from_ : list byte;
  msg_ : list byte
}.

Definition sizeof_lv : Z := 4.
Definition sizeof_tm : Z := Mach.sizeof_time_t.

(** [if (!stream.append(x)) throw memory_exception(...)], then go on. *)
Definition checked {B A : Type} (c : outcome bool (stream.buffer_stream B))
           (reason : string)
           (k : stream.buffer_stream B -> outcome A unit) : outcome A unit :=
  match c with
  | Returns true s => k s
  | Returns false _ =>
      Throws (memory_exception "event_log::event_log()" reason) tt
  | Throws e _ => Throws e tt
  | Undefined => Undefined
  end.

(** [event_log(lv, tm, from, msg)]. *)
Definition make (L : libc) (lv tm : Z) (from msg : list byte)
  : outcome t unit :=
  let cap := Mach.to_size_t (sizeof_lv + sizeof_tm + Z.of_nat (length from)
                             + Z.of_nat (length msg) + 1) in
  match shared_array_buffer.construct L cap heap_allocator.new with
  | Returns (_, m) _ =>
      let s := stream.set_auto_expand true (stream.open m) in
      checked (stream.append_plain L (Mach.encode_le 4 lv) s)
        "cannot write log_level to event_log array buffer" (fun s1 =>
      checked (stream.append_plain L (Mach.encode_le 8 tm) s1)
        "cannot write time_t to event_log array buffer" (fun s2 =>
      checked (stream.append_view L from s2)
        "cannot write from_process to event_log array buffer" (fun s3 =>
      checked (stream.append_view L msg s3)
        "cannot write message to event_log array buffer" (fun s4 =>
      Returns {| buffer_ := stream.buffer_ s4; lv_ := lv; tm_ := tm;
                 from_ := from; msg_ := msg |} tt))))
  | Throws e _ => Throws e tt
  | Undefined => Undefined
  end.

Definition is_empty (v : list byte) : bool :=
  match v with [] => true | _ :: _ => false end.

(** [event_log(general_shared_array_buffer_t)]. *)
Definition decode (m : shared_array_buffer.meta) : outcome t unit :=
  let s := stream.open m in
  match stream.get_as_plain sizeof_lv s with
  | Returns lv s1 =>
      match stream.get_as_plain sizeof_tm s1 with
      | Returns tm s2 =>
          match stream.get_as_view s2 with
          | Returns from s3 =>
              if is_empty from then
                Throws (memory_exception "event_log::event_log()"
                          "cannot read from_process from event_log array buffer")
                       tt
              else
                match stream.get_as_view s3 with
                | Returns msg s4 =>
                    if is_empty msg then
                      Throws (memory_exception "event_log::event_log()"
                                "cannot read message from event_log array buffer")
                             tt
                    else
                      Returns {| buffer_ := stream.buffer_ s4;
                                 lv_ := Mach.to_int (Mach.decode_le lv);
                                 tm_ := Mach.to_int64 (Mach.decode_le tm);
                                 from_ := from; msg_ := msg |} tt
                | Throws e _ => Throws e tt
                | Undefined => Undefined
                end
          | Throws e _ => Throws e tt
          | Undefined => Undefined
          end
      | Throws e _ => Throws e tt
      | Undefined => Undefined
      end
  | Throws e _ => Throws e tt
  | Undefined => Undefined
  end.

Definition get_content (e : t) : outcome unit shared_array_buffer.meta :=
  shared_array_buffer.copy_construct (buffer_ e).

End event_log.

#[export] Instance event_log_is_event : is_event event_log.t := {
  unique_event_id := 1;
  from_buffer := event_log.decode;
  content := event_log.get_content
}.

(** ** [tick_event] (timer.h, lines 9-27) *)

Module tick_event.

Record t : Type := {
  buffer_ : shared_array_buffer.meta;
  ticks_ : Z
}.

(** [tick_event(int64_t ticks)]: a buffer of 8 bytes, and one [append] on a
    stream that does not grow it; what [append] returns is not looked at. *)
Definition make (L : libc) (ticks : Z) : outcome t unit :=
  match shared_array_buffer.construct L 8 heap_allocator.new with
  | Returns (_, m) _ =>
      match stream.append_plain L (Mach.encode_le 8 ticks) (stream.open m) with
      | Returns _ s =>
          Returns {| buffer_ := stream.buffer_ s; ticks_ := ticks |} tt
      | Throws e _ => Throws e tt
      | Undefined => Undefined
      end
  | Throws e _ => Throws e tt
  | Undefined => Undefined
  end.

(** [tick_event(general_shared_array_buffer_t)]. *)
Definition decode (m : shared_array_buffer.meta) : outcome t unit :=
  match stream.get_as_plain Mach.sizeof_int64_t (stream.open m) with
  | Returns ticks s =>
      Returns {| buffer_ := stream.buffer_ s;
                 ticks_ := Mach.to_int64 (Mach.decode_le ticks) |} tt
  | Throws e _ => Throws e tt
  | Undefined => Undefined
  end.

Definition get_content (e : t) : outcome unit shared_array_buffer.meta :=
  shared_array_buffer.copy_construct (buffer_ e).

End tick_event.

#[export] Instance tick_event_is_event : is_event tick_event.t := {
  unique_event_id := 1;
  from_buffer := tick_event.decode;
  content := tick_event.get_content
}.

(** ** [timer] (timer.h, lines 30-105) *)

Module timer.

Definition INT64_MAX : Z := 2 ^ 63 - 1.
Definition INT64_MIN : Z := - 2 ^ 63.

Record tv_t : Type := {
  gap : Z;
  countdown : Z;
  spend : Z;
  total : Z
}.

Definition make_tv (gap times : Z) : tv_t :=
  {| gap := gap; countdown := gap; spend := 0; total := times |}.

Definition invalid : tv_t :=
  {| gap := -1; countdown := -1; spend := -1; total := -1 |}.

Definition inf_times : Z := -1.

(** What the tick handler does to one task: [--tv.countdown == 0], the
    callback, [++tv.spend == tv.total], and then either the erasure or
    [tv.countdown = tv.gap]. The value tells whether the callback ran and
    whether the task was erased; the state is [tv] afterwards (for a task
    erased: as the callback saw it, with [spend] incremented). Leaving the
    range of [int64_t] is undefined. *)
Definition tick_task (tv : tv_t) : outcome (bool * bool) tv_t :=
  if countdown tv =? INT64_MIN then Undefined
  else
    let c := countdown tv - 1 in
    if c =? 0 then
      if spend tv =? INT64_MAX then Undefined
      else
        let sp := spend tv + 1 in
        if sp =? total tv then
          Returns (true, true)
                  {| gap := gap tv; countdown := c; spend := sp;
                     total := total tv |}
        else
          Returns (true, false)
                  {| gap := gap tv; countdown := gap tv; spend := sp;
                     total := total tv |}
    else
      Returns (false, false)
              {| gap := gap tv; countdown := c; spend := spend tv;
                 total := total tv |}.

(** [n] ticks on one task that is not erased on the way: the task
    afterwards and how often its callback ran. [None]: the task was erased
    or an integer overflowed. *)
Fixpoint ticks (n : nat) (tv : tv_t) : option (tv_t * Z) :=
  match n with
  | O => Some (tv, 0)
  | S n' =>
      match tick_task tv with
      | Returns (fired, false) tv' =>
          match ticks n' tv' with
          | Some (tv'', k) => Some (tv'', (if fired then 1 else 0) + k)
          | None => None
          end
      | _ => None
      end
  end.

Section tasks.

(** [CB] stands for [callback_t]. *)
Context {CB : Type}.

Record task_t : Type := {
  tv : tv_t;
  cb : CB
}.

Record t : Type := {
  tasks_ : gmap Z task_t;
  cid_count_ : Z;
  flag_ : bool
}.

Definition new : t := {| tasks_ := ∅; cid_count_ := 0; flag_ := false |}.

Definition add (v : tv_t) (f : CB) (tm : t) : outcome Z t :=
  if cid_count_ tm =? Mach.INT_MAX then Undefined
  else
    let cid := cid_count_ tm in
    Returns cid {| tasks_ := <[cid := {| tv := v; cb := f |}]> (tasks_ tm);
                   cid_count_ := cid + 1; flag_ := flag_ tm |}.

Definition cancel (cid : Z) (tm : t) : bool * t :=
  match tasks_ tm !! cid with
  | Some _ =>
      (true, {| tasks_ := delete cid (tasks_ tm);
                cid_count_ := cid_count_ tm; flag_ := flag_ tm |})
  | None => (false, tm)
  end.

Definition query (cid : Z) (tm : t) : tv_t :=
  match tasks_ tm !! cid with
  | Some task => tv task
  | None => {| gap := -1; countdown := -1; spend := -1; total := -1 |}
  end.

(** Every id in use is below the counter. *)
Definition ids_below_counter (tm : t) : Prop :=
  forall cid task, tasks_ tm !! cid = Some task -> cid < cid_count_ tm.

(** The loop of the handler that [run] subscribes, over the tasks in the
    order of the container. A callback is taken to return, and not to
    touch the timer. [tasks_.erase(cid)] inside the range-for erases the
    element the loop stands on: its iterator is invalid, and going on to
    the next element is undefined. The value lists the calls made: the id
    and the [tv] handed to the callback. *)
Fixpoint tick_all (tasks : list (Z * task_t))
  : outcome (list (Z * tv_t)) (list (Z * task_t)) :=
  match tasks with
  | [] => Returns [] []
  | (cid, task) :: rest =>
      match tick_task (tv task) with
      | Returns (fired, erased) tv' =>
          if erased then Undefined
          else
            match tick_all rest with
            | Returns calls rest' =>
                Returns
                  ((if fired
                    then [(cid, {| gap := gap (tv task); countdown := 0;
                                   spend := spend (tv task);
                                   total := total (tv task) |})]
                    else []) ++ calls)
                  ((cid, {| tv := tv'; cb := cb task |}) :: rest')
            | other => other
            end
      | Throws e _ => Throws e tasks
      | Undefined => Undefined
      end
  end.

Definition on_tick (tm : t) : outcome (list (Z * tv_t)) t :=
  match tick_all (map_to_list (tasks_ tm)) with
  | Returns calls tasks =>
      Returns calls {| tasks_ := list_to_map tasks;
                       cid_count_ := cid_count_ tm; flag_ := flag_ tm |}
  | Throws e _ => Throws e tm
  | Undefined => Undefined
  end.

End tasks.

Arguments task_t CB : clear implicits.
Arguments t CB : clear implicits.

End timer.

(** ** [event_channel] (evchannel.h, lines 17-81) *)

Module event_channel.

(** What [post] did, in order: the call of [content()], and every call of
    a [callback_function], with the block as the callee received it. *)
Inductive action : Type :=
| content_called
| invoked (cbid : Z) (received : shared_array_buffer.meta).

Section channel.

(** [W] is whatever the subscribers' handlers act on. A running [post]
    carries the one block of the event's buffer, [W], and the log. A
    callback acts on these; it does not subscribe, unsubscribe or post on
    the channel that is calling it. *)
Context {W : Type}.

Record frame : Type := {
  block : shared_array_buffer.meta;
  user : W;
  log : list action
}.

Definition on_block (m : shared_array_buffer.meta) (f : frame) : frame :=
  {| block := m; user := user f; log := log f |}.

Definition evcallback_t : Type := frame -> outcome unit frame.

Record evhandler_t : Type := {
  callback_function : evcallback_t;
  callback_id : Z
}.

Record t : Type := {
  evhandlers_ : gmap Z (list evhandler_t);
  cbid_count_ : Z
}.

Definition new : t := {| evhandlers_ := ∅; cbid_count_ := 0 |}.

(** The end of life of a [shared_array_buffer] object on the block. *)
Definition drop_object (f : frame) : outcome unit frame :=
  match shared_array_buffer.destructor (block f) with
  | Returns _ m => Returns tt (on_block m f)
  | Throws e m => Throws e (on_block m f)
  | Undefined => Undefined
  end.

(** The closure [subscribe] stores: [event_handler(E(std::move(buffer)))].
    The buffer object handed in ends its life inside the event built from
    it, when the call is over or is left by an exception. *)
Definition packaged {E : Type} `{is_event E}
           (event_handler : E -> W -> outcome unit W) : evcallback_t :=
  fun f =>
    match from_buffer (block f) with
    | Returns e _ =>
        match event_handler e (user f) with
        | Returns _ w =>
            drop_object {| block := block f; user := w; log := log f |}
        | Throws ex w =>
            match drop_object {| block := block f; user := w;
                                 log := log f |} with
            | Returns _ f' => Throws ex f'
            | other => other
            end
        | Undefined => Undefined
        end
    | Throws ex _ =>
        match drop_object f with
        | Returns _ f' => Throws ex f'
        | other => other
        end
    | Undefined => Undefined
    end.

Definition handlers_of (ueid : Z) (ch : t) : list evhandler_t :=
  match evhandlers_ ch !! ueid with
  | Some handlers => handlers
  | None => []
  end.

Definition subscribe {E : Type} `{is_event E}
           (event_handler : E -> W -> outcome unit W) (ch : t)
  : outcome Z t :=
  if cbid_count_ ch =? Mach.INT_MAX then Undefined
  else
    let cbid := cbid_count_ ch in
    let entry := {| callback_function := packaged event_handler;
                    callback_id := cbid |} in
    let ueid := unique_event_id (E := E) in
    Returns cbid
      {| evhandlers_ :=
           <[ueid := handlers_of ueid ch ++ [entry]]> (evhandlers_ ch);
         cbid_count_ := cbid + 1 |}.

(** [unsubscribe<E>(callback_id)].
    [std::remove_if] moves the handlers it keeps to the front, in order, and
    returns the end of that run; what lies behind is a handler that matched
    (untouched) or one that was moved from: its id is the same and its
    [std::function] is in a state the library does not specify, given here
    by [hollowed]. The call of [erase] takes one iterator: it erases the one
    element at the end of the run kept, and is undefined when that is
    [end()], that is when no handler matched. *)
Definition unsubscribe {E : Type} `{is_event E}
           (hollowed : evcallback_t -> evcallback_t) (id : Z) (ch : t)
  : outcome bool t :=
  let ueid := unique_event_id (E := E) in
  match evhandlers_ ch !! ueid with
  | Some handlers =>
      let matches := fun h => callback_id h =? id in
      let kept := List.filter (fun h => negb (matches h)) handlers in
      let r := length kept in
      if (r =? length handlers)%nat then Undefined
      else
        let behind :=
          map (fun h =>
                 if matches h then h
                 else {| callback_function := hollowed (callback_function h);
                         callback_id := callback_id h |})
              (drop r handlers) in
        Returns true
          {| evhandlers_ := <[ueid := kept ++ tail behind]> (evhandlers_ ch);
             cbid_count_ := cbid_count_ ch |}
  | None => Returns false ch
  end.

(** Every id registered, under whatever event type, is below the
    counter. *)
Definition ids_below_counter (ch : t) : Prop :=
  forall ueid h, h ∈ handlers_of ueid ch -> callback_id h < cbid_count_ ch.

(** The loop of [post] over the handlers of one event type: a new object
    on the block for each call, in the vector's order. *)
Fixpoint deliver (handlers : list evhandler_t) (f : frame)
  : outcome unit frame :=
  match handlers with
  | [] => Returns tt f
  | handler :: rest =>
      match shared_array_buffer.copy_construct (block f) with
      | Returns _ m =>
          bind (callback_function handler
                  {| block := m; user := user f;
                     log := log f ++ [invoked (callback_id handler) m] |})
               (fun _ f' => deliver rest f')
      | Throws e m => Throws e (on_block m f)
      | Undefined => Undefined
      end
  end.

(** [post(event)]. The local [buffer] ends its life when [post] returns
    and when an exception leaves it. *)
Definition post {E : Type} `{is_event E} (event : E) (ch : t) (w : W)
  : outcome unit frame :=
  match content event with
  | Returns _ m =>
      let f := {| block := m; user := w; log := [content_called] |} in
      match deliver (handlers_of (unique_event_id (E := E)) ch) f with
      | Returns _ f' => drop_object f'
      | Throws ex f' =>
          match drop_object f' with
          | Returns _ f'' => Throws ex f''
          | other => other
          end
      | Undefined => Undefined
      end
  | Throws e m => Throws e {| block := m; user := w; log := [content_called] |}
  | Undefined => Undefined
  end.

(** A subscriber as a call [subscribe<E>(event_handler)] describes it:
    the event type, the handler, and the id the call returned. *)
Record subscriber : Type := {
  event_type : Type;
  event_type_is_event : is_event event_type;
  event_handler : event_type -> W -> outcome unit W;
  subscriber_id : Z
}.

(** The entry [subscribe] appends for it. *)
Definition entry_of (s : subscriber) : evhandler_t :=
  {| callback_function :=
       packaged (E := event_type s) (H := event_type_is_event s)
                (event_handler s);
     callback_id := subscriber_id s |}.

(** The handlers called one after the other, each with the event its
    type decodes from the block [b] and with [W] as the one before left
    it, up to the first call that does not return: how many calls were
    begun, and how the last of them ended. This is the reading of "every
    subscriber is invoked once, in order" that [post] is compared
    with. *)
Fixpoint in_turn (b : shared_array_buffer.meta) (subs : list subscriber)
         (w : W) : nat * outcome unit W :=
  match subs with
  | [] => (0%nat, Returns tt w)
  | s :: rest =>
      match from_buffer (E := event_type s) (is_event := event_type_is_event s)
                        b with
      | Returns e _ =>
          match event_handler s e w with
          | Returns _ w' =>
              let r := in_turn b rest w' in (S r.1, r.2)
          | Throws ex w' => (1%nat, Throws ex w')
          | Undefined => (1%nat, Undefined)
          end
      | Throws ex _ => (1%nat, Throws ex w)
      | Undefined => (1%nat, Undefined)
      end
  end.

End channel.

Arguments frame W : clear implicits.
Arguments evcallback_t W : clear implicits.
Arguments evhandler_t W : clear implicits.
Arguments t W : clear implicits.
Arguments subscriber W : clear implicits.

End event_channel.

(** ** Descriptors: [writefd], [readfd] and [nonblocking_socket_stream]
    (io.h, lines 61-124) *)

Module io.

Definition EINTR : Z := 4.
Definition EAGAIN : Z := 11.
Definition EWOULDBLOCK : Z := 11.

(** What one [write] or [recv] call answers: the bytes it moved (for
    [write], how many), or [-1] with [errno]. *)
Inductive answer : Type :=
| moved (bytes : list byte)
| count (n : Z)
| failed (errno : Z).

Definition transient (errno : Z) : bool :=
  (errno =? EINTR) || (errno =? EAGAIN) || (errno =? EWOULDBLOCK).

(** [writefd(fd, buf, size)] against the answers of the coming [write]
    calls; [buf] is the object [off] points into, [sent] what the
    descriptor took so far. The value is the answers not yet used.
    [None]: the loop is still running when the answers end. The text of
    the exception is put together from [fd], [errno] and the counts and is
    left out. *)
Fixpoint writefd (answers : list answer) (off : list byte) (left : Z)
         (sent : list byte) : option (outcome (list answer) (list byte)) :=
  if left >? 0 then
    match answers with
    | [] => None
    | failed errno :: rest =>
        if transient errno then writefd rest off left sent
        else Some (Throws (io_exception "writefd()" "write() failed") sent)
    | count n :: rest =>
        if (0 <=? n) && (n <=? Z.of_nat (length off)) then
          writefd rest (drop (Z.to_nat n) off) (Mach.to_size_t (left - n))
                  (sent ++ take (Z.to_nat n) off)
        else Some Undefined
    | moved _ :: _ => Some Undefined
    end
  else Some (Returns answers sent).

(** [nonblocking_socket_stream::read()]: the loop over [recv] calls. *)
Fixpoint drain (L : libc) (answers : list answer)
         (s : stream.buffer_stream unique_array_buffer.t)
  : option (outcome unit (stream.buffer_stream unique_array_buffer.t)) :=
  match answers with
  | [] => None
  | failed errno :: rest =>
      if (errno =? EAGAIN) || (errno =? EWOULDBLOCK) then
        Some (Returns tt s)
      else drain L rest s
  | moved tmp :: rest =>
      let r := Z.of_nat (length tmp) in
      if r =? 0 then
        Some (Throws (io_exception "nonblocking_socket_stream::read()"
                                   "met EOF") s)
      else if r >? 1024 then Some Undefined
      else
        match stream.append_raw L tmp r s with
        | Returns true s' => drain L rest s'
        | Returns false s' =>
            Some (Throws (io_exception "nonblocking_socket_stream::read()"
                                       "cannot write buffer") s')
        | Throws e s' => Some (Throws e s')
        | Undefined => Some Undefined
        end
  | count _ :: _ => Some Undefined
  end.

Definition nonblocking_read (L : libc) (answers : list answer)
  : option (outcome unique_array_buffer.t unit) :=
  match unique_array_buffer.construct L 1024 heap_allocator.new with
  | Returns buffer _ =>
      match drain L answers
              (stream.set_auto_expand true (stream.open buffer)) with
      | Some (Returns _ s) => Some (Returns (stream.buffer_ s) tt)
      | Some (Throws e _) => Some (Throws e tt)
      | Some Undefined => Some Undefined
      | None => None
      end
  | Throws e _ => Some (Throws e tt)
  | Undefined => Some Undefined
  end.

(** [readfd(fd, buf, size)] against the answers of the coming [read]
    calls; [got] is what was stored in [buf] so far. A [read] that answers
    more than it was asked for is undefined. *)
Fixpoint readfd (answers : list answer) (left : Z) (got : list byte)
  : option (outcome (list answer) (list byte)) :=
  if left >? 0 then
    match answers with
    | [] => None
    | failed errno :: rest =>
        if transient errno then readfd rest left got
        else Some (Throws (io_exception "readfd()" "read() failed") got)
    | moved bytes :: rest =>
        if Z.of_nat (length bytes) <=? left then
          readfd rest (Mach.to_size_t (left - Z.of_nat (length bytes)))
                 (got ++ bytes)
        else Some Undefined
    | count _ :: _ => Some Undefined
    end
  else Some (Returns answers got).

(** The bytes that the [read] calls of a run of answers delivered. *)
Fixpoint delivered (answers : list answer) : list byte :=
  match answers with
  | [] => []
  | moved bytes :: rest => bytes ++ delivered rest
  | _ :: rest => delivered rest
  end.

(** [nonblocking_socket_stream::write(buffer)]: the view [get_as()] reads at
    the start of the buffer goes to [writefd]. *)
Definition nonblocking_write (buffer : unique_array_buffer.t)
           (answers : list answer) (sent : list byte)
  : option (outcome (list answer) (list byte)) :=
  match stream.get_as_view (stream.open buffer) with
  | Returns str _ => writefd answers str (Z.of_nat (length str)) sent
  | Throws e _ => Some (Throws e sent)
  | Undefined => Some Undefined
  end.

(** A connected pair: what one end took arrives at the other end in
    order, at most 1024 bytes a call, and then [recv] reports that
    nothing is ready. *)
Fixpoint arrivals (fuel : nat) (bytes : list byte) : list answer :=
  match fuel, bytes with
  | _, [] => [failed EAGAIN]
  | O, _ :: _ => [failed EAGAIN]
  | S fuel', _ :: _ =>
      moved (take 1024 bytes) :: arrivals fuel' (drop 1024 bytes)
  end.

Definition connected (bytes : list byte) : list answer :=
  arrivals (length bytes) bytes.

End io.

(** ** Packets (evchannel.h, lines 83-119) *)

Module packet.

(** Layout of a standard-layout struct: each member at the next multiple
    of its alignment, the size rounded up to the largest alignment. The
    members are given as (size, alignment). *)
Definition align_up (off a : Z) : Z := (off + a - 1) / a * a.

Fixpoint offsets (off : Z) (members : list (Z * Z)) : list Z :=
  match members with
  | [] => []
  | (size, a) :: rest =>
      align_up off a :: offsets (align_up off a + size) rest
  end.

Fixpoint end_of (off : Z) (members : list (Z * Z)) : Z :=
  match members with
  | [] => off
  | (size, a) :: rest => end_of (align_up off a + size) rest
  end.

Definition sizeof_struct (members : list (Z * Z)) : Z :=
  align_up (end_of 0 members) (fold_right Z.max 1 (map snd members)).

(** [struct event_packet_header { int ueid; size_t size; }]. *)
Definition event_packet_header : list (Z * Z) :=
  [(Mach.sizeof_int, 4); (Mach.sizeof_size_t, 8)].

Definition sizeof_hdr : Z := sizeof_struct event_packet_header.
Definition offsetof_ueid : Z := nth 0 (offsets 0 event_packet_header) 0.
Definition offsetof_size : Z := nth 1 (offsets 0 event_packet_header) 0.

(** The object representation of [hdr]: the two members stored in
    storage that is otherwise indeterminate. *)
Definition hdr_bytes (L : libc) (ueid size : Z) : list byte :=
  Mach.blit
    (Mach.blit (fresh L sizeof_hdr) offsetof_ueid (Mach.encode_le 4 ueid))
    offsetof_size (Mach.encode_le 8 size).

(** [send_packet(fd, ev)]; the state is what the descriptor took. *)
Definition send_packet {E : Type} `{is_event E} (L : libc) (ev : E)
           (answers : list io.answer) (sent : list byte)
  : option (outcome unit (list byte)) :=
  match content ev with
  | Returns _ m =>
      let hdr := hdr_bytes L (unique_event_id (E := E))
                           (capacity m) in
      match io.writefd answers hdr sizeof_hdr sent with
      | Some (Returns rest sent1) =>
          if stream.accessible (contents m) 0 (capacity m) then
            match io.writefd rest (take (Z.to_nat (capacity m)) (contents m))
                             (capacity m) sent1 with
            | Some (Returns _ sent2) => Some (Returns tt sent2)
            | Some (Throws e sent2) => Some (Throws e sent2)
            | Some Undefined => Some Undefined
            | None => None
            end
          else Some Undefined
      | Some (Throws e sent1) => Some (Throws e sent1)
      | Some Undefined => Some Undefined
      | None => None
      end
  | Throws e _ => Some (Throws e sent)
  | Undefined => Some Undefined
  end.

Definition rethrown : exception :=
  memory_exception "recv_packet()" "cannot read packet array buffer".

(** The [try] block of [recv_packet] on the buffer drained. The argument
    of [append] is a [char*], so overload resolution takes the template
    [append<T>] with [T = char*]: what is appended is the object
    representation of the pointer. *)
Definition parse (L : libc) (buffer : unique_array_buffer.t)
  : outcome (Z * shared_array_buffer.meta) unit :=
  let s := stream.open buffer in
  match stream.get_as_plain Mach.sizeof_int s with
  | Returns evid_bytes s1 =>
      let evid := Mach.to_int (Mach.decode_le evid_bytes) in
      match stream.get_as_plain Mach.sizeof_int64_t s1 with
      | Returns size_bytes s2 =>
          let size := Mach.to_int64 (Mach.decode_le size_bytes) in
          match shared_array_buffer.construct L (Mach.to_size_t size)
                  heap_allocator.new with
          | Returns (_, recv_buf) _ =>
              let p := stream.reference s2 12 (Mach.to_size_t size) in
              match stream.append_plain L (Mach.encode_le 8 p)
                      (stream.open recv_buf) with
              | Returns _ recv_stream =>
                  Returns (evid, stream.buffer_ recv_stream) tt
              | Throws _ _ => Throws rethrown tt
              | Undefined => Undefined
              end
          | Throws _ _ => Throws rethrown tt
          | Undefined => Undefined
          end
      | Throws _ _ => Throws rethrown tt
      | Undefined => Undefined
      end
  | Throws _ _ => Throws rethrown tt
  | Undefined => Undefined
  end.

Definition recv_packet (L : libc) (answers : list io.answer)
  : option (outcome (Z * shared_array_buffer.meta) unit) :=
  match io.nonblocking_read L answers with
  | Some (Returns buffer _) => Some (parse L buffer)
  | Some (Throws e _) => Some (Throws e tt)
  | Some Undefined => Some Undefined
  | None => None
  end.

End packet.

(** A C library that never fails: every answer is the address of a block
    of the size asked for, not null and inside the address space. *)
Definition block_at (p n : Z) : Prop := 0 < p /\ p + n <= Mach.SIZE_MAX.

Definition never_fails (L : libc) : Prop :=
  (forall log n, 0 <= n <= Mach.PTRDIFF_MAX -> block_at (malloc L log n) n)
  /\ (forall log p n,
        0 <= n <= Mach.PTRDIFF_MAX -> block_at (realloc L log p n) n).

(** A shared buffer that holds [written] at its start, is an object, and
    whose region its allocator records. *)
Record holds (written : list byte) (b : shared_array_buffer.meta) : Prop := {
  holds_prefix : take (length written) (shared_array_buffer.mem b) = written;
  holds_object : stream.is_object b;
  holds_recorded :
    shared_array_buffer.ptr b
    ∈ heap_allocator.ptrs_ (shared_array_buffer.allocator b)
}.

(** The bytes the four [append] calls of [event_log]'s constructor write,
    one field after the other: the level, the time, and the two views, each
    behind its length. *)
Definition layout (lv tm : Z) (from msg : list byte) : list byte :=
  ((([] ++ Mach.encode_le 4 lv) ++ Mach.encode_le 8 tm)
     ++ Mach.encode_le 8 (Z.of_nat (length from)) ++ from)
    ++ Mach.encode_le 8 (Z.of_nat (length msg)) ++ msg.

(** ** Sample values for the examples *)

Module sample.

(** Six bytes, two zero-terminated strings: "ab" and "cd". *)
Definition text : unique_array_buffer.t :=
  {| unique_array_buffer.allocator_ :=
       {| heap_allocator.ptrs_ := [4096];
          heap_allocator.calls := [Malloc 6 4096] |};
     unique_array_buffer.ptr_ := 4096;
     unique_array_buffer.capacity_ := 6;
     unique_array_buffer.mem_ := [x61; x62; x00; x63; x64; x00] |}.

Definition at_position (p : Z) : stream.buffer_stream unique_array_buffer.t :=
  stream.set_position p (stream.open text).

(** An event of [event_log], and a second event type with another id,
    for the examples of the channel. *)
Definition boom : outcome event_log.t unit :=
  event_log.make (arena 4096) (level_value ERROR) 1700000000
                 [x73; x76; x63] [x62; x6f; x6f; x6d].

Record ping : Type := { ping_buffer : shared_array_buffer.meta }.

#[global] Instance ping_is_event : is_event ping := {
  unique_event_id := 2;
  from_buffer := fun m => Returns {| ping_buffer := m |} tt;
  content := fun e => shared_array_buffer.copy_construct (ping_buffer e)
}.

(** A descriptor that takes the header and then the payload, each in
    one [write]; and a packet framed in 12 bytes: the id in 4 bytes, the
    length in 8, the payload. *)
Definition at_once (payload : list byte) : list io.answer :=
  [io.count packet.sizeof_hdr; io.count (Z.of_nat (length payload))].

Definition framed12 (ueid : Z) (payload : list byte) : list byte :=
  Mach.encode_le 4 ueid ++ Mach.encode_le 8 (Z.of_nat (length payload))
    ++ payload.

(** Handlers that note their number in a list. *)
Definition note {E : Type} (n : Z) (e : E) (w : list Z)
  : outcome unit (list Z) := Returns tt (w ++ [n]).

Definition then_subscribe {E : Type} `{is_event E}
           (handler : E -> list Z -> outcome unit (list Z))
           (ch : event_channel.t (list Z)) : event_channel.t (list Z) :=
  match event_channel.subscribe handler ch with
  | Returns _ ch' => ch'
  | _ => ch
  end.

(** Three subscribers of [event_log] with one of [ping] in between. *)
Definition channel : event_channel.t (list Z) :=
  then_subscribe (E := event_log.t) (note 30)
    (then_subscribe (E := event_log.t) (note 20)
       (then_subscribe (E := ping) (note 99)
          (then_subscribe (E := event_log.t) (note 10)
             event_channel.new))).

(** The three subscribers of [event_log] in [channel], with the ids
    [subscribe] gave them. *)
Definition subscribers : list (event_channel.subscriber (list Z)) :=
  [ {| event_channel.event_type := event_log.t;
       event_channel.event_type_is_event := _;
       event_channel.event_handler := note 10;
       event_channel.subscriber_id := 0 |};
    {| event_channel.event_type := event_log.t;
       event_channel.event_type_is_event := _;
       event_channel.event_handler := note 20;
       event_channel.subscriber_id := 2 |};
    {| event_channel.event_type := event_log.t;
       event_channel.event_type_is_event := _;
       event_channel.event_handler := note 30;
       event_channel.subscriber_id := 3 |} ].

(** A handler that notes its number and throws, and a channel where it
    is subscribed between two that return. *)
Definition refuse {E : Type} (n : Z) (e : E) (w : list Z)
  : outcome unit (list Z) :=
  Throws (io_exception "handler" "refused") (w ++ [n]).

Definition channel_refusing : event_channel.t (list Z) :=
  then_subscribe (E := event_log.t) (note 30)
    (then_subscribe (E := event_log.t) (refuse 20)
       (then_subscribe (E := event_log.t) (note 10)
          event_channel.new)).


(** A stream of [text] whose position has passed the capacity with the
    end-of-stream flag clear: [forward(8)] and then [clear_eof()]. *)
Definition past_the_end : stream.buffer_stream unique_array_buffer.t :=
  stream.clear_eof (stream.forward 8 (at_position 0)).

End sample.

(** * Theorems *)

Lemma heap_scan_unrecorded (p r : Z) (l : list Z) :
  p ∉ l -> heap_allocator.scan p r l = None.
Proof.
  induction l as [|q l IH]; intros Hp; simpl; [reflexivity|].
  apply not_elem_of_cons in Hp as [Hne Hl].
  destruct (Z.eqb_spec q p) as [->|_]; [congruence|].
  rewrite (IH Hl). reflexivity.
Qed.

Lemma aligned_find_unrecorded (p : Z)
      (l : list aligned_heap_allocator.aligned_chunk) :
  p ∉ map aligned_heap_allocator.ptr l ->
  aligned_heap_allocator.find p l = None.
Proof.
  induction l as [|c l IH]; intros Hp; simpl in *; [reflexivity|].
  apply not_elem_of_cons in Hp as [Hne Hl].
  destruct (Z.eqb_spec (aligned_heap_allocator.ptr c) p) as [E|_];
    [congruence|].
  rewrite (IH Hl). reflexivity.
Qed.

(** C10. [reallocate(p, n)] on a pointer that the registry does not record
    returns the null pointer, throws nothing, and leaves the allocator as
    it was: same registry, and no call to the C library (nothing freed,
    moved or added). Both allocators. *)
Theorem reallocate_unrecorded (L : libc) (p n : Z)
        (a : heap_allocator.t) (b : aligned_heap_allocator.t) :
  p ∉ heap_allocator.ptrs_ a ->
  p ∉ map aligned_heap_allocator.ptr (aligned_heap_allocator.ptrs_ b) ->
  heap_allocator.reallocate L p n a = Returns 0 a
  /\ aligned_heap_allocator.reallocate L p n b = Returns 0 b.
Proof.
  intros Ha Hb. split.
  - unfold heap_allocator.reallocate.
    rewrite (heap_scan_unrecorded _ _ _ Ha). reflexivity.
  - unfold aligned_heap_allocator.reallocate.
    rewrite (aligned_find_unrecorded _ _ Hb). reflexivity.
Qed.

Example reallocate_unrecorded_witness :
  heap_allocator.reallocate (arena 4096) 7 32
    {| heap_allocator.ptrs_ := [4096; 4112]; heap_allocator.calls := [] |}
  = Returns 0
      {| heap_allocator.ptrs_ := [4096; 4112]; heap_allocator.calls := [] |}
  /\ aligned_heap_allocator.reallocate (arena 4096) 7 32
       (aligned_heap_allocator.new 16)
     = Returns 0 (aligned_heap_allocator.new 16).
Proof.
  apply (reallocate_unrecorded (arena 4096) 7 32
           {| heap_allocator.ptrs_ := [4096; 4112];
              heap_allocator.calls := [] |}
           (aligned_heap_allocator.new 16)).
  - intros Hin. apply list_elem_of_In in Hin. simpl in Hin.
    destruct Hin as [Hin|[Hin|[]]]; discriminate Hin.
  - simpl. apply not_elem_of_nil.
Defined.

(** ** The aligned allocator *)

(** What [allocate] hands out: the address [malloc] gave plus its
    remainder modulo the boundary. *)
Lemma aligned_allocate_pointer (L : libc) (size : Z)
      (a : aligned_heap_allocator.t) :
  let p := malloc L (aligned_heap_allocator.calls a)
             (Mach.to_size_t (size + Mach.to_size_t
                                       (aligned_heap_allocator.align_ a))) in
  p <> 0 ->
  0 < aligned_heap_allocator.align_ a <= Mach.INT_MAX ->
  exists a',
    aligned_heap_allocator.allocate L size a
    = Returns (Mach.to_size_t (p + p mod aligned_heap_allocator.align_ a)) a'.
Proof.
  intros p Hp Halign. unfold aligned_heap_allocator.allocate.
  fold p. destruct (Z.eqb_spec p 0) as [E|_]; [contradiction|].
  unfold aligned_heap_allocator.rem.
  assert (Hd : Mach.to_size_t (aligned_heap_allocator.align_ a)
               = aligned_heap_allocator.align_ a).
  { unfold Mach.to_size_t, Mach.size_modulus. apply Z.mod_small.
    unfold Mach.INT_MAX in Halign. lia. }
  rewrite Hd.
  destruct (Z.eqb_spec (aligned_heap_allocator.align_ a) 0) as [E|_]; [lia|].
  eexists. reflexivity.
Qed.

(** C4, on the code: with a boundary of 64 and [malloc] answering the
    16-aligned address 4112, [allocate(84)] returns 4128, which is not a
    multiple of 64; [reallocate] of that block to 200 bytes, with [realloc]
    answering 4272, returns 4320, not a multiple of 64 either. *)
Theorem aligned_allocator_misaligns :
  exists a1 a2,
    aligned_heap_allocator.allocate (arena 4112) 84
      (aligned_heap_allocator.new 64) = Returns 4128 a1
    /\ 4128 mod 64 = 32
    /\ aligned_heap_allocator.reallocate (arena 4112) 4128 200 a1
       = Returns 4320 a2
    /\ 4320 mod 64 = 32.
Proof.
  do 2 eexists. repeat split; vm_compute; reflexivity.
Qed.

(** ** The shared buffer's reference count *)

Section refcount.

Import shared_array_buffer.

Lemma live_in_insert (objs : gmap nat Z) (i : nat) (x : Z) :
  objs !! i = None ->
  live_in (<[i := x]> objs)
  = ((if decide (x = 0%Z) then 0 else 1) + live_in objs)%nat.
Proof.
  intros Hi. unfold live_in. rewrite (map_to_list_insert objs i x Hi).
  rewrite filter_cons. simpl. destruct (decide (x = 0)) as [->|Hx].
  - rewrite decide_False by (intros Hn; apply Hn; reflexivity). reflexivity.
  - rewrite decide_True by exact Hx. reflexivity.
Qed.

Lemma live_in_delete (objs : gmap nat Z) (i : nat) (x : Z) :
  objs !! i = Some x ->
  live_in objs
  = ((if decide (x = 0%Z) then 0 else 1) + live_in (delete i objs))%nat.
Proof.
  intros Hi. rewrite <- (live_in_insert (delete i objs) i x).
  - rewrite insert_delete_id by exact Hi. reflexivity.
  - apply lookup_delete_eq.
Qed.

Lemma live_in_overwrite (objs : gmap nat Z) (i : nat) (x y : Z) :
  objs !! i = Some x ->
  (live_in (<[i := y]> objs) + (if decide (x = 0%Z) then 0 else 1)
   = live_in objs + (if decide (y = 0%Z) then 0 else 1))%nat.
Proof.
  intros Hi. rewrite <- (insert_delete_eq objs i y).
  rewrite live_in_insert by apply lookup_delete_eq.
  rewrite (live_in_delete objs i x Hi). lia.
Qed.

Lemma live_in_singleton (h : nat) (p : Z) :
  p <> 0 -> live_in ({[ h := p ]} : gmap nat Z) = 1%nat.
Proof.
  intros Hp. unfold live_in. rewrite map_to_list_singleton.
  rewrite filter_cons, filter_nil. simpl.
  rewrite decide_True by exact Hp. reflexivity.
Qed.

Lemma construct_not_null (L : libc) (cap meta_ : Z) (m : meta)
      (a a' : heap_allocator.t) :
  construct L cap a = Returns (meta_, m) a' ->
  meta_ <> 0 /\ reference_count m = 1.
Proof.
  unfold construct, heap_allocator.allocate. simpl.
  destruct (Z.eqb_spec (malloc L (heap_allocator.calls a) sizeof_meta) 0)
    as [E|Hne]; simpl; [discriminate|].
  match goal with |- context [if ?c then _ else _] => destruct c end;
    simpl; [discriminate|].
  intros Heq. injection Heq as <- <- _. split; [exact Hne|reflexivity].
Qed.

Lemma start_consistent (meta_ : Z) (m : meta) (h : nat) :
  meta_ <> 0 -> reference_count m = 1 -> consistent (start meta_ m h).
Proof.
  intros Hp Hrc. split; simpl.
  - unfold live_copies. simpl. rewrite live_in_singleton by exact Hp.
    rewrite Hrc. reflexivity.
  - lia.
  - exact Hp.
  - intros h' p Hl. apply lookup_singleton_Some in Hl as [_ <-].
    right. reflexivity.
Qed.

(** The destructor on a block whose count is a count: the last object's
    destructor is undefined, every other takes one off. *)
Lemma destructor_on_count (m : meta) :
  1 <= reference_count m ->
  destructor m
  = if reference_count m =? 1 then Undefined
    else Returns tt (with_count (reference_count m - 1) m).
Proof.
  intros Hrc. unfold destructor, destructor_body.
  destruct (Z.eqb_spec (reference_count m) Mach.INT_MIN) as [E|_];
    [unfold Mach.INT_MIN in E; lia|].
  destruct (Z.eqb_spec (reference_count m - 1) 0) as [E|Hnz];
    destruct (Z.eqb_spec (reference_count m) 1) as [E1|Hn1];
    try lia; reflexivity.
Qed.

(** What the body of the last object's destructor leaves: the count at 0,
    and the allocator released and destroyed. *)
Lemma destructor_body_last (m : meta) :
  reference_count m = 1 ->
  destructor_body m
  = Returns true
      {| ptr := ptr m;
         allocator :=
           heap_allocator.destroy (heap_allocator.release (allocator m));
         capacity := capacity m; reference_count := 0; mem := mem m |}.
Proof.
  intros Hrc. unfold destructor_body. rewrite Hrc. reflexivity.
Qed.

(** One operation with defined behaviour keeps the invariant, and leaves
    the allocator alone. *)
Lemma step_consistent (w w' : world) (o : op) :
  consistent w -> reaches w o w' ->
  consistent w' /\ allocator (block w') = allocator (block w).
Proof.
  intros [Hc H1 Hn Hp] Hstep. unfold live_copies in Hc.
  destruct o as [src dst|src dst|h]; unfold reaches in Hstep; simpl in Hstep.
  - (* Copy *)
    destruct (objects w !! src) as [p|] eqn:Hsrc;
      [|destruct Hstep as [?|[? ?]]; discriminate].
    destruct (objects w !! dst) as [q|] eqn:Hdst;
      [destruct Hstep as [?|[? ?]]; discriminate|].
    destruct (Z.eqb_spec p (meta_at w)) as [->|Hne];
      [|destruct Hstep as [?|[? ?]]; discriminate].
    unfold copy_construct in Hstep.
    destruct (Z.eqb_spec (reference_count (block w)) 0) as [E|Hnz]; [lia|].
    destruct (Z.eqb_spec (reference_count (block w)) Mach.INT_MAX) as [E|_];
      [destruct Hstep as [?|[? ?]]; discriminate|].
    destruct Hstep as [Heq|[? Heq]]; [|discriminate].
    injection Heq as <-. simpl. split; [|reflexivity].
    split; simpl.
    + unfold live_copies. simpl. rewrite live_in_insert by exact Hdst.
      rewrite decide_False by exact Hn. lia.
    + lia.
    + exact Hn.
    + intros h p Hl. destruct (decide (dst = h)) as [->|Hd].
      * rewrite lookup_insert_eq in Hl. injection Hl as <-. right.
        reflexivity.
      * rewrite lookup_insert_ne in Hl by exact Hd. eapply Hp, Hl.
  - (* Move *)
    destruct (objects w !! src) as [p|] eqn:Hsrc;
      [|destruct Hstep as [?|[? ?]]; discriminate].
    destruct (objects w !! dst) as [q|] eqn:Hdst;
      [destruct Hstep as [?|[? ?]]; discriminate|].
    destruct Hstep as [Heq|[? Heq]]; [|discriminate].
    injection Heq as <-. simpl.
    assert (Hsd : src <> dst) by (intros ->; congruence).
    split; [|reflexivity].
    split; simpl.
    + unfold live_copies. simpl.
      assert (Hl : <[dst := p]> (objects w) !! src = Some p)
        by (rewrite lookup_insert_ne by congruence; exact Hsrc).
      pose proof (live_in_overwrite _ src p 0 Hl) as Ho.
      rewrite (live_in_insert _ dst p Hdst) in Ho.
      destruct (decide (p = 0%Z)); destruct (decide (0%Z = 0%Z));
        [lia|congruence|lia|congruence].
    + exact H1.
    + exact Hn.
    + intros h r Hl. destruct (decide (src = h)) as [->|Hs].
      * rewrite lookup_insert_eq in Hl. injection Hl as <-. left.
        reflexivity.
      * rewrite lookup_insert_ne in Hl by exact Hs.
        destruct (decide (dst = h)) as [->|Hd].
        -- rewrite lookup_insert_eq in Hl. injection Hl as <-.
           eapply Hp, Hsrc.
        -- rewrite lookup_insert_ne in Hl by exact Hd. eapply Hp, Hl.
  - (* Destroy *)
    destruct (objects w !! h) as [p|] eqn:Hh;
      [|destruct Hstep as [?|[? ?]]; discriminate].
    pose proof (live_in_delete _ _ _ Hh) as Hlive.
    assert (Hkeep : forall h' r,
               delete h (objects w) !! h' = Some r -> r = 0 \/ r = meta_at w).
    { intros h' r Hl. apply lookup_delete_Some in Hl as [_ Hl].
      eapply Hp, Hl. }
    unfold offsetof_ptr in Hstep. rewrite Z.add_0_r in Hstep.
    destruct (Z.eqb_spec p 0) as [->|Hpz].
    + destruct Hstep as [Heq|[? Heq]]; [|discriminate].
      injection Heq as <-. simpl.
      rewrite decide_True in Hlive by reflexivity.
      split; [|reflexivity].
      split; simpl; [unfold live_copies; simpl; lia|exact H1|exact Hn
                    |exact Hkeep].
    + rewrite decide_False in Hlive by exact Hpz.
      destruct (Z.eqb_spec p (meta_at w)) as [->|Hne];
        [|destruct Hstep as [?|[? ?]]; discriminate].
      rewrite (destructor_on_count _ H1) in Hstep.
      destruct (Z.eqb_spec (reference_count (block w)) 1) as [E|Hn1];
        [destruct Hstep as [?|[? ?]]; discriminate|].
      destruct Hstep as [Heq|[? Heq]]; [|discriminate].
      injection Heq as <-. simpl. split; [|reflexivity].
      split; simpl; [unfold live_copies; simpl; lia|lia|exact Hn|exact Hkeep].
Qed.

Lemma run_consistent (ops : list op) (w w' : world) :
  consistent w -> run w ops = Some w' ->
  consistent w' /\ allocator (block w') = allocator (block w).
Proof.
  revert w. induction ops as [|o ops IH]; intros w Hw Hrun; simpl in Hrun.
  - injection Hrun as <-. split; [exact Hw|reflexivity].
  - destruct (step w o) as [[] w1|e w1|] eqn:Hstep; [| |discriminate].
    + destruct (step_consistent w w1 o Hw) as [Hw1 Ha1];
        [left; exact Hstep|].
      destruct (IH w1 Hw1 Hrun) as [Hw' Ha']. split; [exact Hw'|].
      rewrite Ha'. exact Ha1.
    + destruct (step_consistent w w1 o Hw) as [Hw1 Ha1];
        [right; exists e; exact Hstep|].
      destruct (IH w1 Hw1 Hrun) as [Hw' Ha']. split; [exact Hw'|].
      rewrite Ha'. exact Ha1.
Qed.

(** From a constructed buffer, as long as behaviour is defined: the count
    is the number of objects alive that were not moved from, it is at
    least 1, and [allocator->release()] has not run (the registry and the
    calls of the allocator are those of the construction). *)
Lemma defined_run_counts_live_copies (L : libc) (cap meta_ : Z) (m : meta)
      (a a' : heap_allocator.t) (h : nat) (ops : list op) (w : world) :
  construct L cap a = Returns (meta_, m) a' ->
  run (start meta_ m h) ops = Some w ->
  reference_count (block w) = Z.of_nat (live_copies w)
  /\ 1 <= reference_count (block w)
  /\ allocator (block w) = allocator m.
Proof.
  intros Hnew Hrun.
  destruct (construct_not_null _ _ _ _ _ _ Hnew) as [Hp Hrc].
  destruct (run_consistent ops _ w (start_consistent meta_ m h Hp Hrc) Hrun)
    as [Hw Ha].
  split; [apply (count_is_live w Hw)|].
  split; [apply (one_is_live w Hw)|exact Ha].
Qed.

(** In such a state the destructor of the last live object is undefined:
    its body takes the count from 1 to 0 and releases, and its last
    statement unlocks the mutex of the block just freed. *)
Lemma last_destroy_undefined (w : world) (h : nat) :
  consistent w -> objects w !! h = Some (meta_at w) ->
  live_copies w = 1%nat ->
  step w (Destroy h) = Undefined
  /\ exists m0, destructor_body (block w) = Returns true m0
                /\ reference_count m0 = 0
                /\ allocator m0
                   = heap_allocator.destroy
                       (heap_allocator.release (allocator (block w))).
Proof.
  intros [Hc H1 Hn Hp] Hh Hone. rewrite Hone in Hc. split.
  - simpl. rewrite Hh. unfold offsetof_ptr. rewrite Z.add_0_r.
    destruct (Z.eqb_spec (meta_at w) 0) as [E|_]; [contradiction|].
    rewrite Z.eqb_refl, (destructor_on_count _ H1), Hc. reflexivity.
  - eexists. split; [apply destructor_body_last; exact Hc|].
    split; reflexivity.
Qed.

(** From a constructed buffer, as long as behaviour is defined, the copy
    constructor's test [reference_count == 0] never fires: no copy
    throws. *)
Lemma copy_guard_never_fires (L : libc) (cap meta_ : Z) (m : meta)
      (a a' : heap_allocator.t) (h : nat) (ops : list op) (w w' : world)
      (src dst : nat) (e : exception) :
  construct L cap a = Returns (meta_, m) a' ->
  run (start meta_ m h) ops = Some w ->
  step w (Copy src dst) <> Throws e w'.
Proof.
  intros Hnew Hrun.
  destruct (construct_not_null _ _ _ _ _ _ Hnew) as [Hp Hrc].
  destruct (run_consistent ops _ w (start_consistent meta_ m h Hp Hrc) Hrun)
    as [[Hc H1 Hn Hpt] _].
  simpl.
  destruct (objects w !! src) as [p|]; [|discriminate].
  destruct (objects w !! dst) as [q|]; [discriminate|].
  destruct (p =? meta_at w); [|discriminate].
  unfold copy_construct.
  destruct (Z.eqb_spec (reference_count (block w)) 0) as [E|_]; [lia|].
  destruct (reference_count (block w) =? Mach.INT_MAX); discriminate.
Qed.

End refcount.

Section refcount_examples.

Import shared_array_buffer.



End refcount_examples.

(** ** Machine arithmetic *)

Lemma to_size_t_small (z : Z) :
  0 <= z <= Mach.SIZE_MAX -> Mach.to_size_t z = z.
Proof.
  unfold Mach.to_size_t, Mach.SIZE_MAX, Mach.size_modulus. intros Hz.
  apply Z.mod_small. lia.
Qed.

Lemma to_ssize_t_small (z : Z) :
  0 <= z <= Mach.PTRDIFF_MAX -> Mach.to_ssize_t z = z.
Proof.
  unfold Mach.to_ssize_t, Mach.to_signed, Mach.PTRDIFF_MAX. intros Hz.
  rewrite Z.mod_small by lia.
  destruct (Z.ltb_spec z (2 ^ (64 - 1))) as [_|Hge]; [reflexivity|].
  change (2 ^ (64 - 1)) with (2 ^ 63) in Hge. lia.
Qed.

(** ** [buffer_stream::get(char*, size_t)] *)

Section stream_get.

Context {B : Type} `{is_buffer B}.

Lemma read_inside (s : stream.buffer_stream B) (dest : list byte)
      (offset size : Z) :
  stream.is_object (stream.buffer_ s) ->
  0 <= offset -> 0 <= size ->
  offset + size <= capacity (stream.buffer_ s) ->
  size <= Z.of_nat (length dest) ->
  stream.read s dest offset size
  = Returns (true, Mach.slice (contents (stream.buffer_ s)) offset size
                     ++ drop (Z.to_nat size) dest) s.
Proof.
  intros (Hp & Hfit & Hlen & Hmax) Ho Hs Hin Hd.
  unfold stream.read, stream.reference.
  unfold Mach.PTRDIFF_MAX in Hmax. unfold Mach.SIZE_MAX, Mach.size_modulus in *.
  rewrite (to_size_t_small (offset + size))
    by (unfold Mach.SIZE_MAX, Mach.size_modulus; lia).
  rewrite (to_size_t_small (pointer (stream.buffer_ s) + offset))
    by (unfold Mach.SIZE_MAX, Mach.size_modulus; lia).
  destruct (Z.gtb_spec (offset + size) (capacity (stream.buffer_ s)));
    [lia|].
  destruct (Z.eqb_spec (pointer (stream.buffer_ s) + offset) 0); [lia|].
  unfold stream.accessible. rewrite Hlen.
  destruct (Z.leb_spec 0 offset); [|lia].
  destruct (Z.leb_spec 0 size); [|lia].
  destruct (Z.leb_spec (offset + size) (capacity (stream.buffer_ s))); [|lia].
  destruct (Z.leb_spec size (Z.of_nat (length dest))); [|lia].
  reflexivity.
Qed.

(** C8. On a stream whose buffer is an object and whose position is inside
    it, for a [dest] of at least [size] bytes: [get(dest, size)] returns -1
    and changes nothing when the end-of-stream flag is set; otherwise, when
    [position + size] reaches or exceeds the capacity, it copies the
    [capacity - position] bytes that remain to the front of [dest], sets
    the flag, moves the position to the capacity and returns that count;
    otherwise it copies [size] bytes, advances the position by [size] and
    returns [size]. *)
Theorem get_run (s : stream.buffer_stream B) (dest : list byte) (size : Z) :
  let cap := capacity (stream.buffer_ s) in
  let pos := stream.position_ s in
  let mem := contents (stream.buffer_ s) in
  stream.is_object (stream.buffer_ s) ->
  0 <= pos <= cap ->
  0 <= size <= Mach.PTRDIFF_MAX ->
  size <= Z.of_nat (length dest) ->
  stream.get dest size s
  = if stream.eof_ s then Returns (-1, dest) s
    else if cap <=? pos + size then
      Returns (cap - pos,
               Mach.slice mem pos (cap - pos)
                 ++ drop (Z.to_nat (cap - pos)) dest)
              (stream.set_position cap (stream.set_eof true s))
    else
      Returns (size, Mach.slice mem pos size ++ drop (Z.to_nat size) dest)
              (stream.set_position (pos + size) s).
Proof.
  intros cap pos mem Hobj Hpos Hsize Hdest. unfold stream.get.
  destruct (stream.eof_ s) eqn:Heof; [reflexivity|].
  pose proof Hobj as (Hp & Hfit & Hlen & Hmax). fold cap in Hfit, Hlen, Hmax.
  fold pos.
  assert (Hcurr : Mach.to_size_t (pos + size) = pos + size).
  { apply to_size_t_small.
    unfold Mach.PTRDIFF_MAX, Mach.SIZE_MAX, Mach.size_modulus in *. lia. }
  rewrite Hcurr. fold cap.
  destruct (Z.leb_spec cap (pos + size)) as [Hge|Hlt].
  - destruct (Z.geb_spec (pos + size) cap) as [_|Hc]; [|lia].
    simpl stream.buffer_. simpl stream.position_. fold cap pos.
    assert (Hrem : Mach.to_size_t (cap - pos) = cap - pos).
    { apply to_size_t_small.
      unfold Mach.PTRDIFF_MAX, Mach.SIZE_MAX, Mach.size_modulus in *. lia. }
    rewrite Hrem.
    rewrite (read_inside (stream.set_eof true s) dest pos (cap - pos));
      [|exact Hobj|lia|lia|simpl; fold cap; lia|lia].
    simpl. rewrite to_ssize_t_small by lia. reflexivity.
  - destruct (Z.geb_spec (pos + size) cap) as [Hc|_]; [lia|].
    rewrite (read_inside s dest pos size);
      [|exact Hobj|lia|lia|fold cap; lia|lia].
    simpl. rewrite to_ssize_t_small by lia. reflexivity.
Qed.

End stream_get.

Example get_run_witness :
  stream.is_object (stream.buffer_ (sample.at_position 4))
  /\ 0 <= 4 <= 6
  /\ 0 <= 4 <= Mach.PTRDIFF_MAX
  /\ 4 <= Z.of_nat (length [x00; x00; x00; x00])
  /\ stream.get [x00; x00; x00; x00] 4 (sample.at_position 4)
     = Returns (2, [x64; x00; x00; x00])
               (stream.set_position 6
                  (stream.set_eof true (sample.at_position 4))).
Proof.
  assert (Hobj : stream.is_object (stream.buffer_ (sample.at_position 4))).
  { unfold stream.is_object, Mach.SIZE_MAX, Mach.size_modulus,
      Mach.PTRDIFF_MAX. simpl. lia. }
  assert (Hpos : 0 <= 4 <= 6) by lia.
  assert (Hsize : 0 <= 4 <= Mach.PTRDIFF_MAX)
    by (unfold Mach.PTRDIFF_MAX; lia).
  assert (Hdest : 4 <= Z.of_nat (length [x00; x00; x00; x00]))
    by (simpl; lia).
  split; [exact Hobj|]. split; [exact Hpos|]. split; [exact Hsize|].
  split; [exact Hdest|].
  rewrite (get_run (sample.at_position 4) [x00; x00; x00; x00] 4
             Hobj Hpos Hsize Hdest).
  reflexivity.
Defined.

(** C8, as worded for every stream, fails where the position has passed
    the capacity with the end-of-stream flag clear, as after [forward(8)]
    and [clear_eof()] on a buffer of 6 bytes: [capacity - position] wraps
    to [2^64 - 2], the bounds check of [read] wraps with it and lets the
    copy through, and the copy leaves the region. *)
Example get_past_the_capacity_undefined :
  stream.is_object (stream.buffer_ sample.past_the_end)
  /\ stream.eof_ sample.past_the_end = false
  /\ stream.position_ sample.past_the_end = 8
  /\ capacity (stream.buffer_ sample.past_the_end) = 6
  /\ Mach.to_size_t (6 - 8) = 2 ^ 64 - 2
  /\ stream.reference (stream.set_eof true sample.past_the_end)
                      8 (2 ^ 64 - 2) = 4096 + 8
  /\ stream.get [x00; x00; x00; x00] 4 sample.past_the_end = Undefined.
Proof.
  split.
  { unfold stream.is_object, Mach.SIZE_MAX, Mach.size_modulus,
      Mach.PTRDIFF_MAX. simpl. lia. }
  split; [reflexivity|]. split; [reflexivity|]. split; [reflexivity|].
  split; [reflexivity|]. split; vm_compute; reflexivity.
Qed.

(** ** The bare-string [get()] *)

Lemma strlen_terminated (str rest : list byte) :
  x00 ∉ str ->
  Mach.strlen (str ++ x00 :: rest) = Some (Z.of_nat (length str)).
Proof.
  induction str as [|b str IH]; intros Hz; simpl.
  - reflexivity.
  - apply not_elem_of_cons in Hz as [Hb Hstr].
    destruct (Byte.eqb b x00) eqn:E.
    + apply Byte.byte_dec_bl in E. congruence.
    + rewrite (IH Hstr). f_equal. lia.
Qed.

Section stream_get_string.

Context {B : Type} `{is_buffer B}.

(** Where the zero-terminated run [str] starts at the position: [get()]
    returns [str], and the position it leaves is that of the zero byte
    itself; the end-of-stream flag is as before. *)
Lemma get_string_run (s : stream.buffer_stream B)
      (pre str rest : list byte) :
  stream.is_object (stream.buffer_ s) ->
  contents (stream.buffer_ s) = pre ++ str ++ x00 :: rest ->
  stream.position_ s = Z.of_nat (length pre) ->
  x00 ∉ str ->
  stream.get_string s
  = Returns str
      (stream.set_position (stream.position_ s + Z.of_nat (length str)) s)
  /\ contents (stream.buffer_ s)
       !! Z.to_nat (stream.position_ s + Z.of_nat (length str)) = Some x00.
Proof.
  intros Hobj Hmem Hpos Hz.
  pose proof Hobj as (Hp & Hfit & Hlen & Hmax).
  rewrite Hmem in Hlen. rewrite !length_app in Hlen. simpl in Hlen.
  unfold Mach.PTRDIFF_MAX, Mach.SIZE_MAX, Mach.size_modulus in *.
  split.
  - unfold stream.get_string. rewrite Hmem, Hpos, Nat2Z.id.
    rewrite drop_app_length. rewrite (strlen_terminated str rest Hz).
    assert (Hcurr : Mach.to_size_t
                      (Z.of_nat (length pre) + Z.of_nat (length str))
                    = Z.of_nat (length pre) + Z.of_nat (length str)).
    { apply to_size_t_small.
      unfold Mach.SIZE_MAX, Mach.size_modulus. lia. }
    rewrite Hcurr. unfold stream.mark_eof_at.
    destruct (Z.eqb_spec (Z.of_nat (length pre) + Z.of_nat (length str))
                         (capacity (stream.buffer_ s))) as [E|_]; [lia|].
    replace (Z.of_nat (length pre) + Z.of_nat (length str)
             - Z.of_nat (length str)) with (Z.of_nat (length pre)) by lia.
    rewrite (to_size_t_small (Z.of_nat (length pre)))
      by (unfold Mach.SIZE_MAX, Mach.size_modulus; lia).
    rewrite read_inside;
      [|exact Hobj|lia|lia|simpl; lia|rewrite length_replicate; lia].
    simpl. rewrite Hmem. unfold Mach.slice.
    rewrite !Nat2Z.id, drop_app_length, take_app_length.
    rewrite drop_ge by (rewrite length_replicate; lia).
    rewrite app_nil_r. reflexivity.
  - rewrite Hmem, Hpos. rewrite <- Nat2Z.inj_add, Nat2Z.id.
    rewrite app_assoc.
    rewrite lookup_app_r by (rewrite length_app; lia).
    rewrite length_app, Nat.sub_diag. reflexivity.
Qed.

End stream_get_string.

(** C9, on the code. The buffer holds "ab", a zero byte, "cd", a zero
    byte. [get()] from position 0 returns "ab" and leaves the position at
    2, on the zero byte and not past it at 3; the next [get()] returns the
    empty string and leaves the position at 2 again. *)
Theorem get_string_stays_on_terminator :
  stream.get_string (sample.at_position 0)
  = Returns [x61; x62] (sample.at_position 2)
  /\ unique_array_buffer.mem_ sample.text !! 2%nat = Some x00
  /\ stream.get_string (sample.at_position 2)
     = Returns [] (sample.at_position 2)
  /\ stream.get_string (sample.at_position 3)
     = Returns [x63; x64] (sample.at_position 5).
Proof. repeat split. Qed.

(** ** Object representations *)

Lemma Z_of_byte_of_Z (z : Z) : Mach.Z_of_byte (Mach.byte_of_Z z) = z mod 256.
Proof.
  unfold Mach.Z_of_byte, Mach.byte_of_Z.
  assert (Hr : 0 <= z mod 256 < 256) by (apply Z.mod_pos_bound; lia).
  destruct (Byte.of_N (Z.to_N (z mod 256))) as [b|] eqn:E.
  - apply Byte.to_of_N in E. rewrite E. lia.
  - apply Byte.of_N_None_iff in E. lia.
Qed.

Lemma Z_of_byte_range (b : byte) : 0 <= Mach.Z_of_byte b < 256.
Proof.
  unfold Mach.Z_of_byte. pose proof (Byte.to_N_bounded b). lia.
Qed.

Lemma length_encode_le (n : nat) (z : Z) : length (Mach.encode_le n z) = n.
Proof.
  revert z. induction n as [|n IH]; intros z; simpl; [reflexivity|].
  rewrite IH. reflexivity.
Qed.

Lemma decode_encode_le (n : nat) (z : Z) :
  Mach.decode_le (Mach.encode_le n z) = z mod 2 ^ (8 * Z.of_nat n).
Proof.
  revert z. induction n as [|n IH]; intros z.
  - simpl. rewrite Z.mod_1_r. reflexivity.
  - cbn [Mach.encode_le Mach.decode_le]. rewrite IH, Z_of_byte_of_Z.
    replace (8 * Z.of_nat (S n)) with (8 + 8 * Z.of_nat n) by lia.
    rewrite Z.pow_add_r by lia. change (2 ^ 8) with 256.
    rewrite Z.rem_mul_r by lia. reflexivity.
Qed.

Lemma decode_le_range (l : list byte) :
  0 <= Mach.decode_le l < 2 ^ (8 * Z.of_nat (length l)).
Proof.
  induction l as [|b l IH].
  - simpl. lia.
  - cbn [Mach.decode_le length]. pose proof (Z_of_byte_range b).
    replace (8 * Z.of_nat (S (length l)))
      with (8 + 8 * Z.of_nat (length l)) by lia.
    rewrite Z.pow_add_r by lia. change (2 ^ 8) with 256. nia.
Qed.

Lemma to_signed_range (w z : Z) :
  0 < w -> - 2 ^ (w - 1) <= z < 2 ^ (w - 1) ->
  Mach.to_signed w (z mod 2 ^ w) = z.
Proof.
  intros Hw Hz. unfold Mach.to_signed.
  assert (Hpow : 2 ^ w = 2 * 2 ^ (w - 1)).
  { replace w with (1 + (w - 1)) at 1 by lia.
    rewrite Z.pow_add_r by lia. reflexivity. }
  rewrite Z.mod_mod by lia.
  destruct (Z_lt_le_dec z 0) as [Hneg|Hpos].
  - replace (z mod 2 ^ w) with (z + 2 ^ w).
    + destruct (Z.ltb_spec (z + 2 ^ w) (2 ^ (w - 1))); lia.
    + apply (Z.mod_unique _ _ (-1)); lia.
  - rewrite Z.mod_small by lia.
    destruct (Z.ltb_spec z (2 ^ (w - 1))); lia.
Qed.

(** ** Slices and blits *)

Lemma slice_middle (pre x post : list byte) (off n : Z) :
  off = Z.of_nat (length pre) -> n = Z.of_nat (length x) ->
  Mach.slice (pre ++ x ++ post) off n = x.
Proof.
  intros -> ->. unfold Mach.slice. rewrite !Nat2Z.id.
  rewrite drop_app_length, take_app_length. reflexivity.
Qed.

Lemma length_blit (mem src : list byte) (off : Z) :
  0 <= off -> off + Z.of_nat (length src) <= Z.of_nat (length mem) ->
  length (Mach.blit mem off src) = length mem.
Proof.
  intros Hoff Hin. unfold Mach.blit.
  rewrite !length_app, length_take, length_drop. lia.
Qed.

Lemma blit_extends (mem written src : list byte) (off : Z) :
  off = Z.of_nat (length written) ->
  off + Z.of_nat (length src) <= Z.of_nat (length mem) ->
  take (length written) mem = written ->
  take (length (written ++ src)) (Mach.blit mem off src) = written ++ src.
Proof.
  intros -> Hin Hpre. unfold Mach.blit. rewrite Nat2Z.id, Hpre.
  rewrite app_assoc. rewrite take_app_length. reflexivity.
Qed.

Lemma length_fresh (L : libc) (n : Z) :
  length (fresh L n) = Z.to_nat n.
Proof. unfold fresh. rewrite length_map, length_seq. reflexivity. Qed.

Lemma resized_grows (L : libc) (mem : list byte) (n : Z) :
  Z.of_nat (length mem) <= n ->
  exists more, resized L mem n = mem ++ more
               /\ Z.of_nat (length (resized L mem n)) = n.
Proof.
  intros Hn. unfold resized. rewrite take_ge by lia. eexists. split.
  - reflexivity.
  - rewrite length_app, length_map, length_seq. lia.
Qed.

(** ** Writing into a shared buffer that grows *)

Lemma scan_recorded (p r : Z) (l : list Z) :
  p ∈ l -> exists l', heap_allocator.scan p r l = Some l' /\ r ∈ l'.
Proof.
  induction l as [|q l IH]; intros Hin.
  - apply elem_of_nil in Hin. contradiction.
  - simpl. destruct (Z.eqb_spec q p) as [->|Hne].
    + eexists. split; [reflexivity|]. apply elem_of_cons. left. reflexivity.
    + apply elem_of_cons in Hin as [->|Hin]; [contradiction|].
      destruct (IH Hin) as (l' & -> & Hr). eexists. split; [reflexivity|].
      apply elem_of_cons. right. exact Hr.
Qed.

Lemma holds_inside (written : list byte) (b : shared_array_buffer.meta) :
  holds written b ->
  Z.of_nat (length written) <= shared_array_buffer.capacity b.
Proof.
  intros [Hpre (_ & _ & Hlen & _) _]. simpl in *.
  rewrite <- Hlen. rewrite <- Hpre at 1. rewrite length_take. lia.
Qed.

Lemma expand_grows (L : libc) (n : Z) (written : list byte)
      (m : shared_array_buffer.meta) :
  never_fails L -> holds written m ->
  shared_array_buffer.capacity m <= n <= Mach.PTRDIFF_MAX ->
  exists m',
    shared_array_buffer.expand L n m = Returns tt m'
    /\ holds written m'
    /\ shared_array_buffer.capacity m' = n
    /\ shared_array_buffer.reference_count m'
       = shared_array_buffer.reference_count m.
Proof.
  intros [_ Hre] Hh Hn. pose proof (holds_inside _ _ Hh) as Hin.
  destruct Hh as [Hpre (Hp & Hfit & Hlen & Hmax) Hrec]. simpl in *.
  unfold shared_array_buffer.expand, heap_allocator.reallocate.
  set (r := realloc L _ _ _).
  destruct (scan_recorded _ r _ Hrec) as (l' & -> & Hr).
  destruct (Hre (heap_allocator.calls (shared_array_buffer.allocator m))
                (shared_array_buffer.ptr m) n) as [Hr0 Hrfit]; [lia|].
  fold r in Hr0, Hrfit.
  destruct (Z.eqb_spec r 0) as [E|_]; [lia|].
  destruct (resized_grows L (shared_array_buffer.mem m) n) as (more & Hm & Hl);
    [lia|].
  eexists. split; [reflexivity|]. simpl.
  destruct (Z.eqb_spec r 0) as [E|_]; [lia|].
  split; [|split; reflexivity].
  split; simpl.
  - rewrite Hm. rewrite take_app_le by lia. exact Hpre.
  - unfold stream.is_object. simpl. lia.
  - exact Hr.
Qed.

Lemma grow_holds (L : libc) (written : list byte) (curr : Z)
      (s : stream.buffer_stream shared_array_buffer.meta) :
  never_fails L -> stream.auto_expand s = true ->
  holds written (stream.buffer_ s) ->
  Z.of_nat (length written) <= curr <= Mach.PTRDIFF_MAX ->
  exists b,
    stream.grow L curr s = Returns tt (stream.set_buffer b s)
    /\ holds written b
    /\ shared_array_buffer.capacity b
       = Z.max (shared_array_buffer.capacity (stream.buffer_ s)) curr
    /\ shared_array_buffer.reference_count b
       = shared_array_buffer.reference_count (stream.buffer_ s).
Proof.
  intros HL Hauto Hh Hcurr. pose proof (holds_inside _ _ Hh) as Hin.
  unfold stream.grow. rewrite Hauto. simpl.
  destruct (Z.geb_spec curr (shared_array_buffer.capacity (stream.buffer_ s)))
    as [Hge|Hlt].
  - destruct (expand_grows L curr written (stream.buffer_ s) HL Hh)
      as (m' & Hex & Hh' & Hcap & Hrc); [lia|].
    rewrite Hex. exists m'. split; [reflexivity|].
    split; [exact Hh'|]. split; [lia|exact Hrc].
  - exists (stream.buffer_ s). split; [destruct s; reflexivity|].
    split; [exact Hh|]. split; [lia|reflexivity].
Qed.

Lemma write_inside (s : stream.buffer_stream shared_array_buffer.meta)
      (src : list byte) (offset : Z) :
  stream.is_object (stream.buffer_ s) ->
  0 <= offset ->
  offset + Z.of_nat (length src)
  <= shared_array_buffer.capacity (stream.buffer_ s) ->
  stream.write s src offset (Z.of_nat (length src))
  = Returns true
      (stream.set_buffer
         (shared_array_buffer.with_mem
            (Mach.blit (shared_array_buffer.mem (stream.buffer_ s)) offset src)
            (stream.buffer_ s)) s).
Proof.
  intros (Hp & Hfit & Hlen & Hmax) Ho Hin. simpl in *.
  unfold stream.write. simpl.
  unfold Mach.PTRDIFF_MAX, Mach.SIZE_MAX, Mach.size_modulus in *.
  rewrite to_size_t_small
    by (unfold Mach.SIZE_MAX, Mach.size_modulus; lia).
  destruct (Z.gtb_spec (offset + Z.of_nat (length src))
                       (shared_array_buffer.capacity (stream.buffer_ s)));
    [lia|].
  unfold stream.accessible. rewrite Hlen.
  destruct (Z.leb_spec 0 offset); [|lia].
  destruct (Z.leb_spec 0 (Z.of_nat (length src))); [|lia].
  destruct (Z.leb_spec (offset + Z.of_nat (length src))
                       (shared_array_buffer.capacity (stream.buffer_ s)));
    [|lia].
  destruct (Z.leb_spec (Z.of_nat (length src)) (Z.of_nat (length src)));
    [|lia].
  simpl. rewrite Nat2Z.id, firstn_all. reflexivity.
Qed.

(** One write right after the bytes held, inside the capacity: the bytes
    held grow by [src]. *)
Lemma write_extends (written src : list byte)
      (s : stream.buffer_stream shared_array_buffer.meta) :
  holds written (stream.buffer_ s) ->
  Z.of_nat (length written) + Z.of_nat (length src)
  <= shared_array_buffer.capacity (stream.buffer_ s) ->
  exists b,
    stream.write s src (Z.of_nat (length written)) (Z.of_nat (length src))
    = Returns true (stream.set_buffer b s)
    /\ holds (written ++ src) b
    /\ shared_array_buffer.capacity b
       = shared_array_buffer.capacity (stream.buffer_ s)
    /\ shared_array_buffer.reference_count b
       = shared_array_buffer.reference_count (stream.buffer_ s).
Proof.
  intros [Hpre Hobj Hrec] Hin.
  rewrite (write_inside s src); [|exact Hobj|lia|exact Hin].
  eexists. split; [reflexivity|].
  pose proof Hobj as (Hp & Hfit & Hlen & Hmax). simpl in *.
  split; [|split; reflexivity].
  split; simpl.
  - apply blit_extends; [reflexivity|lia|exact Hpre].
  - unfold stream.is_object. simpl. rewrite length_blit by lia. lia.
  - exact Hrec.
Qed.

Lemma mark_eof_at_fields {B : Type} `{is_buffer B} (curr : Z)
      (s : stream.buffer_stream B) :
  stream.buffer_ (stream.mark_eof_at curr s) = stream.buffer_ s
  /\ stream.position_ (stream.mark_eof_at curr s) = stream.position_ s
  /\ stream.auto_expand (stream.mark_eof_at curr s) = stream.auto_expand s.
Proof.
  unfold stream.mark_eof_at.
  destruct (curr =? capacity (stream.buffer_ s)); repeat split.
Qed.

Lemma append_plain_holds (L : libc) (written t : list byte)
      (s : stream.buffer_stream shared_array_buffer.meta) :
  never_fails L -> stream.auto_expand s = true ->
  stream.position_ s = Z.of_nat (length written) ->
  holds written (stream.buffer_ s) ->
  Z.of_nat (length written) + Z.of_nat (length t) <= Mach.PTRDIFF_MAX ->
  exists s',
    stream.append_plain L t s = Returns true s'
    /\ stream.auto_expand s' = true
    /\ stream.position_ s' = Z.of_nat (length (written ++ t))
    /\ holds (written ++ t) (stream.buffer_ s')
    /\ shared_array_buffer.capacity (stream.buffer_ s')
       = Z.max (shared_array_buffer.capacity (stream.buffer_ s))
               (Z.of_nat (length (written ++ t)))
    /\ shared_array_buffer.reference_count (stream.buffer_ s')
       = shared_array_buffer.reference_count (stream.buffer_ s).
Proof.
  intros HL Hauto Hat Hh Hmax. unfold stream.append_plain. rewrite Hat.
  assert (Hsmall : Z.of_nat (length written) + Z.of_nat (length t)
                   <= Mach.SIZE_MAX)
    by (unfold Mach.PTRDIFF_MAX, Mach.SIZE_MAX, Mach.size_modulus in *; lia).
  rewrite to_size_t_small by lia.
  destruct (grow_holds L written
              (Z.of_nat (length written) + Z.of_nat (length t)) s
              HL Hauto Hh) as (b1 & -> & Hh1 & Hcap1 & Hrc1); [lia|].
  cbn [bind].
  replace (Z.of_nat (length written) + Z.of_nat (length t)
           - Z.of_nat (length t)) with (Z.of_nat (length written)) by lia.
  rewrite to_size_t_small by lia.
  set (s2 := stream.set_position _ _).
  destruct (mark_eof_at_fields
              (Z.of_nat (length written) + Z.of_nat (length t))
              (stream.set_buffer b1 s)) as (Hb & _ & Ha).
  assert (Hb2 : stream.buffer_ s2 = b1) by (subst s2; simpl; exact Hb).
  destruct (write_extends written t s2) as (b & -> & Hhb & Hcap & Hrc).
  { rewrite Hb2. exact Hh1. }
  { rewrite Hb2, Hcap1. lia. }
  cbn [bind]. eexists. split; [reflexivity|]. simpl.
  rewrite Hb2 in Hcap, Hrc.
  split; [rewrite Ha; simpl; exact Hauto|].
  split; [rewrite length_app; lia|].
  split; [exact Hhb|].
  split; [rewrite length_app; lia|congruence].
Qed.

Lemma append_view_holds (L : libc) (written sv : list byte)
      (s : stream.buffer_stream shared_array_buffer.meta) :
  never_fails L -> stream.auto_expand s = true ->
  stream.position_ s = Z.of_nat (length written) ->
  holds written (stream.buffer_ s) ->
  Z.of_nat (length written) + 8 + Z.of_nat (length sv) <= Mach.PTRDIFF_MAX ->
  let field := Mach.encode_le 8 (Z.of_nat (length sv)) ++ sv in
  exists s',
    stream.append_view L sv s = Returns true s'
    /\ stream.auto_expand s' = true
    /\ stream.position_ s' = Z.of_nat (length (written ++ field))
    /\ holds (written ++ field) (stream.buffer_ s')
    /\ shared_array_buffer.capacity (stream.buffer_ s')
       = Z.max (shared_array_buffer.capacity (stream.buffer_ s))
               (Z.of_nat (length (written ++ field)))
    /\ shared_array_buffer.reference_count (stream.buffer_ s')
       = shared_array_buffer.reference_count (stream.buffer_ s).
Proof.
  intros HL Hauto Hat Hh Hmax field. unfold stream.append_view. rewrite Hat.
  unfold Mach.sizeof_size_t.
  assert (Hsmall : Z.of_nat (length written) + 8 + Z.of_nat (length sv)
                   <= Mach.SIZE_MAX)
    by (unfold Mach.PTRDIFF_MAX, Mach.SIZE_MAX, Mach.size_modulus in *; lia).
  rewrite (to_size_t_small (Z.of_nat (length sv) + 8)) by lia.
  rewrite to_size_t_small by lia.
  set (curr := Z.of_nat (length written) + (Z.of_nat (length sv) + 8)).
  destruct (grow_holds L written curr s HL Hauto Hh)
    as (b1 & -> & Hh1 & Hcap1 & Hrc1); [subst curr; lia|].
  cbn [bind].
  replace (curr - (Z.of_nat (length sv) + 8))
    with (Z.of_nat (length written)) by (subst curr; lia).
  replace (curr - Z.of_nat (length sv))
    with (Z.of_nat (length written) + 8) by (subst curr; lia).
  rewrite !to_size_t_small by lia.
  set (s2 := stream.set_position _ _).
  destruct (mark_eof_at_fields curr (stream.set_buffer b1 s)) as (Hb & _ & Ha).
  assert (Hb2 : stream.buffer_ s2 = b1) by (subst s2; simpl; exact Hb).
  pose proof (length_encode_le 8 (Z.of_nat (length sv))) as Hl8.
  destruct (write_extends written (Mach.encode_le 8 (Z.of_nat (length sv))) s2)
    as (b2 & Hw2 & Hh2 & Hcap2 & Hrc2).
  { rewrite Hb2. exact Hh1. }
  { rewrite Hb2, Hcap1, Hl8. subst curr. lia. }
  rewrite Hl8 in Hw2. change (Z.of_nat 8) with 8 in Hw2. rewrite Hw2.
  cbn [bind].
  destruct (write_extends
              (written ++ Mach.encode_le 8 (Z.of_nat (length sv))) sv
              (stream.set_buffer b2 s2)) as (b3 & Hw3 & Hh3 & Hcap3 & Hrc3).
  { exact Hh2. }
  { cbn [stream.buffer_ stream.set_buffer].
    rewrite Hcap2, Hb2, Hcap1, length_app, Hl8. subst curr. lia. }
  rewrite length_app, Hl8, Nat2Z.inj_add in Hw3.
  change (Z.of_nat 8) with 8 in Hw3. rewrite Hw3.
  cbn [bind]. eexists. split; [reflexivity|]. subst s2.
  cbn [stream.buffer_ stream.set_buffer stream.auto_expand
       stream.position_ stream.set_position] in *.
  rewrite Hb2 in Hcap2, Hrc2. subst field.
  rewrite <- app_assoc in Hh3.
  split; [rewrite Ha; simpl; exact Hauto|].
  split; [rewrite !length_app, Hl8; subst curr; lia|].
  split; [exact Hh3|].
  split; [rewrite !length_app, Hl8; subst curr; lia|congruence].
Qed.

(** ** Reading back *)

Section stream_get_as.

Context {B : Type} `{is_buffer B}.

Lemma reference_inside (s : stream.buffer_stream B) (offset size : Z) :
  stream.is_object (stream.buffer_ s) ->
  0 <= offset -> 0 <= size ->
  offset + size <= capacity (stream.buffer_ s) ->
  stream.reference s offset size = pointer (stream.buffer_ s) + offset
  /\ stream.reference s offset size <> 0
  /\ stream.accessible (contents (stream.buffer_ s)) offset size = true.
Proof.
  intros (Hp & Hfit & Hlen & Hmax) Ho Hs Hin. unfold stream.reference.
  unfold Mach.PTRDIFF_MAX, Mach.SIZE_MAX, Mach.size_modulus in *.
  rewrite !to_size_t_small
    by (unfold Mach.SIZE_MAX, Mach.size_modulus; lia).
  destruct (Z.gtb_spec (offset + size) (capacity (stream.buffer_ s)));
    [lia|].
  split; [reflexivity|]. split; [lia|].
  unfold stream.accessible. rewrite Hlen.
  destruct (Z.leb_spec 0 offset); [|lia].
  destruct (Z.leb_spec 0 size); [|lia].
  destruct (Z.leb_spec (offset + size) (capacity (stream.buffer_ s))); [|lia].
  reflexivity.
Qed.

Lemma get_as_plain_inside (step : Z) (s : stream.buffer_stream B) :
  stream.is_object (stream.buffer_ s) ->
  0 <= stream.position_ s -> 0 <= step ->
  stream.position_ s + step <= capacity (stream.buffer_ s) ->
  exists s',
    stream.get_as_plain step s
    = Returns (Mach.slice (contents (stream.buffer_ s))
                          (stream.position_ s) step) s'
    /\ stream.buffer_ s' = stream.buffer_ s
    /\ stream.position_ s' = stream.position_ s + step.
Proof.
  intros Hobj Hpos Hstep Hin. unfold stream.get_as_plain.
  pose proof Hobj as (Hp & Hfit & Hlen & Hmax).
  assert (Hsmall : stream.position_ s + step <= Mach.SIZE_MAX)
    by (unfold Mach.PTRDIFF_MAX, Mach.SIZE_MAX, Mach.size_modulus in *; lia).
  rewrite (to_size_t_small (stream.position_ s + step)) by lia.
  replace (stream.position_ s + step - step) with (stream.position_ s)
    by lia.
  rewrite (to_size_t_small (stream.position_ s)) by lia.
  set (s1 := stream.set_position _ _).
  destruct (mark_eof_at_fields (stream.position_ s + step) s)
    as (Hb & _ & _).
  assert (Hb1 : stream.buffer_ s1 = stream.buffer_ s)
    by (subst s1; simpl; exact Hb).
  destruct (reference_inside s1 (stream.position_ s) step)
    as (_ & Hne & Hacc); try lia; try (rewrite Hb1; assumption).
  destruct (Z.eqb_spec (stream.reference s1 (stream.position_ s) step) 0)
    as [E|_]; [contradiction|].
  rewrite Hacc, Hb1. exists s1. split; [reflexivity|].
  split; [exact Hb1|reflexivity].
Qed.

Lemma get_as_view_inside (s : stream.buffer_stream B)
      (pre data rest : list byte) :
  stream.is_object (stream.buffer_ s) ->
  contents (stream.buffer_ s)
  = pre ++ (Mach.encode_le 8 (Z.of_nat (length data)) ++ data) ++ rest ->
  stream.position_ s = Z.of_nat (length pre) ->
  stream.get_as_view s
  = Returns data
      (stream.set_position
         (Z.of_nat (length (pre ++ Mach.encode_le 8 (Z.of_nat (length data))
                                ++ data))) s).
Proof.
  intros Hobj Hmem Hpos. unfold stream.get_as_view, Mach.sizeof_size_t.
  pose proof Hobj as (Hp & Hfit & Hlen & Hmax).
  pose proof (length_encode_le 8 (Z.of_nat (length data))) as Hl8.
  rewrite Hmem in Hlen. rewrite !length_app, Hl8 in Hlen.
  assert (Hsmall : capacity (stream.buffer_ s) <= Mach.SIZE_MAX)
    by (unfold Mach.PTRDIFF_MAX, Mach.SIZE_MAX, Mach.size_modulus in *; lia).
  destruct (reference_inside s (stream.position_ s) 8)
    as (_ & Hne & Hacc); try lia; try assumption.
  destruct (Z.eqb_spec (stream.reference s (stream.position_ s) 8) 0)
    as [E|_]; [contradiction|].
  rewrite Hacc. cbn [negb].
  assert (Hsize : Mach.decode_le
                    (Mach.slice (contents (stream.buffer_ s))
                                (stream.position_ s) 8)
                  = Z.of_nat (length data)).
  { rewrite Hmem, Hpos. rewrite <- !app_assoc.
    rewrite (slice_middle pre (Mach.encode_le 8 (Z.of_nat (length data))));
      [|reflexivity|rewrite Hl8; reflexivity].
    rewrite decode_encode_le. apply Z.mod_small.
    change (2 ^ (8 * Z.of_nat 8)) with Mach.size_modulus.
    unfold Mach.SIZE_MAX in Hsmall. lia. }
  rewrite Hsize.
  rewrite (to_size_t_small (stream.position_ s + 8)) by lia.
  destruct (reference_inside s (stream.position_ s + 8)
                             (Z.of_nat (length data)))
    as (_ & Hne' & Hacc'); try lia; try assumption.
  destruct (Z.eqb_spec (stream.reference s (stream.position_ s + 8)
                                         (Z.of_nat (length data))) 0)
    as [E|_]; [contradiction|].
  rewrite Hacc'. cbn [negb].
  rewrite (to_size_t_small (stream.position_ s + (8 + Z.of_nat (length data))))
    by lia.
  f_equal.
  - rewrite Hmem, Hpos. rewrite <- !app_assoc. rewrite app_assoc.
    apply slice_middle; [|reflexivity].
    rewrite length_app, Hl8. lia.
  - f_equal. rewrite !length_app, Hl8. lia.
Qed.

End stream_get_as.

(** ** [event_log]: what the constructor lays out, and reading it back *)

Lemma construct_holds (L : libc) (cap : Z) (a : heap_allocator.t) :
  never_fails L -> 0 <= cap <= Mach.PTRDIFF_MAX ->
  exists meta_ m a',
    shared_array_buffer.construct L cap a = Returns (meta_, m) a'
    /\ holds [] m
    /\ shared_array_buffer.capacity m = cap
    /\ shared_array_buffer.reference_count m = 1.
Proof.
  intros [Hm _] Hcap.
  unfold shared_array_buffer.construct, heap_allocator.allocate.
  destruct (Hm (heap_allocator.calls a) shared_array_buffer.sizeof_meta)
    as [Hp1 _];
    [unfold shared_array_buffer.sizeof_meta, Mach.PTRDIFF_MAX; lia|].
  destruct (Z.eqb_spec (malloc L (heap_allocator.calls a)
                               shared_array_buffer.sizeof_meta) 0);
    [lia|].
  cbn [bind heap_allocator.calls heap_allocator.ptrs_].
  set (log := heap_allocator.calls a ++ _).
  destruct (Hm log cap) as [Hp2 Hfit]; [lia|].
  destruct (Z.eqb_spec (malloc L log cap) 0); [lia|].
  cbn [bind]. do 3 eexists. split; [reflexivity|].
  split; [|split; reflexivity].
  split; cbn.
  - reflexivity.
  - unfold stream.is_object. cbn. rewrite length_fresh. lia.
  - apply elem_of_app. right. apply list_elem_of_singleton. reflexivity.
Qed.

Lemma make_layout (L : libc) (lv tm : Z) (from msg : list byte) :
  never_fails L ->
  Z.of_nat (length from) + Z.of_nat (length msg) + 28 <= Mach.PTRDIFF_MAX ->
  exists b,
    event_log.make L lv tm from msg
    = Returns {| event_log.buffer_ := b; event_log.lv_ := lv;
                 event_log.tm_ := tm; event_log.from_ := from;
                 event_log.msg_ := msg |} tt
    /\ shared_array_buffer.mem b = layout lv tm from msg
    /\ stream.is_object b
    /\ shared_array_buffer.reference_count b = 1.
Proof.
  intros HL Hmax. unfold event_log.make.
  unfold event_log.sizeof_lv, event_log.sizeof_tm, Mach.sizeof_time_t.
  assert (Hbig : Mach.PTRDIFF_MAX <= Mach.SIZE_MAX)
    by (unfold Mach.PTRDIFF_MAX, Mach.SIZE_MAX, Mach.size_modulus; lia).
  rewrite to_size_t_small by lia.
  destruct (construct_holds L
              (4 + 8 + Z.of_nat (length from) + Z.of_nat (length msg) + 1)
              heap_allocator.new HL) as (meta_ & m & a' & -> & Hh0 & Hc0 & Hr0);
    [lia|].
  pose proof (length_encode_le 4 lv) as Hl4.
  pose proof (length_encode_le 8 tm) as Hl8.
  pose proof (length_encode_le 8 (Z.of_nat (length from))) as Hlf.
  pose proof (length_encode_le 8 (Z.of_nat (length msg))) as Hlm.
  destruct (append_plain_holds L [] (Mach.encode_le 4 lv)
              (stream.set_auto_expand true (stream.open m)) HL)
    as (s1 & -> & Ha1 & Hp1 & Hh1 & Hc1 & Hr1);
    [reflexivity|reflexivity|exact Hh0|rewrite Hl4; simpl; lia|].
  cbn [event_log.checked].
  destruct (append_plain_holds L _ (Mach.encode_le 8 tm) s1 HL Ha1 Hp1 Hh1)
    as (s2 & -> & Ha2 & Hp2 & Hh2 & Hc2 & Hr2);
    [rewrite length_app, Hl4, Hl8; simpl; lia|].
  cbn [event_log.checked].
  destruct (append_view_holds L _ from s2 HL Ha2 Hp2 Hh2)
    as (s3 & -> & Ha3 & Hp3 & Hh3 & Hc3 & Hr3);
    [rewrite !length_app, Hl4, Hl8; simpl; lia|].
  cbn [event_log.checked].
  destruct (append_view_holds L _ msg s3 HL Ha3 Hp3 Hh3)
    as (s4 & -> & Ha4 & Hp4 & Hh4 & Hc4 & Hr4);
    [rewrite !length_app, Hl4, Hl8, Hlf; simpl; lia|].
  cbn [event_log.checked].
  exists (stream.buffer_ s4). split; [reflexivity|].
  fold (layout lv tm from msg) in Hh4, Hc4.
  assert (Hlen : Z.of_nat (length (layout lv tm from msg))
                 = 28 + Z.of_nat (length from) + Z.of_nat (length msg)).
  { unfold layout. rewrite !length_app, Hl4, Hl8, Hlf, Hlm. simpl. lia. }
  cbn [stream.buffer_ stream.set_auto_expand stream.open] in *.
  rewrite !length_app, ?Hl4, ?Hl8, ?Hlf in Hc1, Hc2, Hc3.
  simpl length in Hc1, Hc2, Hc3.
  destruct Hh4 as [Hpre Hobj Hrec].
  pose proof Hobj as (_ & _ & Hl & _). cbn in Hl.
  split; [|split; [exact Hobj|congruence]].
  rewrite <- Hpre. symmetry. apply take_ge. lia.
Qed.

Lemma decode_layout (b : shared_array_buffer.meta) (lv tm : Z)
      (from msg : list byte) :
  stream.is_object b ->
  shared_array_buffer.mem b = layout lv tm from msg ->
  from <> [] -> msg <> [] ->
  event_log.decode b
  = Returns {| event_log.buffer_ := b;
               event_log.lv_ := Mach.to_int (lv mod 2 ^ 32);
               event_log.tm_ := Mach.to_int64 (tm mod 2 ^ 64);
               event_log.from_ := from; event_log.msg_ := msg |} tt.
Proof.
  intros Hobj Hmem Hfrom Hmsg. unfold event_log.decode.
  unfold event_log.sizeof_lv, event_log.sizeof_tm, Mach.sizeof_time_t.
  pose proof (length_encode_le 4 lv) as Hl4.
  pose proof (length_encode_le 8 tm) as Hl8.
  pose proof (length_encode_le 8 (Z.of_nat (length from))) as Hlf.
  pose proof (length_encode_le 8 (Z.of_nat (length msg))) as Hlm.
  pose proof Hobj as (_ & _ & Hlen & _). cbn in Hlen.
  rewrite Hmem in Hlen. unfold layout in Hlen, Hmem.
  rewrite !length_app, Hl4, Hl8, Hlf, Hlm in Hlen. simpl length in Hlen.
  destruct (get_as_plain_inside 4 (stream.open b))
    as (s1 & -> & Hb1 & Hp1); [exact Hobj|simpl; lia|lia|simpl; lia|].
  destruct (get_as_plain_inside 8 s1)
    as (s2 & -> & Hb2 & Hp2);
    [rewrite Hb1; exact Hobj|rewrite Hp1; simpl; lia|lia
    |rewrite Hp1, Hb1; simpl; lia|].
  rewrite Hb1, Hp1 in *. cbn [stream.open stream.buffer_ stream.position_] in *.
  cbn [contents shared_is_buffer].
  rewrite (get_as_view_inside s2
             ([] ++ Mach.encode_le 4 lv ++ Mach.encode_le 8 tm) from
             (Mach.encode_le 8 (Z.of_nat (length msg)) ++ msg));
    [|rewrite Hb2; exact Hobj
     |rewrite Hb2; cbn [contents shared_is_buffer]; rewrite Hmem;
      rewrite <- !app_assoc; reflexivity
     |rewrite Hp2, !length_app, Hl4, Hl8; simpl; lia].
  destruct from as [|f0 from']; [contradiction|]. cbn [event_log.is_empty].
  set (from := f0 :: from') in *.
  rewrite (get_as_view_inside _
             (([] ++ Mach.encode_le 4 lv ++ Mach.encode_le 8 tm)
                ++ Mach.encode_le 8 (Z.of_nat (length from)) ++ from)
             msg []);
    [|cbn [stream.buffer_ stream.set_position]; rewrite Hb2; exact Hobj
     |cbn [stream.buffer_ stream.set_position]; rewrite Hb2;
      cbn [contents shared_is_buffer]; rewrite Hmem;
      rewrite <- !app_assoc, app_nil_r; reflexivity
     |cbn [stream.position_ stream.set_position];
      rewrite <- !app_assoc; reflexivity].
  destruct msg as [|m0 msg']; [contradiction|]. cbn [event_log.is_empty].
  set (msg := m0 :: msg') in *.
  cbn [stream.buffer_ stream.set_position]. rewrite Hb2. f_equal.
  rewrite Hmem. f_equal.
  - f_equal. rewrite <- !app_assoc.
    rewrite (slice_middle [] (Mach.encode_le 4 lv));
      [|reflexivity|rewrite Hl4; reflexivity].
    apply decode_encode_le.
  - f_equal. rewrite <- !app_assoc. rewrite app_assoc.
    rewrite (slice_middle ([] ++ Mach.encode_le 4 lv) (Mach.encode_le 8 tm));
      [|rewrite length_app, Hl4; reflexivity|rewrite Hl8; reflexivity].
    apply decode_encode_le.
Qed.

Lemma arena_never_fails (base : Z) :
  0 < base <= 2 ^ 32 -> never_fails (arena base).
Proof.
  intros Hbase. unfold never_fails, block_at, arena, arena_top. simpl.
  unfold Mach.PTRDIFF_MAX, Mach.SIZE_MAX, Mach.size_modulus.
  split; intros log; intros;
    pose proof (Z.mod_pos_bound (fold_right Z.add 0 (map call_extent log))
                                (2 ^ 32) eq_refl); lia.
Qed.

(** C6. With a C library that does not fail, for every log level, every
    time stamp, and every source and message that are not empty (and fit
    the address space): the constructor returns an event; [content()] of it
    returns a buffer; the constructor from that buffer returns an event;
    and its level, time, source and message are the four values given. *)
Theorem event_log_round_trip (L : libc) (lv : log_level) (tm : Z)
        (from msg : list byte) :
  never_fails L ->
  - 2 ^ 63 <= tm < 2 ^ 63 ->
  from <> [] -> msg <> [] ->
  Z.of_nat (length from) + Z.of_nat (length msg) + 28 <= Mach.PTRDIFF_MAX ->
  exists e b e',
    event_log.make L (level_value lv) tm from msg = Returns e tt
    /\ content e = Returns tt b
    /\ from_buffer b = Returns e' tt
    /\ event_log.lv_ e' = level_value lv
    /\ event_log.tm_ e' = tm
    /\ event_log.from_ e' = from
    /\ event_log.msg_ e' = msg.
Proof.
  intros HL Htm Hfrom Hmsg Hmax.
  destruct (make_layout L (level_value lv) tm from msg HL Hmax)
    as (b & Hmake & Hmem & Hobj & Hrc).
  eexists. exists (shared_array_buffer.with_count 2 b). eexists.
  split; [exact Hmake|]. split.
  { unfold content, event_log_is_event, event_log.get_content,
      shared_array_buffer.copy_construct. simpl. rewrite Hrc. reflexivity. }
  split.
  { cbn [from_buffer event_log_is_event].
    apply (decode_layout _ (level_value lv) tm from msg);
      [exact Hobj|exact Hmem|exact Hfrom|exact Hmsg]. }
  cbn. split; [|split; [|split; reflexivity]].
  - apply (to_signed_range 32); [lia|]. destruct lv; simpl; lia.
  - apply (to_signed_range 64); [lia|]. simpl. lia.
Qed.

Example event_log_round_trip_witness :
  never_fails (arena 4096)
  /\ - 2 ^ 63 <= 1700000000 < 2 ^ 63
  /\ [x73; x76; x63] <> [] /\ [x62; x6f; x6f; x6d] <> []
  /\ exists e b e',
       event_log.make (arena 4096) (level_value ERROR) 1700000000
                      [x73; x76; x63] [x62; x6f; x6f; x6d] = Returns e tt
       /\ content e = Returns tt b
       /\ from_buffer b = Returns e' tt
       /\ event_log.lv_ e' = level_value ERROR
       /\ event_log.tm_ e' = 1700000000
       /\ event_log.from_ e' = [x73; x76; x63]
       /\ event_log.msg_ e' = [x62; x6f; x6f; x6d].
Proof.
  assert (HL : never_fails (arena 4096)) by (apply arena_never_fails; lia).
  assert (Htm : - 2 ^ 63 <= 1700000000 < 2 ^ 63) by lia.
  assert (Hfrom : [x73; x76; x63] <> []) by discriminate.
  assert (Hmsg : [x62; x6f; x6f; x6d] <> []) by discriminate.
  split; [exact HL|]. split; [exact Htm|]. split; [exact Hfrom|].
  split; [exact Hmsg|].
  apply (event_log_round_trip (arena 4096) ERROR 1700000000
           [x73; x76; x63] [x62; x6f; x6f; x6d] HL Htm Hfrom Hmsg).
  unfold Mach.PTRDIFF_MAX. simpl. lia.
Defined.

(** ** [event_channel::post] *)

Section channel_post.

Import event_channel.

Context {W : Type}.

Lemma with_count_same (m : shared_array_buffer.meta) :
  shared_array_buffer.with_count (shared_array_buffer.reference_count m) m = m.
Proof. destruct m. reflexivity. Qed.

(** The end of life of an object on a block that carries others. *)
Lemma drop_object_of_several (m : shared_array_buffer.meta) (w : W)
      (l : list action) :
  1 < shared_array_buffer.reference_count m ->
  drop_object {| block := m; user := w; log := l |}
  = Returns tt
      {| block := shared_array_buffer.with_count
                    (shared_array_buffer.reference_count m - 1) m;
         user := w; log := l |}.
Proof.
  intros Hrc. unfold drop_object. cbn [block].
  rewrite destructor_on_count by lia.
  destruct (Z.eqb_spec (shared_array_buffer.reference_count m) 1); [lia|].
  reflexivity.
Qed.

(** The loop over the entries of the subscribers [subs]: it is their
    handlers called in turn. Each call is on the block with one more
    object on it; the loop ends at the first call that throws, with that
    exception; the block is back at its count either way, and the log
    holds the calls begun. *)
Lemma deliver_in_turn (subs : list (subscriber W))
      (m : shared_array_buffer.meta) (w : W) (l : list action) :
  1 <= shared_array_buffer.reference_count m < Mach.INT_MAX ->
  deliver (map entry_of subs) {| block := m; user := w; log := l |}
  = let b := shared_array_buffer.with_count
               (shared_array_buffer.reference_count m + 1) m in
    let ended w' n :=
      {| block := m; user := w';
         log := l ++ map (fun s => invoked (subscriber_id s) b)
                         (take n subs) |} in
    match in_turn b subs w with
    | (n, Returns _ w') => Returns tt (ended w' n)
    | (n, Throws ex w') => Throws ex (ended w' n)
    | (_, Undefined) => Undefined
    end.
Proof.
  intros Hrc. cbv zeta. revert w l.
  induction subs as [|s subs IH]; intros w l.
  - cbn. rewrite app_nil_r. reflexivity.
  - cbn [map deliver entry_of callback_function callback_id block user log].
    unfold shared_array_buffer.copy_construct.
    destruct (Z.eqb_spec (shared_array_buffer.reference_count m) 0); [lia|].
    destruct (Z.eqb_spec (shared_array_buffer.reference_count m) Mach.INT_MAX);
      [lia|].
    set (b := shared_array_buffer.with_count
                (shared_array_buffer.reference_count m + 1) m) in *.
    assert (Hdrop : forall (w1 : W) l1,
               drop_object {| block := b; user := w1; log := l1 |}
               = Returns tt {| block := m; user := w1; log := l1 |}).
    { intros w1 l1. rewrite drop_object_of_several by (subst b; simpl; lia).
      subst b. cbn [shared_array_buffer.reference_count
                      shared_array_buffer.with_count].
      replace (shared_array_buffer.reference_count m + 1 - 1)
        with (shared_array_buffer.reference_count m) by lia.
      destruct m; reflexivity. }
    unfold packaged. cbn [block user log in_turn].
    destruct (from_buffer (E := event_type s)
                          (is_event := event_type_is_event s) b)
      as [e []|ex []|].
    + destruct (event_handler s e w) as [[] w1|ex w1|].
      * rewrite Hdrop. cbn [bind]. rewrite IH.
        destruct (in_turn b subs w1) as [k [[] w2|ex w2|]];
          cbn [fst snd take map]; rewrite <- ?app_assoc; reflexivity.
      * rewrite Hdrop. cbn [bind take map]. reflexivity.
      * reflexivity.
    + rewrite Hdrop. cbn [bind take map]. reflexivity.
    + reflexivity.
Qed.

(** C7. Where the entries registered under the event's type id are those
    of the subscribers [subs], [post(event)] calls [content()] once, first,
    and then is the subscribers' handlers called in turn, in the order of
    the vector, each with the event its type decodes from the one block on
    an object of its own (the count one above that of [post]'s local
    buffer), each on [W] as the one before left it. When every call
    returns, [post] returns after the last with all of them logged; when a
    call throws, [post] throws that exception at once, with only the calls
    up to that one logged. Either way the block's count is back at what
    the event had. *)
Theorem post_runs_subscribers_in_turn {E : Type} `{is_event E} (event : E)
        (ch : t W) (w : W) (m : shared_array_buffer.meta)
        (subs : list (subscriber W)) :
  content event = Returns tt m ->
  1 < shared_array_buffer.reference_count m < Mach.INT_MAX ->
  handlers_of (unique_event_id (E := E)) ch = map entry_of subs ->
  post event ch w
  = let b := shared_array_buffer.with_count
               (shared_array_buffer.reference_count m + 1) m in
    let ended w' n :=
      {| block := shared_array_buffer.with_count
                    (shared_array_buffer.reference_count m - 1) m;
         user := w';
         log := content_called
                :: map (fun s => invoked (subscriber_id s) b)
                       (take n subs) |} in
    match in_turn b subs w with
    | (n, Returns _ w') => Returns tt (ended w' n)
    | (n, Throws ex w') => Throws ex (ended w' n)
    | (_, Undefined) => Undefined
    end.
Proof.
  intros Hcontent Hrc Hsubs. unfold post. rewrite Hcontent, Hsubs.
  rewrite deliver_in_turn by lia. cbv zeta.
  destruct (in_turn _ subs w) as [n [[] w'|ex w'|]].
  - rewrite drop_object_of_several by (cbn [block]; lia). reflexivity.
  - rewrite drop_object_of_several by (cbn [block]; lia). reflexivity.
  - reflexivity.
Qed.

(** When every handler returns, all the subscribers are called. *)
Lemma in_turn_all_return (b : shared_array_buffer.meta)
      (subs : list (subscriber W)) (w w' : W) (n : nat) :
  in_turn b subs w = (n, Returns tt w') -> n = length subs.
Proof.
  revert w n. induction subs as [|s subs IH]; intros w n; cbn [in_turn].
  - intros Heq. injection Heq as <- _. reflexivity.
  - destruct (from_buffer (E := event_type s)
                          (is_event := event_type_is_event s) b)
      as [e u|ex u|]; [|discriminate|discriminate].
    destruct (event_handler s e w) as [u1 w1|ex w1|];
      [|discriminate|discriminate].
    destruct (in_turn b subs w1) as [k r] eqn:Hk. cbn [fst snd].
    intros Heq. injection Heq as <- ->. cbn [length]. f_equal.
    apply (IH w1 k Hk).
Qed.

(** [subscribe] puts the new handler last under its event's id, gives it
    the counter's value as id, and leaves the handlers of every other id as
    they were. *)
Lemma subscribe_registers {E : Type} `{is_event E}
      (event_handler : E -> W -> outcome unit W) (ch ch' : t W) (cbid : Z) :
  subscribe event_handler ch = Returns cbid ch' ->
  cbid = cbid_count_ ch
  /\ cbid_count_ ch' = cbid + 1
  /\ handlers_of (unique_event_id (E := E)) ch'
     = handlers_of (unique_event_id (E := E)) ch
         ++ [{| callback_function := packaged event_handler;
                callback_id := cbid |}]
  /\ forall ueid, ueid <> unique_event_id (E := E) ->
       handlers_of ueid ch' = handlers_of ueid ch.
Proof.
  unfold subscribe.
  destruct (cbid_count_ ch =? Mach.INT_MAX); [discriminate|].
  intros Heq. injection Heq as <- <-.
  split; [reflexivity|]. split; [reflexivity|]. split.
  - unfold handlers_of at 1. cbn [evhandlers_].
    rewrite lookup_insert_eq. reflexivity.
  - intros ueid Hne. unfold handlers_of at 1. cbn [evhandlers_].
    rewrite lookup_insert_ne by congruence. reflexivity.
Qed.

End channel_post.

Example post_runs_subscribers_in_turn_witness :
  exists e m,
    sample.boom = Returns e tt
    /\ content e = Returns tt m
    /\ 1 < shared_array_buffer.reference_count m < Mach.INT_MAX
    /\ event_channel.handlers_of
         (unique_event_id (E := event_log.t)) sample.channel
       = map event_channel.entry_of sample.subscribers
    /\ map event_channel.callback_id
           (event_channel.handlers_of
              (unique_event_id (E := sample.ping)) sample.channel)
       = [1]
    /\ event_channel.post e sample.channel []
       = Returns tt
           {| event_channel.block :=
                shared_array_buffer.with_count
                  (shared_array_buffer.reference_count m - 1) m;
              event_channel.user := [10; 20; 30];
              event_channel.log :=
                event_channel.content_called
                :: map (fun s =>
                          event_channel.invoked
                            (event_channel.subscriber_id s)
                            (shared_array_buffer.with_count
                               (shared_array_buffer.reference_count m + 1)
                               m))
                       sample.subscribers |}.
Proof.
  eexists. eexists.
  split; [vm_compute; reflexivity|].
  match goal with
  | |- content ?e = Returns tt ?m /\ _ =>
      assert (Hcontent : content e = Returns tt m) by (vm_compute; reflexivity)
  end.
  split; [exact Hcontent|].
  match type of Hcontent with
  | content ?e = Returns tt ?m =>
      assert (Hrc : 1 < shared_array_buffer.reference_count m < Mach.INT_MAX)
        by (vm_compute; split; reflexivity)
  end.
  split; [exact Hrc|].
  assert (Hsubs : event_channel.handlers_of
                    (unique_event_id (E := event_log.t)) sample.channel
                  = map event_channel.entry_of sample.subscribers)
    by reflexivity.
  split; [exact Hsubs|].
  split; [reflexivity|].
  pose proof (post_runs_subscribers_in_turn _ sample.channel [] _
                sample.subscribers Hcontent Hrc Hsubs) as Hpost.
  cbv zeta in Hpost.
  match type of Hpost with
  | context [event_channel.in_turn ?b ?subs ?w] =>
      assert (Hturn : event_channel.in_turn b subs w
                      = (3%nat, Returns tt [10; 20; 30]))
        by (vm_compute; reflexivity);
      rewrite Hturn in Hpost
  end.
  exact Hpost.
Defined.

(** C7, as worded, fails where a subscriber throws. Three subscribers of
    [event_log], ids 0, 1 and 2; the second notes its number and throws.
    [post] does not return: it throws the handler's exception, and the
    third subscriber, registered under the event's type id, has not been
    invoked. *)
Example post_stops_at_a_throwing_subscriber :
  exists e f b,
    sample.boom = Returns e tt
    /\ map event_channel.callback_id
           (event_channel.handlers_of
              (unique_event_id (E := event_log.t)) sample.channel_refusing)
       = [0; 1; 2]
    /\ event_channel.post e sample.channel_refusing []
       = Throws (io_exception "handler" "refused") f
    /\ event_channel.user f = [10; 20]
    /\ event_channel.log f
       = [event_channel.content_called; event_channel.invoked 0 b;
          event_channel.invoked 1 b].
Proof.
  eexists. eexists. eexists.
  split; [vm_compute; reflexivity|].
  split; [reflexivity|].
  split; [vm_compute; reflexivity|].
  split; reflexivity.
Qed.

(** ** Packets *)

(** [writefd] that returns has handed the descriptor exactly the bytes of
    the buffer, in order. *)
Lemma writefd_sends (answers rest : list io.answer) (off sent sent' : list byte)
      (left : Z) :
  left = Z.of_nat (length off) -> left <= Mach.SIZE_MAX ->
  io.writefd answers off left sent = Some (Returns rest sent') ->
  sent' = sent ++ off.
Proof.
  revert off sent left.
  induction answers as [|a answers IH]; intros off sent left Hleft Hmax Hrun.
  - simpl in Hrun. destruct (Z.gtb_spec left 0) as [Hpos|Hz];
      [discriminate|].
    injection Hrun as _ <-. destruct off; [|simpl in Hleft; lia].
    rewrite app_nil_r. reflexivity.
  - simpl in Hrun. destruct (Z.gtb_spec left 0) as [Hpos|Hz].
    + destruct a as [bytes|n|errno]; [discriminate| |].
      * destruct (Z.leb_spec 0 n) as [Hn0|]; [|discriminate].
        destruct (Z.leb_spec n (Z.of_nat (length off))) as [Hn|];
          [|discriminate].
        simpl in Hrun. apply IH in Hrun.
        -- rewrite Hrun, <- app_assoc, take_drop. reflexivity.
        -- rewrite length_drop. rewrite to_size_t_small by lia. lia.
        -- rewrite to_size_t_small by lia. lia.
      * destruct (io.transient errno); [|discriminate].
        apply (IH off sent left Hleft Hmax Hrun).
    + injection Hrun as _ <-. destruct off; [|simpl in Hleft; lia].
      rewrite app_nil_r. reflexivity.
Qed.

(** The header object under LP64; with a 4-byte [size_t] (ILP32) the same
    struct has 8 bytes. Neither has 12. *)
Lemma sizeof_hdr_is_16 :
  packet.sizeof_hdr = 16 /\ packet.offsetof_ueid = 0
  /\ packet.offsetof_size = 8
  /\ packet.sizeof_struct [(4, 4); (4, 4)] = 8.
Proof. repeat split. Qed.

(** What [send_packet] hands the descriptor when it returns: the 16 bytes
    of the header object (the id in bytes 0-3, the size in bytes 8-15) and
    then the [capacity] bytes of the content. *)
Lemma send_packet_sends {E : Type} `{is_event E} (L : libc) (ev : E)
      (answers : list io.answer) (sent sent' : list byte)
      (m : shared_array_buffer.meta) :
  content ev = Returns tt m ->
  stream.is_object m ->
  packet.send_packet L ev answers sent = Some (Returns tt sent') ->
  sent' = sent ++ packet.hdr_bytes L (unique_event_id (E := E))
                                   (shared_array_buffer.capacity m)
               ++ shared_array_buffer.mem m
  /\ Z.of_nat (length sent')
     = Z.of_nat (length sent) + 16 + shared_array_buffer.capacity m.
Proof.
  intros Hcontent (Hp & Hfit & Hlen & Hmax) Hsend. simpl in *.
  unfold packet.send_packet in Hsend. rewrite Hcontent in Hsend.
  simpl in Hsend.
  set (hdr := packet.hdr_bytes L _ _) in *.
  assert (Hhdr : length hdr = 16%nat).
  { subst hdr. unfold packet.hdr_bytes.
    rewrite !length_blit; rewrite ?length_blit, ?length_fresh,
      ?length_encode_le; vm_compute; try reflexivity; discriminate. }
  destruct (io.writefd answers hdr packet.sizeof_hdr sent)
    as [[rest sent1| |]|] eqn:Hw1; try discriminate.
  apply writefd_sends in Hw1;
    [|rewrite Hhdr; reflexivity|vm_compute; discriminate].
  destruct (stream.accessible (shared_array_buffer.mem m) 0
                              (shared_array_buffer.capacity m));
    [|discriminate].
  rewrite <- Hlen, Nat2Z.id, firstn_all, Hlen in Hsend.
  destruct (io.writefd rest (shared_array_buffer.mem m)
                       (shared_array_buffer.capacity m) sent1)
    as [[rest2 sent2| |]|] eqn:Hw2; try discriminate.
  injection Hsend as <-.
  apply writefd_sends in Hw2; [|lia|].
  - subst sent2 sent1. rewrite <- app_assoc. split; [reflexivity|].
    rewrite !length_app, Hhdr. lia.
  - unfold Mach.PTRDIFF_MAX, Mach.SIZE_MAX, Mach.size_modulus in *. lia.
Qed.

(** C2, on the code. For the event of the spec's scenario (payload of 35
    bytes) and a descriptor that takes everything: [send_packet] writes 51
    bytes, 16 and not 12 more than the payload; the id is in bytes 0-3,
    bytes 4-7 are padding (whatever the storage held), and the size is in
    bytes 8-15, not at offset 4; the payload starts at byte 16. *)
Theorem send_packet_header_is_16_bytes :
  exists e m wire,
    sample.boom = Returns e tt
    /\ content e = Returns tt m
    /\ shared_array_buffer.capacity m = 35
    /\ packet.send_packet (arena 4096) e
         (sample.at_once (shared_array_buffer.mem m)) []
       = Some (Returns tt wire)
    /\ length wire = 51%nat
    /\ Mach.slice wire 0 4 = Mach.encode_le 4 1
    /\ Mach.slice wire 4 4 = [xaa; xaa; xaa; xaa]
    /\ Mach.slice wire 8 8 = Mach.encode_le 8 35
    /\ Mach.slice wire 4 8 <> Mach.encode_le 8 35
    /\ drop 16 wire = shared_array_buffer.mem m
    /\ drop 12 wire <> shared_array_buffer.mem m.
Proof.
  do 3 eexists.
  split; [vm_compute; reflexivity|].
  split; [vm_compute; reflexivity|].
  split; [vm_compute; reflexivity|].
  split; [vm_compute; reflexivity|].
  repeat split; vm_compute; try reflexivity; discriminate.
Qed.

Lemma construct_result (L : libc) (cap meta_ : Z)
      (m : shared_array_buffer.meta) (a a' : heap_allocator.t) :
  shared_array_buffer.construct L cap a = Returns (meta_, m) a' ->
  shared_array_buffer.capacity m = cap
  /\ shared_array_buffer.mem m = fresh L cap.
Proof.
  unfold shared_array_buffer.construct, heap_allocator.allocate.
  destruct (malloc L (heap_allocator.calls a)
                   shared_array_buffer.sizeof_meta =? 0);
    [discriminate|].
  cbn [bind heap_allocator.calls heap_allocator.ptrs_].
  match goal with
  | |- context [if ?c then _ else _] => destruct c; [discriminate|]
  end.
  cbn [bind]. intros Heq. injection Heq as _ <- _. split; reflexivity.
Qed.

(** [append<T>] on a stream that does not grow its buffer: the capacity
    stays, and the bytes are untouched or overwritten by [t] at the
    position. *)
Lemma append_plain_fixed (L : libc) (t : list byte)
      (s s' : stream.buffer_stream shared_array_buffer.meta) (ok : bool) :
  stream.auto_expand s = false ->
  stream.append_plain L t s = Returns ok s' ->
  shared_array_buffer.capacity (stream.buffer_ s')
  = shared_array_buffer.capacity (stream.buffer_ s)
  /\ (shared_array_buffer.mem (stream.buffer_ s')
      = shared_array_buffer.mem (stream.buffer_ s)
      \/ exists off,
           shared_array_buffer.mem (stream.buffer_ s')
           = Mach.blit (shared_array_buffer.mem (stream.buffer_ s)) off
                       (take (length t) t)).
Proof.
  intros Hfix. unfold stream.append_plain, stream.grow. rewrite Hfix.
  cbn [andb bind]. set (curr := Mach.to_size_t _).
  destruct (mark_eof_at_fields curr s) as (Hb & _ & _).
  set (s2 := stream.set_position curr (stream.mark_eof_at curr s)).
  assert (Hb2 : stream.buffer_ s2 = stream.buffer_ s)
    by (subst s2; simpl; exact Hb).
  unfold stream.write.
  destruct (_ >? _).
  - cbn [bind]. intros Heq. injection Heq as _ <-. subst s2. simpl.
    rewrite !Hb. split; [reflexivity|left; reflexivity].
  - destruct (_ && _); [|discriminate]. cbn [bind].
    intros Heq. injection Heq as _ <-. subst s2. simpl. rewrite !Hb.
    split; [reflexivity|]. right. eexists. rewrite Nat2Z.id. reflexivity.
Qed.

(** Whatever the C library does: the buffer [recv_packet]'s [try] block
    returns has the capacity read from bytes 4-11 of the data drained, and
    no byte of the data drained was copied into it: its bytes are fresh
    memory, apart from the 8 bytes of a pointer written over some of
    them. *)
Lemma parse_result (L : libc) (buffer : unique_array_buffer.t) (evid : Z)
      (b : shared_array_buffer.meta) :
  stream.is_object buffer -> 12 <= unique_array_buffer.capacity_ buffer ->
  packet.parse L buffer = Returns (evid, b) tt ->
  let size :=
    Mach.to_size_t
      (Mach.to_int64
         (Mach.decode_le (Mach.slice (unique_array_buffer.mem_ buffer) 4 8)))
  in
  evid = Mach.to_int
           (Mach.decode_le (Mach.slice (unique_array_buffer.mem_ buffer) 0 4))
  /\ shared_array_buffer.capacity b = size
  /\ (shared_array_buffer.mem b = fresh L size
      \/ exists off p,
           shared_array_buffer.mem b
           = Mach.blit (fresh L size) off (Mach.encode_le 8 p)).
Proof.
  intros Hobj Hcap Hparse size. unfold packet.parse in Hparse.
  unfold Mach.sizeof_int, Mach.sizeof_int64_t in Hparse.
  destruct (get_as_plain_inside 4 (stream.open buffer))
    as (s1 & Hg1 & Hb1 & Hp1); [exact Hobj|simpl; lia|lia|simpl; lia|].
  rewrite Hg1 in Hparse.
  destruct (get_as_plain_inside 8 s1)
    as (s2 & Hg2 & Hb2 & Hp2);
    [rewrite Hb1; exact Hobj|rewrite Hp1; simpl; lia|lia
    |rewrite Hp1, Hb1; simpl; lia|].
  rewrite Hg2 in Hparse. rewrite Hb1, Hp1 in Hparse.
  cbn [stream.open stream.buffer_ stream.position_ contents
       unique_is_buffer] in Hparse.
  change (0 + 4) with 4 in Hparse. fold size in Hparse.
  destruct (shared_array_buffer.construct L size heap_allocator.new)
    as [[meta_ recv_buf] a'| |] eqn:Hnew; try discriminate.
  destruct (construct_result _ _ _ _ _ _ Hnew) as (Hc & Hm).
  destruct (stream.append_plain L _ (stream.open recv_buf))
    as [ok recv_stream| |] eqn:Happ; try discriminate.
  destruct (append_plain_fixed L _ (stream.open recv_buf) recv_stream ok
              (eq_refl false) Happ) as (Hc' & Hm').
  injection Hparse as <- <-. cbn [stream.open stream.buffer_] in *.
  split; [reflexivity|]. split; [congruence|].
  destruct Hm' as [Hm'|(off & Hm')]; rewrite Hm', Hm.
  - left. reflexivity.
  - right. exists off. eexists.
    rewrite length_encode_le, firstn_all2
      by (rewrite length_encode_le; lia).
    reflexivity.
Qed.

(** With a C library that does not fail, the [try] block returns. *)
Lemma parse_returns (L : libc) (buffer : unique_array_buffer.t) :
  never_fails L ->
  stream.is_object buffer -> 12 <= unique_array_buffer.capacity_ buffer ->
  Mach.to_size_t
    (Mach.to_int64
       (Mach.decode_le (Mach.slice (unique_array_buffer.mem_ buffer) 4 8)))
  <= Mach.PTRDIFF_MAX ->
  exists evid b, packet.parse L buffer = Returns (evid, b) tt.
Proof.
  intros HL Hobj Hcap Hsize. unfold packet.parse.
  unfold Mach.sizeof_int, Mach.sizeof_int64_t.
  destruct (get_as_plain_inside 4 (stream.open buffer))
    as (s1 & -> & Hb1 & Hp1); [exact Hobj|simpl; lia|lia|simpl; lia|].
  destruct (get_as_plain_inside 8 s1)
    as (s2 & -> & Hb2 & Hp2);
    [rewrite Hb1; exact Hobj|rewrite Hp1; simpl; lia|lia
    |rewrite Hp1, Hb1; simpl; lia|].
  rewrite Hb1, Hp1.
  cbn [stream.open stream.buffer_ stream.position_ contents unique_is_buffer].
  change (0 + 4) with 4.
  set (size := Mach.to_size_t _) in *.
  assert (Hsize0 : 0 <= size).
  { subst size. unfold Mach.to_size_t, Mach.size_modulus.
    apply Z.mod_pos_bound. lia. }
  destruct (construct_holds L size heap_allocator.new HL)
    as (meta_ & m & a' & -> & Hh0 & Hc0 & Hr0); [lia|].
  unfold stream.append_plain, stream.grow.
  cbn [stream.open stream.auto_expand stream.position_ andb bind].
  rewrite !length_encode_le. change (0 + Z.of_nat 8) with 8.
  change (Z.of_nat 8) with 8.
  change (Mach.to_size_t 8) with 8. change (Mach.to_size_t (8 - 8)) with 0.
  set (s3 := stream.set_position 8 _).
  destruct (mark_eof_at_fields 8 (stream.open m)) as (Hb & _ & _).
  assert (Hb3 : stream.buffer_ s3 = m) by (subst s3; simpl; exact Hb).
  destruct (Z_le_gt_dec 8 size) as [Hge|Hlt].
  - pose proof (write_inside s3 (Mach.encode_le 8 (stream.reference s2 12 size))
                             0) as Hw.
    rewrite length_encode_le in Hw. change (Z.of_nat 8) with 8 in Hw.
    rewrite Hw; [|rewrite Hb3; apply (holds_object _ _ Hh0)|lia
                 |rewrite Hb3, Hc0; lia].
    cbn [bind]. do 2 eexists. reflexivity.
  - unfold stream.write. rewrite Hb3. cbn [capacity shared_is_buffer].
    rewrite Hc0. change (Mach.to_size_t (0 + 8)) with 8.
    destruct (Z.gtb_spec 8 size); [|lia].
    cbn [bind]. do 2 eexists. reflexivity.
Qed.

(** C3, on the code. The event of the spec's scenario, 35 bytes of
    content, sent over a connected pair.
    - The receiver reads bytes 4-11, the padding and the low half of the
      size, as the length: 153187166890. A C library that refuses such a
      request makes [recv_packet] throw; one that grants it makes it return
      a buffer of that capacity, not of 35 bytes.
    - From a packet framed in 12 bytes, [recv_packet] returns the id and a
      buffer of 35 bytes that holds the 8 bytes of the address
      [pointer + 12] (4108) and then fresh memory: not one byte of the
      content. *)
Theorem recv_packet_loses_payload :
  exists e m wire,
    sample.boom = Returns e tt
    /\ content e = Returns tt m
    /\ packet.send_packet (arena 4096) e
         (sample.at_once (shared_array_buffer.mem m)) []
       = Some (Returns tt wire)
    /\ packet.recv_packet (frugal 4096) (io.connected wire)
       = Some (Throws packet.rethrown tt)
    /\ (exists evid b,
          packet.recv_packet (arena 4096) (io.connected wire)
          = Some (Returns (evid, b) tt)
          /\ evid = 1
          /\ shared_array_buffer.capacity b = 153187166890)
    /\ exists b,
         packet.recv_packet (arena 4096)
           (io.connected (sample.framed12 1 (shared_array_buffer.mem m)))
         = Some (Returns (1, b) tt)
         /\ shared_array_buffer.capacity b = 35
         /\ shared_array_buffer.mem b
            = Mach.encode_le 8 4108 ++ replicate 27 xaa
         /\ shared_array_buffer.mem b <> shared_array_buffer.mem m.
Proof.
  do 3 eexists.
  split; [vm_compute; reflexivity|].
  split; [vm_compute; reflexivity|].
  split; [vm_compute; reflexivity|].
  split; [vm_compute; reflexivity|].
  split.
  - match goal with
    | |- exists evid b, packet.recv_packet ?L ?answers = _ /\ _ =>
        assert (Hread : exists buffer,
                   io.nonblocking_read L answers = Some (Returns buffer tt)
                   /\ stream.is_object buffer
                   /\ unique_array_buffer.capacity_ buffer = 1024
                   /\ Mach.decode_le
                        (Mach.slice (unique_array_buffer.mem_ buffer) 0 4) = 1
                   /\ Mach.decode_le
                        (Mach.slice (unique_array_buffer.mem_ buffer) 4 8)
                      = 153187166890)
    end.
    { eexists. split; [vm_compute; reflexivity|].
      split; [|split; [reflexivity|split; vm_compute; reflexivity]].
      unfold stream.is_object. simpl.
      unfold Mach.SIZE_MAX, Mach.PTRDIFF_MAX, Mach.size_modulus. lia. }
    destruct Hread as (buffer & Hread & Hobj & Hcap & Hid & Hlen).
    destruct (parse_returns (arena 4096) buffer) as (evid & b & Hparse).
    + apply arena_never_fails. lia.
    + exact Hobj.
    + lia.
    + rewrite Hlen. vm_compute. discriminate.
    + exists evid, b. unfold packet.recv_packet. rewrite Hread.
      split; [f_equal; exact Hparse|].
      destruct (parse_result _ _ _ _ Hobj ltac:(lia) Hparse)
        as (Hevid & Hsize & _).
      rewrite Hid in Hevid. rewrite Hlen in Hsize.
      split; [exact Hevid|exact Hsize].
  - eexists. split; [vm_compute; reflexivity|].
    split; [reflexivity|].
    split; [vm_compute; reflexivity|].
    vm_compute. discriminate.
Qed.

(** * More of the code

    ** The allocators: [reallocate], [release] and the destructors *)

Lemma scan_first (p r : Z) (l1 l2 : list Z) :
  p ∉ l1 ->
  heap_allocator.scan p r (l1 ++ p :: l2) = Some (l1 ++ r :: l2).
Proof.
  induction l1 as [|q l1 IH]; intros Hp; simpl.
  - rewrite Z.eqb_refl. reflexivity.
  - apply not_elem_of_cons in Hp as [Hne Hl].
    destruct (Z.eqb_spec q p) as [E|_]; [congruence|].
    rewrite (IH Hl). reflexivity.
Qed.

(** X1. [heap_allocator::reallocate] on a recorded pointer, [realloc]
    succeeding: it returns what [realloc] answered, after one call of
    [realloc] on that pointer, and the registry holds the answer in the
    place of the first record of the pointer; every other record is as it
    was. *)
Theorem heap_reallocate_recorded (L : libc) (ptr size : Z)
        (a : heap_allocator.t) (l1 l2 : list Z) :
  heap_allocator.ptrs_ a = l1 ++ ptr :: l2 -> ptr ∉ l1 ->
  realloc L (heap_allocator.calls a) ptr size <> 0 ->
  heap_allocator.reallocate L ptr size a
  = Returns (realloc L (heap_allocator.calls a) ptr size)
      {| heap_allocator.ptrs_ :=
           l1 ++ realloc L (heap_allocator.calls a) ptr size :: l2;
         heap_allocator.calls :=
           heap_allocator.calls a
             ++ [Realloc ptr size
                         (realloc L (heap_allocator.calls a) ptr size)] |}.
Proof.
  intros Hrec Hfirst Hr. unfold heap_allocator.reallocate.
  rewrite Hrec, (scan_first _ _ _ _ Hfirst).
  destruct (Z.eqb_spec (realloc L (heap_allocator.calls a) ptr size) 0)
    as [E|_]; [contradiction|reflexivity].
Qed.

Example heap_reallocate_recorded_witness :
  heap_allocator.reallocate (arena 4096) 4112 40
    {| heap_allocator.ptrs_ := [4096; 4112];
       heap_allocator.calls := [Malloc 8 4096; Malloc 8 4112] |}
  = Returns 4128
      {| heap_allocator.ptrs_ := [4096; 4128];
         heap_allocator.calls :=
           [Malloc 8 4096; Malloc 8 4112; Realloc 4112 40 4128] |}.
Proof.
  apply (heap_reallocate_recorded (arena 4096) 4112 40
           {| heap_allocator.ptrs_ := [4096; 4112];
              heap_allocator.calls := [Malloc 8 4096; Malloc 8 4112] |}
           [4096] []).
  - reflexivity.
  - intros Hin. apply list_elem_of_In in Hin. simpl in Hin.
    destruct Hin as [Hin|[]]; discriminate Hin.
  - vm_compute. discriminate.
Defined.

(** X2. [heap_allocator::reallocate] on a recorded pointer, [realloc]
    failing: the null pointer has been stored over the record before the
    exception is thrown. The block, which a failed [realloc] leaves
    allocated, is no longer in the registry, and [release()] afterwards
    calls [free] on the null pointer in its place. *)
Theorem heap_reallocate_failure_forgets_block (L : libc) (ptr size : Z)
        (a : heap_allocator.t) (l1 l2 : list Z) :
  heap_allocator.ptrs_ a = l1 ++ ptr :: l2 -> ptr ∉ l1 ->
  realloc L (heap_allocator.calls a) ptr size = 0 ->
  exists a',
    heap_allocator.reallocate L ptr size a
    = Throws (memory_exception "heap_allocator::reallocate()"
                               "realloc() returned nullptr") a'
    /\ heap_allocator.ptrs_ a' = l1 ++ 0 :: l2
    /\ heap_allocator.calls (heap_allocator.release a')
       = heap_allocator.calls a
           ++ Realloc ptr size 0 :: map Free l1 ++ Free 0 :: map Free l2.
Proof.
  intros Hrec Hfirst Hr. unfold heap_allocator.reallocate.
  rewrite Hrec, (scan_first _ _ _ _ Hfirst), Hr. simpl.
  eexists. split; [reflexivity|]. split; [reflexivity|].
  simpl. rewrite map_app, <- app_assoc. reflexivity.
Qed.

Example heap_reallocate_failure_forgets_block_witness :
  exists a',
    heap_allocator.reallocate (frugal 4096) 4112 (2 ^ 32 + 1)
      {| heap_allocator.ptrs_ := [4096; 4112];
         heap_allocator.calls := [Malloc 8 4096; Malloc 8 4112] |}
    = Throws (memory_exception "heap_allocator::reallocate()"
                               "realloc() returned nullptr") a'
    /\ heap_allocator.ptrs_ a' = [4096; 0]
    /\ heap_allocator.calls (heap_allocator.release a')
       = [Malloc 8 4096; Malloc 8 4112; Realloc 4112 (2 ^ 32 + 1) 0;
          Free 4096; Free 0].
Proof.
  apply (heap_reallocate_failure_forgets_block (frugal 4096) 4112 (2 ^ 32 + 1)
           {| heap_allocator.ptrs_ := [4096; 4112];
              heap_allocator.calls := [Malloc 8 4096; Malloc 8 4112] |}
           [4096] []).
  - reflexivity.
  - intros Hin. apply list_elem_of_In in Hin. simpl in Hin.
    destruct Hin as [Hin|[]]; discriminate Hin.
  - reflexivity.
Defined.

Lemma aligned_rem_int (x align : Z) :
  0 < align <= Mach.INT_MAX ->
  Mach.to_size_t align = align
  /\ aligned_heap_allocator.rem x align = Some (x mod align).
Proof.
  intros Halign.
  assert (Hd : Mach.to_size_t align = align).
  { unfold Mach.to_size_t, Mach.size_modulus. apply Z.mod_small.
    unfold Mach.INT_MAX in Halign. lia. }
  split; [exact Hd|]. unfold aligned_heap_allocator.rem. rewrite Hd.
  destruct (Z.eqb_spec align 0) as [E|_]; [lia|reflexivity].
Qed.

(** What [allocate] does with the answer [p] of [malloc]. *)
Lemma aligned_allocate_from (L : libc) (size : Z)
      (a : aligned_heap_allocator.t) :
  let align := aligned_heap_allocator.align_ a in
  let request := Mach.to_size_t (size + align) in
  let p := malloc L (aligned_heap_allocator.calls a) request in
  0 < align <= Mach.INT_MAX -> 0 < p -> p + align <= Mach.SIZE_MAX ->
  aligned_heap_allocator.allocate L size a
  = Returns (p + p mod align)
      {| aligned_heap_allocator.ptrs_ :=
           aligned_heap_allocator.ptrs_ a
             ++ [{| aligned_heap_allocator.ptr := p + p mod align;
                    aligned_heap_allocator.offset := p mod align |}];
         aligned_heap_allocator.align_ := align;
         aligned_heap_allocator.calls :=
           aligned_heap_allocator.calls a ++ [Malloc request p] |}.
Proof.
  intros align request p Halign Hp Hfit.
  destruct (aligned_rem_int p align Halign) as [Hd Hrem].
  unfold aligned_heap_allocator.allocate. fold align. rewrite Hd.
  fold request. fold p. rewrite Hrem.
  destruct (Z.eqb_spec p 0) as [E|_]; [lia|].
  assert (Hq : Mach.to_size_t (p + p mod align) = p + p mod align).
  { unfold Mach.to_size_t. apply Z.mod_small.
    pose proof (Z.mod_pos_bound p align ltac:(lia)).
    unfold Mach.SIZE_MAX in Hfit. lia. }
  rewrite Hq. reflexivity.
Qed.

(** X3. [aligned_heap_allocator::allocate] on an empty registry, with [p]
    the address [malloc] answered: the pointer returned is [p + p % align].
    Its remainder modulo the boundary is that of [2 * p], so it is aligned
    exactly when [2 * p] is a multiple of the boundary. [release()] then
    calls [free] on the pointer handed out, which is the pointer [malloc]
    answered only if that was a multiple of the boundary already. *)
Theorem aligned_allocate_then_release (L : libc) (size : Z)
        (a : aligned_heap_allocator.t) :
  let align := aligned_heap_allocator.align_ a in
  let request := Mach.to_size_t (size + align) in
  let p := malloc L (aligned_heap_allocator.calls a) request in
  aligned_heap_allocator.ptrs_ a = [] ->
  0 < align <= Mach.INT_MAX -> 0 < p -> p + align <= Mach.SIZE_MAX ->
  exists q a',
    aligned_heap_allocator.allocate L size a = Returns q a'
    /\ q = p + p mod align
    /\ q mod align = (2 * p) mod align
    /\ aligned_heap_allocator.calls (aligned_heap_allocator.release a')
       = aligned_heap_allocator.calls a ++ [Malloc request p; Free q]
    /\ (q = p <-> p mod align = 0).
Proof.
  intros align request p Hempty Halign Hp Hfit.
  exists (p + p mod align). eexists.
  split; [apply (aligned_allocate_from L size a Halign Hp Hfit)|].
  split; [reflexivity|]. split; [|split].
  - rewrite Zplus_mod_idemp_r. f_equal. lia.
  - simpl. rewrite Hempty. simpl. rewrite <- app_assoc. reflexivity.
  - lia.
Qed.

Example aligned_allocate_then_release_witness :
  exists q a',
    aligned_heap_allocator.allocate (arena 4112) 84
      (aligned_heap_allocator.new 64) = Returns q a'
    /\ q = 4112 + 4112 mod 64
    /\ q mod 64 = (2 * 4112) mod 64
    /\ aligned_heap_allocator.calls (aligned_heap_allocator.release a')
       = [] ++ [Malloc 148 4112; Free q]
    /\ (q = 4112 <-> 4112 mod 64 = 0).
Proof.
  apply (aligned_allocate_then_release (arena 4112) 84
           (aligned_heap_allocator.new 64)).
  - reflexivity.
  - unfold Mach.INT_MAX. simpl. lia.
  - vm_compute. reflexivity.
  - vm_compute. discriminate.
Defined.

(** [aligned_heap_allocator::reallocate] of the pointer [q] that
    [allocate] handed out on an empty registry: [realloc] is called on
    [q - offset], which is the pointer [malloc] answered, for
    [size + align] bytes; its answer [base] is adjusted as in [allocate],
    and the one record is replaced. *)
Lemma aligned_reallocate_uses_base (L : libc) (size size' : Z)
        (a : aligned_heap_allocator.t) :
  let align := aligned_heap_allocator.align_ a in
  let request := Mach.to_size_t (size + align) in
  let request' := Mach.to_size_t (size' + align) in
  let p := malloc L (aligned_heap_allocator.calls a) request in
  let base :=
    realloc L (aligned_heap_allocator.calls a ++ [Malloc request p])
            p request' in
  aligned_heap_allocator.ptrs_ a = [] ->
  0 < align <= Mach.INT_MAX -> 0 < p -> p + align <= Mach.SIZE_MAX ->
  0 < base -> base + align <= Mach.SIZE_MAX ->
  exists q a',
    aligned_heap_allocator.allocate L size a = Returns q a'
    /\ aligned_heap_allocator.reallocate L q size' a'
       = Returns (base + base mod align)
           {| aligned_heap_allocator.ptrs_ :=
                [{| aligned_heap_allocator.ptr := base + base mod align;
                    aligned_heap_allocator.offset := base mod align |}];
              aligned_heap_allocator.align_ := align;
              aligned_heap_allocator.calls :=
                aligned_heap_allocator.calls a
                  ++ [Malloc request p; Realloc p request' base] |}.
Proof.
  intros align request request' p base Hempty Halign Hp Hfit Hb Hbfit.
  exists (p + p mod align). eexists.
  split; [apply (aligned_allocate_from L size a Halign Hp Hfit)|].
  destruct (aligned_rem_int base align Halign) as [Hd Hrem].
  unfold aligned_heap_allocator.reallocate. rewrite Hempty. simpl.
  rewrite Z.eqb_refl. simpl. fold align. rewrite Hd.
  fold request. fold p. fold request'.
  assert (Hold : Mach.to_size_t (p + p mod align - p mod align) = p).
  { unfold Mach.to_size_t. replace (p + p mod align - p mod align) with p
      by lia. apply Z.mod_small.
    unfold Mach.SIZE_MAX in Hfit. lia. }
  rewrite Hold. fold base. rewrite Hrem.
  destruct (Z.eqb_spec base 0) as [E|_]; [lia|].
  assert (Hq : Mach.to_size_t (base + base mod align) = base + base mod align).
  { unfold Mach.to_size_t. apply Z.mod_small.
    pose proof (Z.mod_pos_bound base align ltac:(lia)).
    unfold Mach.SIZE_MAX in Hbfit. lia. }
  rewrite Hq, <- app_assoc. reflexivity.
Qed.

(** ** [unique_array_buffer]: its life, moves and [expand] *)

(** X4. A [unique_array_buffer] built on an allocator, [malloc]
    succeeding: it owns [capacity] zero bytes at the address [malloc]
    answered; its destructor frees what the allocator records, each block
    once, the buffer's own last; and a destructor that follows a manual
    [release()] makes the same calls: no block is freed twice. *)
Theorem unique_buffer_frees_once (L : libc) (cap : Z) (a : heap_allocator.t) :
  let p := malloc L (heap_allocator.calls a) cap in
  p <> 0 ->
  exists b a1,
    unique_array_buffer.construct L cap a = Returns b a1
    /\ unique_array_buffer.ptr_ b = p
    /\ unique_array_buffer.capacity_ b = cap
    /\ unique_array_buffer.mem_ b = replicate (Z.to_nat cap) x00
    /\ heap_allocator.calls
         (unique_array_buffer.allocator_ (unique_array_buffer.destructor b))
       = heap_allocator.calls a
           ++ Malloc cap p :: map Free (heap_allocator.ptrs_ a) ++ [Free p]
    /\ heap_allocator.calls
         (unique_array_buffer.allocator_
            (unique_array_buffer.destructor (unique_array_buffer.release b)))
       = heap_allocator.calls a
           ++ Malloc cap p :: map Free (heap_allocator.ptrs_ a) ++ [Free p].
Proof.
  intros p Hp. unfold unique_array_buffer.construct, heap_allocator.allocate.
  fold p. destruct (Z.eqb_spec p 0) as [E|_]; [contradiction|]. simpl.
  do 2 eexists. split; [reflexivity|]. simpl.
  split; [reflexivity|]. split; [reflexivity|]. split; [reflexivity|].
  unfold unique_array_buffer.destructor, unique_array_buffer.release. simpl.
  destruct (Z.eqb_spec p 0) as [E|_]; [contradiction|]. simpl.
  destruct (Z.eqb_spec p 0) as [E|_]; [contradiction|]. simpl.
  rewrite map_app, <- !app_assoc, app_nil_r. simpl. split; reflexivity.
Qed.

Example unique_buffer_frees_once_witness :
  exists b a1,
    unique_array_buffer.construct (arena 4096) 6 heap_allocator.new
    = Returns b a1
    /\ unique_array_buffer.ptr_ b = 4096
    /\ unique_array_buffer.capacity_ b = 6
    /\ unique_array_buffer.mem_ b = replicate (Z.to_nat 6) x00
    /\ heap_allocator.calls
         (unique_array_buffer.allocator_ (unique_array_buffer.destructor b))
       = [] ++ Malloc 6 4096 :: map Free [] ++ [Free 4096]
    /\ heap_allocator.calls
         (unique_array_buffer.allocator_
            (unique_array_buffer.destructor (unique_array_buffer.release b)))
       = [] ++ Malloc 6 4096 :: map Free [] ++ [Free 4096].
Proof.
  apply (unique_buffer_frees_once (arena 4096) 6 heap_allocator.new).
  vm_compute. discriminate.
Defined.

(** The move constructor of [unique_array_buffer]: the new object has
    the pointer, the capacity and the bytes; the source is left with a null
    pointer and capacity 0, and its destructor calls nothing; the
    destructor of the new object frees what the allocator recorded. *)
Lemma unique_move_transfers (b : unique_array_buffer.t) :
  let target := (unique_array_buffer.move_construct b).1 in
  let source := (unique_array_buffer.move_construct b).2 in
  unique_array_buffer.ptr_ target = unique_array_buffer.ptr_ b
  /\ unique_array_buffer.capacity_ target = unique_array_buffer.capacity_ b
  /\ unique_array_buffer.mem_ target = unique_array_buffer.mem_ b
  /\ unique_array_buffer.ptr_ source = 0
  /\ unique_array_buffer.capacity_ source = 0
  /\ unique_array_buffer.destructor source = source
  /\ heap_allocator.calls
       (unique_array_buffer.allocator_ (unique_array_buffer.destructor target))
     = heap_allocator.calls (unique_array_buffer.allocator_ b)
         ++ map Free (heap_allocator.ptrs_ (unique_array_buffer.allocator_ b)).
Proof.
  simpl. do 5 (split; [reflexivity|]). split; [reflexivity|].
  unfold unique_array_buffer.destructor, unique_array_buffer.release. simpl.
  destruct (unique_array_buffer.ptr_ b =? 0); simpl.
  - unfold heap_allocator.destroy. simpl.
    destruct (heap_allocator.ptrs_ (unique_array_buffer.allocator_ b));
      simpl; [symmetry; apply app_nil_r|reflexivity].
  - reflexivity.
Qed.

(** X5. [expand] on a [unique_array_buffer] after [release()], and on one
    that was moved from: the allocator's registry is empty, so [reallocate]
    returns the null pointer without a call of [realloc], and [expand]
    returns normally with a null pointer and the capacity asked for. *)
Theorem unique_expand_after_release (L : libc) (n : Z)
        (b : unique_array_buffer.t) :
  unique_array_buffer.ptr_ b <> 0 ->
  unique_array_buffer.expand L n (unique_array_buffer.release b)
  = Returns tt
      {| unique_array_buffer.allocator_ :=
           heap_allocator.release (unique_array_buffer.allocator_ b);
         unique_array_buffer.ptr_ := 0;
         unique_array_buffer.capacity_ := n;
         unique_array_buffer.mem_ := [] |}
  /\ unique_array_buffer.expand L n (unique_array_buffer.move_construct b).2
     = Returns tt
         {| unique_array_buffer.allocator_ :=
              (heap_allocator.move_construct
                 (unique_array_buffer.allocator_ b)).2;
            unique_array_buffer.ptr_ := 0;
            unique_array_buffer.capacity_ := n;
            unique_array_buffer.mem_ := [] |}.
Proof.
  intros Hp. unfold unique_array_buffer.release.
  destruct (Z.eqb_spec (unique_array_buffer.ptr_ b) 0) as [E|_];
    [contradiction|].
  split; reflexivity.
Qed.

Example unique_expand_after_release_witness :
  unique_array_buffer.expand (arena 4096) 64
    (unique_array_buffer.release sample.text)
  = Returns tt
      {| unique_array_buffer.allocator_ :=
           heap_allocator.release
             (unique_array_buffer.allocator_ sample.text);
         unique_array_buffer.ptr_ := 0;
         unique_array_buffer.capacity_ := 64;
         unique_array_buffer.mem_ := [] |}
  /\ unique_array_buffer.expand (arena 4096) 64
       (unique_array_buffer.move_construct sample.text).2
     = Returns tt
         {| unique_array_buffer.allocator_ :=
              (heap_allocator.move_construct
                 (unique_array_buffer.allocator_ sample.text)).2;
            unique_array_buffer.ptr_ := 0;
            unique_array_buffer.capacity_ := 64;
            unique_array_buffer.mem_ := [] |}.
Proof.
  apply (unique_expand_after_release (arena 4096) 64 sample.text).
  simpl. discriminate.
Defined.

Lemma resized_keeps (L : libc) (mem : list byte) (n : Z) :
  0 <= n ->
  Z.of_nat (length (resized L mem n)) = n
  /\ take (Z.to_nat (Z.min n (Z.of_nat (length mem)))) (resized L mem n)
     = take (Z.to_nat (Z.min n (Z.of_nat (length mem)))) mem.
Proof.
  intros Hn. unfold resized. split.
  - rewrite length_app, length_take, length_map, length_seq. lia.
  - destruct (Z.le_gt_cases n (Z.of_nat (length mem))) as [Hle|Hgt].
    + rewrite Z.min_l by exact Hle.
      replace (Z.to_nat n - length mem)%nat with 0%nat by lia.
      simpl. rewrite app_nil_r. rewrite take_take.
      f_equal. lia.
    + rewrite Z.min_r by lia. rewrite Nat2Z.id.
      rewrite (take_ge mem (Z.to_nat n)) by lia.
      rewrite take_app_length. rewrite firstn_all. reflexivity.
Qed.

(** X6. [expand] on a [unique_array_buffer] whose pointer the allocator
    records, [realloc] succeeding: the buffer has the pointer [realloc]
    answered and the new capacity, the registry holds the new pointer in
    the old one's place, and the bytes up to the smaller of the two
    capacities are the same as before. *)
Theorem unique_expand_keeps_bytes (L : libc) (n : Z)
        (b : unique_array_buffer.t) (l1 l2 : list Z) :
  let r := realloc L (heap_allocator.calls (unique_array_buffer.allocator_ b))
                   (unique_array_buffer.ptr_ b) n in
  let kept := Z.to_nat (Z.min n (unique_array_buffer.capacity_ b)) in
  heap_allocator.ptrs_ (unique_array_buffer.allocator_ b)
  = l1 ++ unique_array_buffer.ptr_ b :: l2 ->
  unique_array_buffer.ptr_ b ∉ l1 ->
  Z.of_nat (length (unique_array_buffer.mem_ b))
  = unique_array_buffer.capacity_ b ->
  0 <= n -> r <> 0 ->
  exists b',
    unique_array_buffer.expand L n b = Returns tt b'
    /\ unique_array_buffer.ptr_ b' = r
    /\ unique_array_buffer.capacity_ b' = n
    /\ Z.of_nat (length (unique_array_buffer.mem_ b')) = n
    /\ take kept (unique_array_buffer.mem_ b')
       = take kept (unique_array_buffer.mem_ b)
    /\ heap_allocator.ptrs_ (unique_array_buffer.allocator_ b')
       = l1 ++ r :: l2.
Proof.
  intros r kept Hrec Hfirst Hlen Hn Hr. unfold unique_array_buffer.expand.
  unfold heap_allocator.reallocate.
  rewrite Hrec, (scan_first _ _ _ _ Hfirst).
  assert (Hrb : (r =? 0) = false) by (apply Z.eqb_neq; exact Hr).
  subst r. rewrite Hrb.
  eexists. split; [reflexivity|]. simpl. rewrite Hrb.
  destruct (resized_keeps L (unique_array_buffer.mem_ b) n Hn) as [Hl Hk].
  split; [reflexivity|]. split; [reflexivity|]. split; [exact Hl|].
  split; [|reflexivity]. subst kept. rewrite <- Hlen. exact Hk.
Qed.

Example unique_expand_keeps_bytes_witness :
  exists b',
    unique_array_buffer.expand (arena 4096) 10 sample.text = Returns tt b'
    /\ unique_array_buffer.ptr_ b' = 4112
    /\ unique_array_buffer.capacity_ b' = 10
    /\ Z.of_nat (length (unique_array_buffer.mem_ b')) = 10
    /\ take 6 (unique_array_buffer.mem_ b')
       = take 6 (unique_array_buffer.mem_ sample.text)
    /\ heap_allocator.ptrs_ (unique_array_buffer.allocator_ b')
       = [] ++ 4112 :: [].
Proof.
  apply (unique_expand_keeps_bytes (arena 4096) 10 sample.text [] []).
  - reflexivity.
  - apply not_elem_of_nil.
  - reflexivity.
  - lia.
  - vm_compute. discriminate.
Defined.



(** ** [buffer_stream]: bounds, the typed getters, and the cursor *)

Section stream_bounds.

Context {B : Type} `{is_buffer B}.

Lemma access_behind_capacity_reference (s : stream.buffer_stream B)
      (offset size : Z) :
  0 <= offset + size ->
  capacity (stream.buffer_ s) < offset + size <= Mach.SIZE_MAX ->
  stream.reference s offset size = 0
  /\ (Mach.to_size_t (offset + size) >? capacity (stream.buffer_ s)) = true.
Proof.
  intros Hsum Hrange.
  assert (Hc : (Mach.to_size_t (offset + size)
                >? capacity (stream.buffer_ s)) = true).
  { rewrite to_size_t_small by lia. apply Z.gtb_lt. lia. }
  unfold stream.reference. rewrite Hc. split; reflexivity.
Qed.

(** Behind the capacity nothing is touched: for a range that ends
    behind the buffer's capacity, [reference] returns the null pointer,
    [read] returns [false] and leaves [dest] as it was, and [write] returns
    [false] and leaves the buffer as it was; the stream is unchanged. *)
Lemma access_behind_capacity (s : stream.buffer_stream B)
        (dest src : list byte) (offset size : Z) :
  0 <= offset -> 0 <= size ->
  capacity (stream.buffer_ s) < offset + size <= Mach.SIZE_MAX ->
  stream.reference s offset size = 0
  /\ stream.read s dest offset size = Returns (false, dest) s
  /\ stream.write s src offset size = Returns false s.
Proof.
  intros Hoffset Hsize Hrange.
  destruct (access_behind_capacity_reference s offset size ltac:(lia) Hrange)
    as [Hr Hc].
  unfold stream.read, stream.write. rewrite Hr, Hc.
  split; [reflexivity|]. split; reflexivity.
Qed.

(** X8. The bounds check adds [offset] and [size] as [size_t]: when the
    sum wraps around, a range that lies wholly outside the buffer passes.
    For [k] bytes at offset [2^64 - k], [reference] returns the address [k]
    bytes before the buffer, and [read] and [write] go on to copy there:
    their behaviour is undefined. *)
Theorem bounds_check_wraps (s : stream.buffer_stream B)
        (dest src : list byte) (k : Z) :
  0 <= capacity (stream.buffer_ s) ->
  0 < k < pointer (stream.buffer_ s) ->
  pointer (stream.buffer_ s) <= Mach.SIZE_MAX ->
  Z.of_nat (length (contents (stream.buffer_ s))) <= Mach.PTRDIFF_MAX ->
  stream.reference s (Mach.size_modulus - k) k = pointer (stream.buffer_ s) - k
  /\ stream.read s dest (Mach.size_modulus - k) k = Undefined
  /\ stream.write s src (Mach.size_modulus - k) k = Undefined.
Proof.
  intros Hcap Hk Hp Hlen.
  assert (Hsum : Mach.to_size_t (Mach.size_modulus - k + k) = 0).
  { unfold Mach.to_size_t. replace (Mach.size_modulus - k + k)
      with Mach.size_modulus by lia. apply Z.mod_same.
    unfold Mach.size_modulus. lia. }
  assert (Hq : Mach.to_size_t
                 (pointer (stream.buffer_ s) + (Mach.size_modulus - k))
               = pointer (stream.buffer_ s) - k).
  { unfold Mach.to_size_t.
    replace (pointer (stream.buffer_ s) + (Mach.size_modulus - k))
      with (pointer (stream.buffer_ s) - k + 1 * Mach.size_modulus) by lia.
    rewrite Z.mod_add by (unfold Mach.size_modulus; lia).
    apply Z.mod_small. unfold Mach.SIZE_MAX in Hp. lia. }
  assert (Hacc : stream.accessible (contents (stream.buffer_ s))
                                   (Mach.size_modulus - k) k = false).
  { unfold stream.accessible.
    destruct (Z.leb_spec (Mach.size_modulus - k + k)
                         (Z.of_nat (length (contents (stream.buffer_ s)))))
      as [Hle|_]; [|apply andb_false_r].
    unfold Mach.size_modulus, Mach.PTRDIFF_MAX in *. lia. }
  unfold stream.read, stream.write, stream.reference.
  rewrite Hsum, Hq, Hacc.
  destruct (Z.gtb_spec 0 (capacity (stream.buffer_ s))) as [Hgt|_]; [lia|].
  destruct (Z.eqb_spec (pointer (stream.buffer_ s) - k) 0) as [E|_]; [lia|].
  repeat split.
Qed.

(** [get<T>()] where [step] bytes remain. *)
Lemma get_plain_inside (step : Z) (s : stream.buffer_stream B) :
  stream.is_object (stream.buffer_ s) ->
  0 <= stream.position_ s -> 0 <= step ->
  stream.position_ s + step <= capacity (stream.buffer_ s) ->
  exists s',
    stream.get_plain step s
    = Returns (Mach.slice (contents (stream.buffer_ s))
                          (stream.position_ s) step) s'
    /\ stream.buffer_ s' = stream.buffer_ s
    /\ stream.position_ s' = stream.position_ s + step.
Proof.
  intros Hobj Hpos Hstep Hin.
  assert (Hfit : stream.position_ s + step <= Mach.SIZE_MAX).
  { destruct Hobj as (_ & _ & _ & Hmax).
    unfold Mach.PTRDIFF_MAX in Hmax.
    unfold Mach.SIZE_MAX, Mach.size_modulus. lia. }
  unfold stream.get_plain.
  rewrite (to_size_t_small (stream.position_ s + step)) by lia.
  replace (stream.position_ s + step - step) with (stream.position_ s) by lia.
  rewrite (to_size_t_small (stream.position_ s)) by lia.
  destruct (mark_eof_at_fields (stream.position_ s + step) s) as (Hb & _ & _).
  rewrite read_inside.
  - simpl. rewrite Hb.
    rewrite drop_ge by (rewrite length_replicate; lia).
    rewrite app_nil_r. eexists. split; [reflexivity|].
    simpl. split; [exact Hb|reflexivity].
  - simpl. rewrite Hb. exact Hobj.
  - exact Hpos.
  - exact Hstep.
  - simpl. rewrite Hb. exact Hin.
  - rewrite length_replicate. lia.
Qed.

(** [get_as<T>()] where fewer than [step] bytes remain. *)
Lemma get_as_plain_behind (step : Z) (s : stream.buffer_stream B) :
  0 <= stream.position_ s -> 0 <= step ->
  capacity (stream.buffer_ s) < stream.position_ s + step <= Mach.SIZE_MAX ->
  stream.get_as_plain step s
  = Throws (memory_exception "buffer_stream::get_as<T>()"
                             "segment fault, invalid pointer access")
           (stream.set_eof true
              (stream.set_position (stream.position_ s + step) s)).
Proof.
  intros Hpos Hstep Hout. unfold stream.get_as_plain.
  rewrite (to_size_t_small (stream.position_ s + step)) by lia.
  replace (stream.position_ s + step - step) with (stream.position_ s) by lia.
  rewrite (to_size_t_small (stream.position_ s)) by lia.
  destruct (mark_eof_at_fields (stream.position_ s + step) s) as (Hb & _ & _).
  unfold stream.reference. simpl. rewrite Hb.
  rewrite (to_size_t_small (stream.position_ s + step)) by lia.
  destruct (Z.gtb_spec (stream.position_ s + step)
                       (capacity (stream.buffer_ s))) as [_|Hle]; [|lia].
  simpl. unfold stream.mark_eof_at.
  destruct (Z.eqb_spec (stream.position_ s + step)
                       (capacity (stream.buffer_ s))) as [E|_]; [lia|].
  reflexivity.
Qed.

(** X9. The typed getters, with [step = sizeof(T)], on a buffer that is
    an object. Where [step] bytes remain, [get<T>()] and [get_as<T>()]
    both return the bytes at the position and advance by [step], setting
    the end-of-stream flag when that lands on the capacity exactly. Where
    fewer remain, both set the flag and move the position by [step] all
    the same, behind the capacity; [get<T>()] then returns a
    value-initialised [T] (all bytes zero) and throws nothing, while
    [get_as<T>()] throws a [memory_exception]. *)
Theorem typed_getters_run (step : Z) (s : stream.buffer_stream B) :
  let cap := capacity (stream.buffer_ s) in
  let pos := stream.position_ s in
  stream.is_object (stream.buffer_ s) ->
  0 <= pos -> 0 <= step -> pos + step <= Mach.SIZE_MAX ->
  stream.get_plain step s
  = (if pos + step <=? cap then
       Returns (Mach.slice (contents (stream.buffer_ s)) pos step)
               (stream.set_position (pos + step)
                  (stream.mark_eof_at (pos + step) s))
     else
       Returns (replicate (Z.to_nat step) x00)
               (stream.set_eof true (stream.set_position (pos + step) s)))
  /\ stream.get_as_plain step s
     = (if pos + step <=? cap then
          Returns (Mach.slice (contents (stream.buffer_ s)) pos step)
                  (stream.set_position (pos + step)
                     (stream.mark_eof_at (pos + step) s))
        else
          Throws (memory_exception "buffer_stream::get_as<T>()"
                                   "segment fault, invalid pointer access")
                 (stream.set_eof true
                    (stream.set_position (pos + step) s))).
Proof.
  intros cap pos Hobj Hpos Hstep Hfit.
  assert (Hcurr : Mach.to_size_t (pos + step) = pos + step).
  { apply to_size_t_small. lia. }
  assert (Hoff : Mach.to_size_t (pos + step - step) = pos).
  { replace (pos + step - step) with pos by lia.
    apply to_size_t_small. lia. }
  destruct (mark_eof_at_fields (pos + step) s) as (Hb & _ & _).
  destruct (Z.leb_spec (pos + step) cap) as [Hin|Hout]; split.
  - unfold stream.get_plain. fold pos. rewrite Hcurr, Hoff.
    rewrite read_inside.
    + simpl. rewrite Hb.
      rewrite drop_ge by (rewrite length_replicate; lia).
      rewrite app_nil_r. reflexivity.
    + simpl. rewrite Hb. exact Hobj.
    + exact Hpos.
    + exact Hstep.
    + simpl. rewrite Hb. exact Hin.
    + rewrite length_replicate. lia.
  - unfold stream.get_as_plain. fold pos. rewrite Hcurr, Hoff.
    destruct (reference_inside
                (stream.set_position (pos + step)
                   (stream.mark_eof_at (pos + step) s)) pos step)
      as (_ & Hne & Hacc).
    + simpl. rewrite Hb. exact Hobj.
    + exact Hpos.
    + exact Hstep.
    + simpl. rewrite Hb. exact Hin.
    + apply Z.eqb_neq in Hne. rewrite Hne.
      cbn [stream.buffer_ stream.set_position] in *.
      rewrite Hb in *. rewrite Hacc. reflexivity.
  - unfold stream.get_plain. fold pos. rewrite Hcurr, Hoff.
    unfold stream.read, stream.reference. simpl. rewrite Hb.
    fold cap. rewrite Hcurr.
    destruct (Z.gtb_spec (pos + step) cap) as [_|Hle]; [|lia].
    simpl. unfold stream.mark_eof_at. fold cap.
    destruct (Z.eqb_spec (pos + step) cap) as [E|_]; [lia|].
    reflexivity.
  - apply get_as_plain_behind; [exact Hpos|exact Hstep|].
    fold cap. fold pos. lia.
Qed.


End stream_bounds.

Example bounds_check_wraps_witness :
  stream.reference (sample.at_position 0) (Mach.size_modulus - 8) 8
  = 4096 - 8
  /\ stream.read (sample.at_position 0) (replicate 8 x00)
                 (Mach.size_modulus - 8) 8 = Undefined
  /\ stream.write (sample.at_position 0) (replicate 8 x01)
                  (Mach.size_modulus - 8) 8 = Undefined.
Proof.
  refine (bounds_check_wraps (sample.at_position 0) (replicate 8 x00)
                             (replicate 8 x01) 8 _ _ _ _).
  - simpl. lia.
  - simpl. lia.
  - unfold Mach.SIZE_MAX, Mach.size_modulus. simpl. lia.
  - unfold Mach.PTRDIFF_MAX. simpl. lia.
Defined.

Example typed_getters_run_witness :
  stream.get_plain 4 (sample.at_position 4)
  = Returns (replicate (Z.to_nat 4) x00)
            (stream.set_eof true
               (stream.set_position (4 + 4) (sample.at_position 4)))
  /\ stream.get_as_plain 4 (sample.at_position 4)
     = Throws (memory_exception "buffer_stream::get_as<T>()"
                                "segment fault, invalid pointer access")
              (stream.set_eof true
                 (stream.set_position (4 + 4) (sample.at_position 4))).
Proof.
  refine (typed_getters_run 4 (sample.at_position 4) _ _ _ _).
  - vm_compute. repeat split; discriminate.
  - simpl. lia.
  - lia.
  - unfold Mach.SIZE_MAX, Mach.size_modulus. simpl. lia.
Defined.


(** ** [buffer_stream]: writing and reading back *)

Lemma slice_blit (mem src : list byte) (off : Z) :
  0 <= off -> off + Z.of_nat (length src) <= Z.of_nat (length mem) ->
  Mach.slice (Mach.blit mem off src) off (Z.of_nat (length src)) = src.
Proof.
  intros Hoff Hfit. unfold Mach.blit. apply slice_middle.
  - rewrite length_take. lia.
  - reflexivity.
Qed.

Lemma blit_outside (mem src : list byte) (off : Z) :
  0 <= off -> off + Z.of_nat (length src) <= Z.of_nat (length mem) ->
  take (Z.to_nat off) (Mach.blit mem off src) = take (Z.to_nat off) mem
  /\ drop (Z.to_nat off + length src) (Mach.blit mem off src)
     = drop (Z.to_nat off + length src) mem.
Proof.
  intros Hoff Hfit. unfold Mach.blit.
  assert (Hl : length (take (Z.to_nat off) mem) = Z.to_nat off)
    by (rewrite length_take; lia).
  split.
  - rewrite take_app_le by lia. rewrite take_ge by lia. reflexivity.
  - rewrite app_assoc. rewrite drop_app_ge
      by (rewrite length_app; lia).
    rewrite length_app, Hl.
    replace (Z.to_nat off + length src - (Z.to_nat off + length src))%nat
      with 0%nat by lia.
    reflexivity.
Qed.

Lemma with_mem_object (m : shared_array_buffer.meta) (bytes : list byte) :
  stream.is_object m ->
  length bytes = length (shared_array_buffer.mem m) ->
  stream.is_object (shared_array_buffer.with_mem bytes m).
Proof.
  intros (Hp & Hfit & Hlen & Hmax) Hb. unfold stream.is_object in *.
  simpl in *. rewrite Hb. auto.
Qed.

(** X11. [write] and then [read] of the same range, inside a shared buffer
    that is an object: [write] returns [true], [read] then returns [true]
    and puts the bytes written at the front of [dest]; the bytes of the
    buffer before and behind the range, its address and its capacity are as
    they were. *)
Theorem write_then_read (s : stream.buffer_stream shared_array_buffer.meta)
        (src dest : list byte) (offset : Z) :
  let size := Z.of_nat (length src) in
  stream.is_object (stream.buffer_ s) ->
  0 <= offset ->
  offset + size <= shared_array_buffer.capacity (stream.buffer_ s) ->
  size <= Z.of_nat (length dest) ->
  exists s',
    stream.write s src offset size = Returns true s'
    /\ stream.read s' dest offset size
       = Returns (true, src ++ drop (length src) dest) s'
    /\ take (Z.to_nat offset) (shared_array_buffer.mem (stream.buffer_ s'))
       = take (Z.to_nat offset) (shared_array_buffer.mem (stream.buffer_ s))
    /\ drop (Z.to_nat offset + length src)
            (shared_array_buffer.mem (stream.buffer_ s'))
       = drop (Z.to_nat offset + length src)
              (shared_array_buffer.mem (stream.buffer_ s))
    /\ shared_array_buffer.ptr (stream.buffer_ s')
       = shared_array_buffer.ptr (stream.buffer_ s)
    /\ shared_array_buffer.capacity (stream.buffer_ s')
       = shared_array_buffer.capacity (stream.buffer_ s).
Proof.
  intros size Hobj Hoff Hfit Hdest. subst size.
  assert (Hlen : Z.of_nat (length (shared_array_buffer.mem (stream.buffer_ s)))
                 = shared_array_buffer.capacity (stream.buffer_ s))
    by (destruct Hobj as (_ & _ & Hl & _); exact Hl).
  eexists. split; [apply (write_inside s src offset Hobj Hoff Hfit)|].
  destruct (blit_outside (shared_array_buffer.mem (stream.buffer_ s)) src
                         offset Hoff ltac:(lia)) as [Hbefore Hbehind].
  split; [|simpl; auto].
  rewrite read_inside.
  - simpl. rewrite slice_blit by lia. rewrite Nat2Z.id. reflexivity.
  - simpl. apply with_mem_object; [exact Hobj|].
    apply length_blit; lia.
  - exact Hoff.
  - lia.
  - simpl. exact Hfit.
  - exact Hdest.
Qed.

Example write_then_read_witness :
  let m := {| shared_array_buffer.ptr := 4240;
              shared_array_buffer.allocator :=
                {| heap_allocator.ptrs_ := [4096; 4240];
                   heap_allocator.calls :=
                     [Malloc 128 4096; Malloc 16 4240] |};
              shared_array_buffer.capacity := 16;
              shared_array_buffer.reference_count := 1;
              shared_array_buffer.mem := fresh (arena 4096) 16 |} in
  exists s',
    stream.write (stream.open m) [x01; x02; x03] 5 3 = Returns true s'
    /\ stream.read s' [x00; x00; x00; x00] 5 3
       = Returns (true, [x01; x02; x03] ++ [x00]) s'
    /\ take 5 (shared_array_buffer.mem (stream.buffer_ s'))
       = take 5 (fresh (arena 4096) 16)
    /\ drop 8 (shared_array_buffer.mem (stream.buffer_ s'))
       = drop 8 (fresh (arena 4096) 16)
    /\ shared_array_buffer.ptr (stream.buffer_ s') = 4240
    /\ shared_array_buffer.capacity (stream.buffer_ s') = 16.
Proof.
  intros m.
  apply (write_then_read (stream.open m) [x01; x02; x03]
                         [x00; x00; x00; x00] 5).
  - vm_compute. repeat split; discriminate.
  - lia.
  - simpl. lia.
  - simpl. lia.
Defined.

Section stream_cursor.

Context {B : Type} `{is_buffer B}.

(** X12. [append<T>] on a stream that does not grow its buffer, with less
    room than [sizeof(T)] left: it returns [false] and the buffer is as it
    was, but the position has been moved by [sizeof(T)], behind the
    capacity, and the end-of-stream flag is set. *)
Theorem append_plain_full (L : libc) (t : list byte)
        (s : stream.buffer_stream B) :
  let pos := stream.position_ s in
  let step := Z.of_nat (length t) in
  stream.auto_expand s = false ->
  0 <= pos ->
  capacity (stream.buffer_ s) < pos + step <= Mach.SIZE_MAX ->
  stream.append_plain L t s
  = Returns false (stream.set_eof true (stream.set_position (pos + step) s)).
Proof.
  intros pos step Hauto Hpos Hfull.
  unfold stream.append_plain, stream.grow. rewrite Hauto. simpl.
  fold pos. fold step.
  assert (Hcurr : Mach.to_size_t (pos + step) = pos + step)
    by (apply to_size_t_small; subst step; lia).
  rewrite Hcurr.
  assert (Hoff : Mach.to_size_t (pos + step - step) = pos).
  { replace (pos + step - step) with pos by lia.
    apply to_size_t_small. lia. }
  rewrite Hoff.
  destruct (mark_eof_at_fields (pos + step) s) as (Hb & _ & _).
  unfold stream.write. simpl. rewrite Hb, Hcurr.
  destruct (Z.gtb_spec (pos + step) (capacity (stream.buffer_ s)))
    as [_|Hle]; [|lia].
  simpl. unfold stream.mark_eof_at.
  destruct (Z.eqb_spec (pos + step) (capacity (stream.buffer_ s)))
    as [E|_]; [lia|].
  reflexivity.
Qed.

(** X13. [rewind()] does not clear the end-of-stream flag. After a
    [get(dest, size)] that reached the end of the buffer, the stream
    rewound is at position 0 and every [get(dest, size)] on it still
    returns -1 and copies nothing; it reads again only after
    [clear_eof()]. *)
Theorem rewind_keeps_eof (s : stream.buffer_stream B) (dest : list byte)
        (size : Z) :
  let cap := capacity (stream.buffer_ s) in
  let pos := stream.position_ s in
  stream.is_object (stream.buffer_ s) ->
  stream.eof_ s = false ->
  0 <= pos <= cap ->
  0 <= size <= Mach.PTRDIFF_MAX ->
  cap <= pos + size ->
  size <= Z.of_nat (length dest) ->
  exists r s1,
    stream.get dest size s = Returns r s1
    /\ stream.position_ (stream.rewind s1) = 0
    /\ stream.eof (stream.rewind s1) = true
    /\ (forall dest' size',
          stream.get dest' size' (stream.rewind s1)
          = Returns (-1, dest') (stream.rewind s1))
    /\ stream.eof (stream.clear_eof (stream.rewind s1)) = false.
Proof.
  intros cap pos Hobj Heof Hpos Hsize Hend Hdest.
  destruct Hobj as (Hp & Hfit & Hlen & Hmax). fold cap in Hfit, Hlen, Hmax.
  unfold stream.get. rewrite Heof. fold pos. fold cap.
  assert (Hcurr : Mach.to_size_t (pos + size) = pos + size).
  { apply to_size_t_small.
    unfold Mach.PTRDIFF_MAX, Mach.SIZE_MAX, Mach.size_modulus in *. lia. }
  rewrite Hcurr.
  destruct (Z.geb_spec (pos + size) cap) as [_|Hlt]; [|lia].
  simpl. fold cap. fold pos.
  assert (Hrem : Mach.to_size_t (cap - pos) = cap - pos).
  { apply to_size_t_small.
    unfold Mach.PTRDIFF_MAX, Mach.SIZE_MAX, Mach.size_modulus in *. lia. }
  rewrite Hrem.
  rewrite read_inside.
  - simpl. do 2 eexists. split; [reflexivity|].
    split; [reflexivity|]. split; [reflexivity|].
    split; [|reflexivity]. intros dest' size'. reflexivity.
  - simpl. unfold stream.is_object. fold cap. auto.
  - lia.
  - lia.
  - simpl. fold cap. lia.
  - lia.
Qed.

(** [forward(len)] and then [back(len)] restore the position; and
    the end-of-stream flag afterwards tells whether the position is at or
    behind the capacity, whatever the flag was before. *)
Lemma forward_then_back (len : Z) (s : stream.buffer_stream B) :
  let cap := capacity (stream.buffer_ s) in
  let pos := stream.position_ s in
  0 <= pos -> 0 <= len -> pos + len <= Mach.SIZE_MAX ->
  stream.position_ (stream.back len (stream.forward len s)) = pos
  /\ stream.eof_ (stream.back len (stream.forward len s)) = (cap <=? pos)
  /\ stream.buffer_ (stream.back len (stream.forward len s))
     = stream.buffer_ s.
Proof.
  intros cap pos Hpos Hlen Hfit.
  unfold stream.forward. simpl. fold pos. fold cap.
  rewrite (to_size_t_small (pos + len)) by lia.
  assert (Hback : Mach.to_size_t (pos + len - len) = pos).
  { replace (pos + len - len) with pos by lia.
    apply to_size_t_small. lia. }
  destruct (Z.geb_spec (pos + len) cap) as [Hge|Hlt];
    unfold stream.back; simpl; fold pos; fold cap; rewrite Hback;
    destruct (Z.ltb_spec pos cap) as [Hin|Hout];
    destruct (Z.leb_spec cap pos) as [Hle|Hgt];
    simpl; try lia; repeat split.
Qed.

(** [back(len)] with [len] above the position: the subtraction wraps
    around, the position becomes [position - len + 2^64], far behind the
    capacity, and the end-of-stream flag is left as it was. *)
Lemma back_wraps (len : Z) (s : stream.buffer_stream B) :
  let pos := stream.position_ s in
  0 <= pos < len -> len <= Mach.PTRDIFF_MAX ->
  capacity (stream.buffer_ s) <= Mach.PTRDIFF_MAX ->
  stream.back len s
  = stream.set_position (pos - len + Mach.size_modulus) s.
Proof.
  intros pos Hpos Hlen Hcap. unfold stream.back. simpl. fold pos.
  assert (Hw : Mach.to_size_t (pos - len) = pos - len + Mach.size_modulus).
  { unfold Mach.to_size_t.
    rewrite <- (Z.mod_add (pos - len) 1 Mach.size_modulus)
      by (unfold Mach.size_modulus; lia).
    rewrite Z.mul_1_l. apply Z.mod_small.
    unfold Mach.PTRDIFF_MAX, Mach.size_modulus in *. lia. }
  rewrite Hw.
  destruct (Z.ltb_spec (pos - len + Mach.size_modulus)
                       (capacity (stream.buffer_ s))) as [Hlt|_];
    [|reflexivity].
  unfold Mach.PTRDIFF_MAX, Mach.size_modulus in *. lia.
Qed.

End stream_cursor.

Example append_plain_full_witness :
  stream.append_plain (arena 4096) [x01; x02; x03; x04]
                      (sample.at_position 4)
  = Returns false
      (stream.set_eof true (stream.set_position (4 + 4)
                                                (sample.at_position 4))).
Proof.
  apply (append_plain_full (arena 4096) [x01; x02; x03; x04]
                           (sample.at_position 4)).
  - reflexivity.
  - simpl. lia.
  - unfold Mach.SIZE_MAX, Mach.size_modulus. simpl. lia.
Defined.

Example rewind_keeps_eof_witness :
  exists r s1,
    stream.get [x00; x00; x00; x00] 4 (sample.at_position 4) = Returns r s1
    /\ stream.position_ (stream.rewind s1) = 0
    /\ stream.eof (stream.rewind s1) = true
    /\ (forall dest' size',
          stream.get dest' size' (stream.rewind s1)
          = Returns (-1, dest') (stream.rewind s1))
    /\ stream.eof (stream.clear_eof (stream.rewind s1)) = false.
Proof.
  apply (rewind_keeps_eof (sample.at_position 4) [x00; x00; x00; x00] 4).
  - vm_compute. repeat split; discriminate.
  - reflexivity.
  - simpl. lia.
  - unfold Mach.PTRDIFF_MAX. lia.
  - simpl. lia.
  - simpl. lia.
Defined.

(** ** [buffer_stream]: [append], [back] and the getters *)

Lemma holds_slice (written x : list byte) (b : shared_array_buffer.meta) :
  holds (written ++ x) b ->
  Mach.slice (shared_array_buffer.mem b) (Z.of_nat (length written))
             (Z.of_nat (length x)) = x.
Proof.
  intros [Hprefix _ _].
  rewrite <- (take_drop (length (written ++ x)) (shared_array_buffer.mem b)).
  rewrite Hprefix, <- app_assoc.
  apply slice_middle; reflexivity.
Qed.

Lemma back_to (len pos : Z) (s : stream.buffer_stream shared_array_buffer.meta) :
  0 <= pos -> 0 <= len -> stream.position_ s = pos + len ->
  pos + len <= Mach.SIZE_MAX ->
  stream.buffer_ (stream.back len s) = stream.buffer_ s
  /\ stream.position_ (stream.back len s) = pos.
Proof.
  intros Hpos Hlen Hat Hfit. unfold stream.back. simpl. rewrite Hat.
  replace (pos + len - len) with pos by lia.
  rewrite (to_size_t_small pos) by lia.
  destruct (pos <? shared_array_buffer.capacity (stream.buffer_ s));
    split; reflexivity.
Qed.

(** X14. [append<T>] on a shared buffer that grows, then [back] by
    [sizeof(T)], then [get<T>] or [get_as<T>]: with a C library that does
    not fail, [append] returns [true], and both getters return the value
    appended and leave the position where [append] left it. *)
Theorem append_plain_then_get (L : libc) (written t : list byte)
        (s : stream.buffer_stream shared_array_buffer.meta) :
  let step := Z.of_nat (length t) in
  never_fails L -> stream.auto_expand s = true ->
  stream.position_ s = Z.of_nat (length written) ->
  holds written (stream.buffer_ s) ->
  Z.of_nat (length written) + step <= Mach.PTRDIFF_MAX ->
  exists s' s1 s2,
    stream.append_plain L t s = Returns true s'
    /\ stream.position_ s' = stream.position_ s + step
    /\ stream.get_plain step (stream.back step s') = Returns t s1
    /\ stream.position_ s1 = stream.position_ s'
    /\ stream.get_as_plain step (stream.back step s') = Returns t s2
    /\ stream.position_ s2 = stream.position_ s'.
Proof.
  intros step HL Hauto Hat Hholds Hfit.
  destruct (append_plain_holds L written t s HL Hauto Hat Hholds Hfit)
    as (s' & Happ & _ & Hpos' & Hholds' & _).
  rewrite length_app, Nat2Z.inj_add in Hpos'. fold step in Hpos'.
  pose proof (holds_inside _ _ Hholds') as Hin.
  rewrite length_app, Nat2Z.inj_add in Hin. fold step in Hin.
  destruct (back_to step (Z.of_nat (length written)) s') as [Hbb Hbp].
  { lia. } { subst step. lia. } { exact Hpos'. }
  { unfold Mach.PTRDIFF_MAX, Mach.SIZE_MAX, Mach.size_modulus in *. lia. }
  assert (Hobj : stream.is_object (stream.buffer_ (stream.back step s')))
    by (rewrite Hbb; exact (holds_object _ _ Hholds')).
  assert (Hslice : Mach.slice (contents (stream.buffer_ (stream.back step s')))
                              (stream.position_ (stream.back step s')) step
                   = t).
  { rewrite Hbb, Hbp. exact (holds_slice written t _ Hholds'). }
  destruct (get_plain_inside step (stream.back step s') Hobj)
    as (s1 & Hget & _ & Hp1).
  { rewrite Hbp. lia. } { subst step. lia. }
  { rewrite Hbb, Hbp. exact Hin. }
  destruct (get_as_plain_inside step (stream.back step s') Hobj)
    as (s2 & Hget2 & _ & Hp2).
  { rewrite Hbp. lia. } { subst step. lia. }
  { rewrite Hbb, Hbp. exact Hin. }
  rewrite Hslice in Hget, Hget2.
  exists s', s1, s2.
  split; [exact Happ|]. split; [rewrite Hat; exact Hpos'|].
  split; [exact Hget|]. split; [rewrite Hp1, Hbp, Hpos'; reflexivity|].
  split; [exact Hget2|]. rewrite Hp2, Hbp, Hpos'. reflexivity.
Qed.

(** X15. [append(string_view)] on a shared buffer that grows, then [back]
    by the 8 bytes of the length and the length, then [get_as()]: with a C
    library that does not fail, [append] returns [true], and the view read
    back covers the bytes appended and leaves the position where [append]
    left it. *)
Theorem append_view_then_get_as (L : libc) (written sv : list byte)
        (s : stream.buffer_stream shared_array_buffer.meta) :
  let size := 8 + Z.of_nat (length sv) in
  never_fails L -> stream.auto_expand s = true ->
  stream.position_ s = Z.of_nat (length written) ->
  holds written (stream.buffer_ s) ->
  Z.of_nat (length written) + size <= Mach.PTRDIFF_MAX ->
  exists s' s1,
    stream.append_view L sv s = Returns true s'
    /\ stream.position_ s' = stream.position_ s + size
    /\ stream.get_as_view (stream.back size s') = Returns sv s1
    /\ stream.position_ s1 = stream.position_ s'.
Proof.
  intros size HL Hauto Hat Hholds Hfit.
  destruct (append_view_holds L written sv s HL Hauto Hat Hholds)
    as (s' & Happ & _ & Hpos' & Hholds' & _).
  { subst size. lia. }
  assert (Hfield : Z.of_nat (length (Mach.encode_le 8 (Z.of_nat (length sv))
                                       ++ sv)) = size).
  { rewrite length_app, length_encode_le. subst size. lia. }
  rewrite length_app, Nat2Z.inj_add, Hfield in Hpos'.
  destruct (back_to size (Z.of_nat (length written)) s') as [Hbb Hbp].
  { lia. } { subst size. lia. } { exact Hpos'. }
  { unfold Mach.PTRDIFF_MAX, Mach.SIZE_MAX, Mach.size_modulus in *. lia. }
  pose proof (holds_prefix _ _ Hholds') as Hprefix.
  assert (Hmem : contents (stream.buffer_ (stream.back size s'))
                 = written
                     ++ (Mach.encode_le 8 (Z.of_nat (length sv)) ++ sv)
                     ++ drop (length (written
                                        ++ Mach.encode_le 8
                                             (Z.of_nat (length sv)) ++ sv))
                             (shared_array_buffer.mem (stream.buffer_ s'))).
  { rewrite Hbb. simpl.
    rewrite <- (take_drop
                  (length (written
                             ++ Mach.encode_le 8 (Z.of_nat (length sv)) ++ sv))
                  (shared_array_buffer.mem (stream.buffer_ s'))) at 1.
    rewrite Hprefix, <- app_assoc. reflexivity. }
  pose proof (get_as_view_inside (stream.back size s') written sv _
                (eq_ind_r stream.is_object (holds_object _ _ Hholds') Hbb)
                Hmem Hbp) as Hget.
  eexists s', _. split; [exact Happ|]. split; [rewrite Hat; exact Hpos'|].
  split; [exact Hget|]. cbn [stream.position_ stream.set_position].
  rewrite length_app, Nat2Z.inj_add, Hfield, Hpos'. reflexivity.
Qed.

(** X16. [append(string_view)] on a stream that does not grow its buffer,
    with room for the 8 bytes of the length but not for the bytes of the
    view: it returns [false], yet the length has been written into the
    buffer at the position; the position has been moved behind the
    capacity and the end-of-stream flag is set. *)
Theorem append_view_partial (L : libc) (sv : list byte)
        (s : stream.buffer_stream shared_array_buffer.meta) :
  let pos := stream.position_ s in
  let cap := shared_array_buffer.capacity (stream.buffer_ s) in
  let n := Z.of_nat (length sv) in
  stream.is_object (stream.buffer_ s) ->
  stream.auto_expand s = false ->
  0 <= pos -> pos + 8 <= cap -> cap < pos + 8 + n <= Mach.SIZE_MAX ->
  exists s',
    stream.append_view L sv s = Returns false s'
    /\ shared_array_buffer.mem (stream.buffer_ s')
       = Mach.blit (shared_array_buffer.mem (stream.buffer_ s)) pos
                   (Mach.encode_le 8 n)
    /\ stream.position_ s' = pos + 8 + n
    /\ stream.eof_ s' = true.
Proof.
  intros pos cap n Hobj Hauto Hpos Hhead Hover.
  unfold stream.append_view, stream.grow. rewrite Hauto.
  cbn [andb bind]. fold pos. fold n. unfold Mach.sizeof_size_t.
  rewrite (to_size_t_small (n + 8)) by lia.
  rewrite (to_size_t_small (pos + (n + 8))) by lia.
  replace (pos + (n + 8) - (n + 8)) with pos by lia.
  replace (pos + (n + 8) - n) with (pos + 8) by lia.
  rewrite (to_size_t_small pos) by lia.
  rewrite (to_size_t_small (pos + 8)) by lia.
  destruct (mark_eof_at_fields (pos + (n + 8)) s) as (Hb & _ & _).
  set (s2 := stream.set_position (pos + (n + 8))
               (stream.mark_eof_at (pos + (n + 8)) s)).
  assert (Hb2 : stream.buffer_ s2 = stream.buffer_ s) by exact Hb.
  replace 8 with (Z.of_nat (length (Mach.encode_le 8 n))) at 2
    by (rewrite length_encode_le; reflexivity).
  rewrite write_inside.
  - cbn [bind].
    destruct (access_behind_capacity_reference
                (stream.set_buffer
                   (shared_array_buffer.with_mem
                      (Mach.blit (shared_array_buffer.mem (stream.buffer_ s2))
                                 pos (Mach.encode_le 8 n))
                      (stream.buffer_ s2)) s2)
                (pos + 8) n) as (_ & Hc).
    + subst n. lia.
    + simpl. rewrite Hb. fold cap. lia.
    + unfold stream.write at 1. rewrite Hc. cbn [bind].
      eexists. split; [reflexivity|].
      simpl. rewrite Hb. split; [reflexivity|]. split; [lia|reflexivity].
  - rewrite Hb2. exact Hobj.
  - exact Hpos.
  - rewrite length_encode_le, Hb2. fold cap. lia.
Qed.

Example append_view_partial_witness :
  let m := {| shared_array_buffer.ptr := 4240;
              shared_array_buffer.allocator :=
                {| heap_allocator.ptrs_ := [4096; 4240];
                   heap_allocator.calls :=
                     [Malloc 128 4096; Malloc 16 4240] |};
              shared_array_buffer.capacity := 16;
              shared_array_buffer.reference_count := 1;
              shared_array_buffer.mem := fresh (arena 4096) 16 |} in
  exists s',
    stream.append_view (arena 4096) (replicate 9 x61) (stream.open m)
    = Returns false s'
    /\ shared_array_buffer.mem (stream.buffer_ s')
       = Mach.blit (fresh (arena 4096) 16) 0 (Mach.encode_le 8 9)
    /\ stream.position_ s' = 0 + 8 + 9
    /\ stream.eof_ s' = true.
Proof.
  intros m.
  refine (append_view_partial (arena 4096) (replicate 9 x61) (stream.open m)
                              _ _ _ _ _).
  - vm_compute. repeat split; discriminate.
  - reflexivity.
  - simpl. lia.
  - simpl. lia.
  - unfold Mach.SIZE_MAX, Mach.size_modulus. simpl. lia.
Defined.

Lemma sample_block_holds :
  holds [] {| shared_array_buffer.ptr := 4240;
              shared_array_buffer.allocator :=
                {| heap_allocator.ptrs_ := [4096; 4240];
                   heap_allocator.calls :=
                     [Malloc 128 4096; Malloc 16 4240] |};
              shared_array_buffer.capacity := 16;
              shared_array_buffer.reference_count := 1;
              shared_array_buffer.mem := fresh (arena 4096) 16 |}.
Proof.
  split.
  - reflexivity.
  - vm_compute. repeat split; discriminate.
  - simpl. apply elem_of_cons. right. apply elem_of_cons. left. reflexivity.
Defined.

Example append_plain_then_get_witness :
  let m := {| shared_array_buffer.ptr := 4240;
              shared_array_buffer.allocator :=
                {| heap_allocator.ptrs_ := [4096; 4240];
                   heap_allocator.calls :=
                     [Malloc 128 4096; Malloc 16 4240] |};
              shared_array_buffer.capacity := 16;
              shared_array_buffer.reference_count := 1;
              shared_array_buffer.mem := fresh (arena 4096) 16 |} in
  let s := stream.set_auto_expand true (stream.open m) in
  let t := Mach.encode_le 4 7 in
  exists s' s1 s2,
    stream.append_plain (arena 4096) t s = Returns true s'
    /\ stream.position_ s' = 0 + 4
    /\ stream.get_plain 4 (stream.back 4 s') = Returns t s1
    /\ stream.position_ s1 = stream.position_ s'
    /\ stream.get_as_plain 4 (stream.back 4 s') = Returns t s2
    /\ stream.position_ s2 = stream.position_ s'.
Proof.
  intros m s t.
  refine (append_plain_then_get (arena 4096) [] t s _ _ _ _ _).
  - apply arena_never_fails. lia.
  - reflexivity.
  - reflexivity.
  - exact sample_block_holds.
  - unfold Mach.PTRDIFF_MAX. simpl. lia.
Defined.

Example append_view_then_get_as_witness :
  let m := {| shared_array_buffer.ptr := 4240;
              shared_array_buffer.allocator :=
                {| heap_allocator.ptrs_ := [4096; 4240];
                   heap_allocator.calls :=
                     [Malloc 128 4096; Malloc 16 4240] |};
              shared_array_buffer.capacity := 16;
              shared_array_buffer.reference_count := 1;
              shared_array_buffer.mem := fresh (arena 4096) 16 |} in
  let s := stream.set_auto_expand true (stream.open m) in
  let sv := replicate 9 x61 in
  exists s' s1,
    stream.append_view (arena 4096) sv s = Returns true s'
    /\ stream.position_ s' = 0 + (8 + 9)
    /\ stream.get_as_view (stream.back (8 + 9) s') = Returns sv s1
    /\ stream.position_ s1 = stream.position_ s'.
Proof.
  intros m s sv.
  refine (append_view_then_get_as (arena 4096) [] sv s _ _ _ _ _).
  - apply arena_never_fails. lia.
  - reflexivity.
  - reflexivity.
  - exact sample_block_holds.
  - unfold Mach.PTRDIFF_MAX. simpl. lia.
Defined.

(** ** Events: [event_log] with an empty field, and [tick_event] *)

Lemma with_count_object (rc : Z) (m : shared_array_buffer.meta) :
  stream.is_object m -> stream.is_object (shared_array_buffer.with_count rc m).
Proof. intros Hobj. exact Hobj. Qed.

(** X17. An [event_log] with an empty source or an empty message can be
    built but not read back: with a C library that does not fail the
    constructor returns an event and [content()] a buffer, and the
    constructor from that buffer throws a [memory_exception], because it
    takes the empty view it has read for a failed read. *)
Theorem event_log_empty_field_not_decodable (L : libc) (lv tm : Z)
        (from msg : list byte) :
  never_fails L ->
  Z.of_nat (length from) + Z.of_nat (length msg) + 28 <= Mach.PTRDIFF_MAX ->
  from = [] \/ msg = [] ->
  exists e b,
    event_log.make L lv tm from msg = Returns e tt
    /\ content e = Returns tt b
    /\ from_buffer (E := event_log.t) b
       = Throws (memory_exception "event_log::event_log()"
                   (if event_log.is_empty from
                    then "cannot read from_process from event_log array buffer"
                    else "cannot read message from event_log array buffer"))
                tt.
Proof.
  intros HL Hfit Hempty.
  destruct (make_layout L lv tm from msg HL Hfit) as (b0 & Hmake & Hmem0 & Hobj0 & Hrc).
  exists {| event_log.buffer_ := b0; event_log.lv_ := lv; event_log.tm_ := tm;
            event_log.from_ := from; event_log.msg_ := msg |}.
  exists (shared_array_buffer.with_count 2 b0).
  split; [exact Hmake|]. split.
  { cbn [content event_log_is_event].
    unfold event_log.get_content, shared_array_buffer.copy_construct.
    cbn [event_log.buffer_]. rewrite Hrc. reflexivity. }
  set (b := shared_array_buffer.with_count 2 b0).
  assert (Hobj : stream.is_object b) by exact Hobj0.
  assert (Hmem : shared_array_buffer.mem b = layout lv tm from msg)
    by exact Hmem0.
  clearbody b. clear Hmake Hmem0 Hobj0 Hrc b0.
  cbn [from_buffer event_log_is_event]. unfold event_log.decode.
  unfold event_log.sizeof_lv, event_log.sizeof_tm, Mach.sizeof_time_t.
  pose proof (length_encode_le 4 lv) as Hl4.
  pose proof (length_encode_le 8 tm) as Hl8.
  pose proof (length_encode_le 8 (Z.of_nat (length from))) as Hlf.
  pose proof (length_encode_le 8 (Z.of_nat (length msg))) as Hlm.
  pose proof Hobj as (_ & _ & Hlen & _). cbn in Hlen.
  rewrite Hmem in Hlen. unfold layout in Hlen, Hmem.
  rewrite !length_app, Hl4, Hl8, Hlf, Hlm in Hlen. simpl length in Hlen.
  destruct (get_as_plain_inside 4 (stream.open b))
    as (s1 & -> & Hb1 & Hp1); [exact Hobj|simpl; lia|lia|simpl; lia|].
  destruct (get_as_plain_inside 8 s1)
    as (s2 & -> & Hb2 & Hp2);
    [rewrite Hb1; exact Hobj|rewrite Hp1; simpl; lia|lia
    |rewrite Hp1, Hb1; simpl; lia|].
  rewrite Hb1, Hp1 in *. cbn [stream.open stream.buffer_ stream.position_] in *.
  rewrite (get_as_view_inside s2
             ([] ++ Mach.encode_le 4 lv ++ Mach.encode_le 8 tm) from
             (Mach.encode_le 8 (Z.of_nat (length msg)) ++ msg));
    [|rewrite Hb2; exact Hobj
     |rewrite Hb2; cbn [contents shared_is_buffer]; rewrite Hmem;
      rewrite <- !app_assoc; reflexivity
     |rewrite Hp2, !length_app, Hl4, Hl8; simpl; lia].
  destruct from as [|f0 from']; [reflexivity|]. cbn [event_log.is_empty].
  destruct Hempty as [Hf|Hm]; [discriminate Hf|]. subst msg.
  set (from := f0 :: from') in *.
  rewrite (get_as_view_inside _
             (([] ++ Mach.encode_le 4 lv ++ Mach.encode_le 8 tm)
                ++ Mach.encode_le 8 (Z.of_nat (length from)) ++ from)
             [] []);
    [|cbn [stream.buffer_ stream.set_position]; rewrite Hb2; exact Hobj
     |cbn [stream.buffer_ stream.set_position]; rewrite Hb2;
      cbn [contents shared_is_buffer]; rewrite Hmem;
      rewrite <- !app_assoc, app_nil_r; reflexivity
     |cbn [stream.position_ stream.set_position];
      rewrite <- !app_assoc; reflexivity].
  reflexivity.
Qed.

Example event_log_empty_field_not_decodable_witness :
  exists e b,
    event_log.make (arena 4096) (level_value INFO) 1700000000
                   [x73; x76; x63] [] = Returns e tt
    /\ content e = Returns tt b
    /\ from_buffer (E := event_log.t) b
       = Throws (memory_exception "event_log::event_log()"
                   "cannot read message from event_log array buffer") tt.
Proof.
  refine (event_log_empty_field_not_decodable (arena 4096) (level_value INFO)
            1700000000 [x73; x76; x63] [] _ _ _).
  - apply arena_never_fails. lia.
  - unfold Mach.PTRDIFF_MAX. simpl. lia.
  - right. reflexivity.
Defined.

(** What the constructor of [tick_event] builds: a buffer of 8 bytes that
    holds the ticks, with one object on it. *)
Lemma tick_event_make (L : libc) (ticks : Z) :
  never_fails L ->
  exists b,
    tick_event.make L ticks
    = Returns {| tick_event.buffer_ := b; tick_event.ticks_ := ticks |} tt
    /\ shared_array_buffer.mem b = Mach.encode_le 8 ticks
    /\ shared_array_buffer.capacity b = 8
    /\ stream.is_object b
    /\ shared_array_buffer.reference_count b = 1.
Proof.
  intros HL. unfold tick_event.make.
  destruct (construct_holds L 8 heap_allocator.new HL)
    as (meta_ & m & a' & -> & Hholds & Hcap & Hrc).
  { unfold Mach.PTRDIFF_MAX. lia. }
  destruct (mark_eof_at_fields 8 (stream.open m)) as (Hb & _ & _).
  destruct (write_extends [] (Mach.encode_le 8 ticks)
              (stream.set_position 8
                 (stream.mark_eof_at 8 (stream.open m))))
    as (b & Hw & Hholds' & Hcap' & Hrc').
  { cbn [stream.buffer_ stream.set_position]. rewrite Hb. exact Hholds. }
  { cbn [stream.buffer_ stream.set_position]. rewrite Hb.
    rewrite length_encode_le. simpl. lia. }
  rewrite length_encode_le in Hw. change (Z.of_nat (length [])) with 0 in Hw.
  change (Z.of_nat 8) with 8 in Hw.
  cbn [stream.buffer_ stream.set_position] in Hcap', Hrc'.
  rewrite Hb in Hcap', Hrc'. cbn [stream.buffer_ stream.open] in Hcap', Hrc'.
  exists b. split.
  { unfold stream.append_plain, stream.grow.
    cbn [stream.open stream.auto_expand andb bind stream.position_].
    rewrite length_encode_le.
    change (Z.of_nat 8) with 8. change (0 + 8) with 8.
    change (Mach.to_size_t 8) with 8. change (Mach.to_size_t (8 - 8)) with 0.
    rewrite Hw. reflexivity. }
  pose proof (holds_object _ _ Hholds') as Hobj.
  pose proof (holds_prefix _ _ Hholds') as Hprefix.
  split; [|split; [lia|split; [exact Hobj|lia]]].
  destruct Hobj as (_ & _ & Hlen & _). cbn in Hlen.
  rewrite take_ge in Hprefix; [exact Hprefix|].
  rewrite length_app, length_encode_le. simpl. lia.
Qed.

(** X18. [tick_event] round trip: with a C library that does not fail,
    the constructor returns an event whose buffer is the 8 bytes of the
    ticks, little endian; [content()] returns a buffer; and the constructor
    from that buffer returns an event with the same ticks. *)
Theorem tick_event_round_trip (L : libc) (ticks : Z) :
  never_fails L -> - 2 ^ 63 <= ticks < 2 ^ 63 ->
  exists e b e',
    tick_event.make L ticks = Returns e tt
    /\ shared_array_buffer.capacity (tick_event.buffer_ e) = 8
    /\ shared_array_buffer.mem (tick_event.buffer_ e) = Mach.encode_le 8 ticks
    /\ content e = Returns tt b
    /\ from_buffer b = Returns e' tt
    /\ tick_event.ticks_ e' = ticks.
Proof.
  intros HL Hrange.
  destruct (tick_event_make L ticks HL)
    as (b & Hmake & Hmem & Hcap & Hobj & Hrc).
  destruct (get_as_plain_inside Mach.sizeof_int64_t
              (stream.open (shared_array_buffer.with_count 2 b)))
    as (s' & Hget & Hb' & _).
  { exact Hobj. } { simpl. lia. } { unfold Mach.sizeof_int64_t. lia. }
  { simpl. unfold Mach.sizeof_int64_t. lia. }
  exists {| tick_event.buffer_ := b; tick_event.ticks_ := ticks |},
         (shared_array_buffer.with_count 2 b),
         {| tick_event.buffer_ := stream.buffer_ s';
            tick_event.ticks_ := ticks |}.
  split; [exact Hmake|]. cbn [tick_event.buffer_].
  split; [exact Hcap|]. split; [exact Hmem|]. split.
  { cbn [content tick_event_is_event].
    unfold tick_event.get_content, shared_array_buffer.copy_construct.
    cbn [tick_event.buffer_]. rewrite Hrc. reflexivity. }
  split; [|reflexivity].
  cbn [from_buffer tick_event_is_event]. unfold tick_event.decode.
  rewrite Hget. f_equal. f_equal.
  cbn [stream.open stream.buffer_ stream.position_ contents shared_is_buffer
       shared_array_buffer.with_count shared_array_buffer.mem].
  rewrite Hmem. unfold Mach.sizeof_int64_t.
  replace (Mach.slice (Mach.encode_le 8 ticks) 0 8)
    with (Mach.encode_le 8 ticks).
  - rewrite decode_encode_le. apply to_signed_range; lia.
  - symmetry.
    rewrite <- (app_nil_r (Mach.encode_le 8 ticks)) at 1.
    apply (slice_middle [] (Mach.encode_le 8 ticks) [] 0 8);
      [reflexivity|rewrite length_encode_le; reflexivity].
Qed.

Example tick_event_round_trip_witness :
  exists e b e',
    tick_event.make (arena 4096) 42 = Returns e tt
    /\ shared_array_buffer.capacity (tick_event.buffer_ e) = 8
    /\ shared_array_buffer.mem (tick_event.buffer_ e) = Mach.encode_le 8 42
    /\ content e = Returns tt b
    /\ from_buffer b = Returns e' tt
    /\ tick_event.ticks_ e' = 42.
Proof.
  refine (tick_event_round_trip (arena 4096) 42 _ _).
  - apply arena_never_fails. lia.
  - lia.
Defined.

(** ** One event id for two event types

    [tick_event::unique_event_id] and [event_log::unique_event_id] are
    both 1: the channel keeps the subscribers of both in one vector. *)

Lemma decode_le_app (a b : list byte) :
  Mach.decode_le (a ++ b)
  = Mach.decode_le a + 2 ^ (8 * Z.of_nat (length a)) * Mach.decode_le b.
Proof.
  induction a as [|x a IH].
  - simpl. lia.
  - cbn [app Mach.decode_le length]. rewrite IH.
    replace (8 * Z.of_nat (S (length a))) with (8 + 8 * Z.of_nat (length a))
      by lia.
    rewrite Z.pow_add_r by lia. change (2 ^ 8) with 256. ring.
Qed.

Lemma take_encode_le (k n : nat) (z : Z) :
  (k <= n)%nat -> take k (Mach.encode_le n z) = Mach.encode_le k z.
Proof.
  revert n z. induction k as [|k IH]; intros n z Hk.
  - reflexivity.
  - destruct n as [|n]; [lia|]. cbn [Mach.encode_le take].
    rewrite IH by lia. reflexivity.
Qed.

(** A buffer too short for the level and the time of an [event_log]. *)
Lemma event_log_decode_short (m : shared_array_buffer.meta) :
  stream.is_object m ->
  4 <= shared_array_buffer.capacity m < 12 ->
  event_log.decode m
  = Throws (memory_exception "buffer_stream::get_as<T>()"
                             "segment fault, invalid pointer access") tt.
Proof.
  intros Hobj Hcap. unfold event_log.decode.
  unfold event_log.sizeof_lv, event_log.sizeof_tm, Mach.sizeof_time_t.
  destruct (get_as_plain_inside 4 (stream.open m))
    as (s1 & -> & Hb1 & Hp1); [exact Hobj|simpl; lia|lia|simpl; lia|].
  rewrite get_as_plain_behind.
  - reflexivity.
  - rewrite Hp1. simpl. lia.
  - lia.
  - rewrite Hp1, Hb1. simpl.
    unfold Mach.SIZE_MAX, Mach.size_modulus. lia.
Qed.

Section id_clash.

Import event_channel.

Context {W : Type}.

(** X19. A [tick_event] posted on a channel is handed to the subscribers
    of [event_log]. With a subscriber of [event_log] first in the vector,
    [post] of a [tick_event] throws the [memory_exception] of
    [get_as<T>()]: the stored closure fails to build an [event_log] from
    the 8 bytes of the tick. The handler itself is not run, no later
    handler is called, and the buffer is back at one object. *)
Theorem tick_event_posted_to_event_log_handlers (L : libc) (ticks : Z)
        (ch : t W) (w : W)
        (handler : event_log.t -> W -> outcome unit W) (cbid : Z)
        (rest : list (evhandler_t W)) :
  never_fails L ->
  handlers_of (unique_event_id (E := event_log.t)) ch
  = {| callback_function := packaged handler; callback_id := cbid |} :: rest ->
  exists e b f,
    tick_event.make L ticks = Returns e tt
    /\ content e = Returns tt b
    /\ post e ch w
       = Throws (memory_exception "buffer_stream::get_as<T>()"
                                  "segment fault, invalid pointer access") f
    /\ user f = w
    /\ log f = [content_called;
                invoked cbid (shared_array_buffer.with_count 3 b)]
    /\ shared_array_buffer.reference_count (block f) = 1.
Proof.
  intros HL Hfirst.
  destruct (tick_event_make L ticks HL)
    as (b & Hmake & Hmem & Hcap & Hobj & Hrc).
  exists {| tick_event.buffer_ := b; tick_event.ticks_ := ticks |},
         (shared_array_buffer.with_count 2 b).
  eexists. split; [exact Hmake|].
  assert (Hcontent : content {| tick_event.buffer_ := b;
                                tick_event.ticks_ := ticks |}
                     = Returns tt (shared_array_buffer.with_count 2 b)).
  { cbn [content tick_event_is_event].
    unfold tick_event.get_content, shared_array_buffer.copy_construct.
    cbn [tick_event.buffer_]. rewrite Hrc. reflexivity. }
  split; [exact Hcontent|].
  unfold post. rewrite Hcontent.
  change (unique_event_id (E := tick_event.t))
    with (unique_event_id (E := event_log.t)).
  rewrite Hfirst. cbn [deliver block user log].
  unfold shared_array_buffer.copy_construct at 1.
  cbn [shared_array_buffer.with_count shared_array_buffer.reference_count].
  change (2 =? 0) with false. change (2 =? Mach.INT_MAX) with false.
  cbn [callback_function callback_id bind].
  unfold packaged at 1. cbn [block user log from_buffer event_log_is_event].
  rewrite event_log_decode_short; [|exact Hobj|simpl; lia].
  unfold drop_object, shared_array_buffer.destructor.
  cbn [shared_array_buffer.with_count shared_array_buffer.reference_count
       block user log on_block bind].
  change (2 + 1 =? Mach.INT_MIN) with false.
  change (2 + 1 - 1 =? 0) with false.
  cbn [shared_array_buffer.with_count shared_array_buffer.reference_count
       block user log on_block bind].
  change (2 + 1 - 1 =? Mach.INT_MIN) with false.
  change (2 + 1 - 1 - 1 =? 0) with false.
  cbn [shared_array_buffer.with_count shared_array_buffer.reference_count
       block user log on_block bind].
  split; [reflexivity|]. cbn [user log block].
  split; [reflexivity|]. split; [reflexivity|]. reflexivity.
Qed.

End id_clash.

(** X20. An [event_log] posted on a channel is handed to the subscribers
    of [tick_event], and there it is taken for a tick: the constructor of
    [tick_event] from the buffer of an [event_log] returns normally, with
    the log level in the low 32 bits of the ticks and the low 32 bits of
    the time stamp above them. *)
Theorem event_log_decodes_as_tick_event (L : libc) (lv tm : Z)
        (from msg : list byte) :
  never_fails L ->
  Z.of_nat (length from) + Z.of_nat (length msg) + 28 <= Mach.PTRDIFF_MAX ->
  unique_event_id (E := tick_event.t) = unique_event_id (E := event_log.t)
  /\ exists e b t,
       event_log.make L lv tm from msg = Returns e tt
       /\ content e = Returns tt b
       /\ from_buffer (E := tick_event.t) b = Returns t tt
       /\ tick_event.ticks_ t
          = Mach.to_int64 (lv mod 2 ^ 32 + 2 ^ 32 * (tm mod 2 ^ 32)).
Proof.
  intros HL Hfit. split; [reflexivity|].
  destruct (make_layout L lv tm from msg HL Hfit)
    as (b0 & Hmake & Hmem & Hobj & Hrc).
  destruct (get_as_plain_inside Mach.sizeof_int64_t
              (stream.open (shared_array_buffer.with_count 2 b0)))
    as (s' & Hget & Hb' & _).
  { exact Hobj. } { simpl. lia. } { unfold Mach.sizeof_int64_t. lia. }
  { pose proof Hobj as (_ & _ & Hlen & _). cbn in Hlen. simpl.
    rewrite <- Hlen, Hmem. unfold layout.
    rewrite !length_app, !length_encode_le. unfold Mach.sizeof_int64_t.
    simpl length. lia. }
  eexists _, (shared_array_buffer.with_count 2 b0),
          {| tick_event.buffer_ := stream.buffer_ s'; tick_event.ticks_ := _ |}.
  split; [exact Hmake|]. split.
  { cbn [content event_log_is_event].
    unfold event_log.get_content, shared_array_buffer.copy_construct.
    cbn [event_log.buffer_]. rewrite Hrc. reflexivity. }
  split.
  { cbn [from_buffer tick_event_is_event]. unfold tick_event.decode.
    rewrite Hget. reflexivity. }
  cbn [tick_event.ticks_ stream.open stream.buffer_ stream.position_
       contents shared_is_buffer shared_array_buffer.with_count
       shared_array_buffer.mem].
  rewrite Hmem. unfold layout, Mach.sizeof_int64_t. f_equal.
  rewrite <- (take_drop 4 (Mach.encode_le 8 tm)).
  rewrite (take_encode_le 4 8 tm) by lia.
  rewrite <- !app_assoc.
  rewrite (app_assoc (Mach.encode_le 4 lv) (Mach.encode_le 4 tm)).
  rewrite (slice_middle [] (Mach.encode_le 4 lv ++ Mach.encode_le 4 tm));
    [|reflexivity|rewrite length_app, !length_encode_le; reflexivity].
  rewrite decode_le_app, !decode_encode_le, length_encode_le. reflexivity.
Qed.

Example tick_event_posted_to_event_log_handlers_witness :
  exists e b f,
    tick_event.make (arena 4096) 42 = Returns e tt
    /\ content e = Returns tt b
    /\ event_channel.post e
         (sample.then_subscribe (E := event_log.t) (sample.note 10)
                                event_channel.new) []
       = Throws (memory_exception "buffer_stream::get_as<T>()"
                                  "segment fault, invalid pointer access") f
    /\ event_channel.user f = []
    /\ event_channel.log f
       = [event_channel.content_called;
          event_channel.invoked 0 (shared_array_buffer.with_count 3 b)]
    /\ shared_array_buffer.reference_count (event_channel.block f) = 1.
Proof.
  refine (tick_event_posted_to_event_log_handlers (arena 4096) 42
            (sample.then_subscribe (E := event_log.t) (sample.note 10)
                                   event_channel.new) []
            (sample.note 10) 0 [] _ _).
  - apply arena_never_fails. lia.
  - reflexivity.
Defined.

Example event_log_decodes_as_tick_event_witness :
  unique_event_id (E := tick_event.t) = unique_event_id (E := event_log.t)
  /\ exists e b t,
       event_log.make (arena 4096) (level_value ERROR) 1700000000
                      [x73; x76; x63] [x62; x6f; x6f; x6d] = Returns e tt
       /\ content e = Returns tt b
       /\ from_buffer (E := tick_event.t) b = Returns t tt
       /\ tick_event.ticks_ t
          = Mach.to_int64 (level_value ERROR mod 2 ^ 32
                           + 2 ^ 32 * (1700000000 mod 2 ^ 32)).
Proof.
  refine (event_log_decodes_as_tick_event (arena 4096) (level_value ERROR)
            1700000000 [x73; x76; x63] [x62; x6f; x6f; x6d] _ _).
  - apply arena_never_fails. lia.
  - unfold Mach.PTRDIFF_MAX. simpl. lia.
Defined.

(** ** [event_channel::unsubscribe] and the ids *)

Section channel_unsubscribe.

Import event_channel.

Context {W : Type}.

Lemma filter_other_ids (id : Z) (l : list (evhandler_t W)) :
  (forall h, h ∈ l -> callback_id h <> id) ->
  List.filter (fun h => negb (callback_id h =? id)) l = l.
Proof.
  induction l as [|x l IH]; intros Hl; [reflexivity|].
  cbn [List.filter].
  destruct (Z.eqb_spec (callback_id x) id) as [E|_].
  - exfalso. apply (Hl x); [apply elem_of_cons; left; reflexivity|exact E].
  - cbn [negb]. rewrite IH; [reflexivity|].
    intros h Hh. apply Hl. apply elem_of_cons. right. exact Hh.
Qed.

Lemma handlers_of_insert (ueid other : Z) (l : list (evhandler_t W))
      (ch : t W) (c : Z) :
  handlers_of other
    {| evhandlers_ := <[ueid := l]> (evhandlers_ ch); cbid_count_ := c |}
  = if decide (other = ueid) then l else handlers_of other ch.
Proof.
  unfold handlers_of. cbn [evhandlers_].
  destruct (decide (other = ueid)) as [->|Hne].
  - rewrite lookup_insert_eq. reflexivity.
  - rewrite lookup_insert_ne by congruence. reflexivity.
Qed.

(** X21. [unsubscribe<E>(id)] where exactly one handler registered for [E]
    has the id: it returns [true]; that handler is gone, the other
    handlers of [E] are kept in their order, and the handlers of every
    other event type and the id counter are as they were. *)
Theorem unsubscribe_removes {E : Type} `{is_event E}
        (hollowed : evcallback_t W -> evcallback_t W) (id : Z) (ch : t W)
        (l1 l2 : list (evhandler_t W)) (h : evhandler_t W) :
  handlers_of (unique_event_id (E := E)) ch = l1 ++ h :: l2 ->
  callback_id h = id ->
  (forall h', h' ∈ l1 ++ l2 -> callback_id h' <> id) ->
  exists ch',
    unsubscribe (E := E) hollowed id ch = Returns true ch'
    /\ handlers_of (unique_event_id (E := E)) ch' = l1 ++ l2
    /\ (forall ueid, ueid <> unique_event_id (E := E) ->
          handlers_of ueid ch' = handlers_of ueid ch)
    /\ cbid_count_ ch' = cbid_count_ ch.
Proof.
  intros Hreg Hid Hothers. unfold unsubscribe.
  unfold handlers_of in Hreg.
  destruct (evhandlers_ ch !! unique_event_id (E := E)) as [handlers|] eqn:Hk;
    [|destruct l1; discriminate Hreg].
  subst handlers.
  assert (Hkept : List.filter (fun h0 => negb (callback_id h0 =? id))
                              (l1 ++ h :: l2) = l1 ++ l2).
  { rewrite List.filter_app. cbn [List.filter].
    rewrite Hid, Z.eqb_refl. cbn [negb].
    rewrite !filter_other_ids; [reflexivity| |];
      intros h' Hh'; apply Hothers; apply elem_of_app; auto. }
  rewrite Hkept.
  assert (Hlen : length (l1 ++ h :: l2) = S (length (l1 ++ l2)))
    by (rewrite !length_app; simpl; lia).
  rewrite Hlen.
  destruct (Nat.eqb_spec (length (l1 ++ l2)) (S (length (l1 ++ l2))))
    as [E'|_]; [lia|].
  assert (Hbehind : exists x, drop (length (l1 ++ l2)) (l1 ++ h :: l2) = [x]).
  { destruct (drop (length (l1 ++ l2)) (l1 ++ h :: l2)) as [|x [|y r]] eqn:Hd.
    - apply (f_equal length) in Hd. rewrite length_drop, Hlen in Hd.
      simpl in Hd. lia.
    - exists x. reflexivity.
    - apply (f_equal length) in Hd. rewrite length_drop, Hlen in Hd.
      simpl in Hd. lia. }
  destruct Hbehind as [x ->]. cbn [map tail]. rewrite app_nil_r.
  eexists. split; [reflexivity|].
  split; [|split; [|reflexivity]].
  - rewrite handlers_of_insert. rewrite decide_True by reflexivity.
    reflexivity.
  - intros ueid Hne. rewrite handlers_of_insert.
    rewrite decide_False by exact Hne. reflexivity.
Qed.

(** X22. [unsubscribe<E>(id)] where handlers are registered for [E] (or
    were: the vector may be empty by now) and none of them has the id: the
    iterator that [std::remove_if] returns is [end()], and [erase] of it
    is undefined. It does not return [false]. *)
Theorem unsubscribe_unknown_id_undefined {E : Type} `{is_event E}
        (hollowed : evcallback_t W -> evcallback_t W) (id : Z) (ch : t W)
        (handlers : list (evhandler_t W)) :
  evhandlers_ ch !! unique_event_id (E := E) = Some handlers ->
  (forall h, h ∈ handlers -> callback_id h <> id) ->
  unsubscribe (E := E) hollowed id ch = Undefined.
Proof.
  intros Hk Hothers. unfold unsubscribe. rewrite Hk.
  rewrite (filter_other_ids id handlers Hothers).
  rewrite Nat.eqb_refl. reflexivity.
Qed.

Lemma ids_of_behind (hollowed : evcallback_t W -> evcallback_t W) (id : Z)
      (l : list (evhandler_t W)) (h : evhandler_t W) :
  h ∈ map (fun h0 =>
             if callback_id h0 =? id then h0
             else {| callback_function := hollowed (callback_function h0);
                     callback_id := callback_id h0 |}) l ->
  exists h0, h0 ∈ l /\ callback_id h = callback_id h0.
Proof.
  intros Hin. apply list_elem_of_fmap in Hin as (h0 & -> & Hh0).
  exists h0. split; [exact Hh0|].
  destruct (callback_id h0 =? id); reflexivity.
Qed.

(** X23. The ids in use stay below the counter, so [subscribe] never
    hands out an id that is in use. Where every id registered is below the
    counter: [subscribe] returns the counter's value, which no handler of
    any event type has, and [unsubscribe] and [subscribe] keep every id
    registered below the counter. It holds on the empty channel. *)
Theorem ids_stay_below_counter (ch : t W) :
  ids_below_counter ch ->
  (forall (E : Type) (I : is_event E)
          (handler : E -> W -> outcome unit W) (cbid : Z) (ch' : t W),
      subscribe handler ch = Returns cbid ch' ->
      ids_below_counter ch'
      /\ forall ueid h, h ∈ handlers_of ueid ch -> callback_id h <> cbid)
  /\ (forall (E : Type) (I : is_event E)
             (hollowed : evcallback_t W -> evcallback_t W) (id : Z)
             (removed : bool) (ch' : t W),
        unsubscribe (E := E) hollowed id ch = Returns removed ch' ->
        ids_below_counter ch').
Proof.
  intros Hinv. split.
  - intros E I handler cbid ch' Hsub. unfold subscribe in Hsub.
    destruct (cbid_count_ ch =? Mach.INT_MAX); [discriminate Hsub|].
    injection Hsub as <- <-. split.
    + intros ueid h Hh. rewrite handlers_of_insert in Hh.
      cbn [cbid_count_].
      destruct (decide (ueid = unique_event_id (E := E))) as [->|_].
      * apply elem_of_app in Hh as [Hold|Hnew].
        -- pose proof (Hinv _ _ Hold). lia.
        -- apply list_elem_of_singleton in Hnew. subst h.
           cbn [callback_id]. lia.
      * pose proof (Hinv _ _ Hh). lia.
    + intros ueid h Hh Heq. pose proof (Hinv _ _ Hh). lia.
  - intros E I hollowed id removed ch' Hun. unfold unsubscribe in Hun.
    destruct (evhandlers_ ch !! unique_event_id (E := E))
      as [handlers|] eqn:Hk.
    + destruct (_ =? _)%nat; [discriminate Hun|].
      injection Hun as _ <-.
      assert (Hin : forall h, h ∈ handlers -> callback_id h < cbid_count_ ch).
      { intros h Hh. apply (Hinv (unique_event_id (E := E))).
        unfold handlers_of. rewrite Hk. exact Hh. }
      intros ueid h Hh. rewrite handlers_of_insert in Hh.
      cbn [cbid_count_].
      destruct (decide (ueid = unique_event_id (E := E))) as [->|_].
      * apply elem_of_app in Hh as [Hkept|Hbehind].
        -- apply list_elem_of_In, List.filter_In in Hkept as [Hh _].
           apply Hin. apply list_elem_of_In. exact Hh.
        -- assert (Hb : h ∈ map (fun h0 =>
                                   if callback_id h0 =? id then h0
                                   else {| callback_function :=
                                             hollowed (callback_function h0);
                                           callback_id := callback_id h0 |})
                                (drop (length
                                         (List.filter
                                            (fun h0 =>
                                               negb (callback_id h0 =? id))
                                            handlers)) handlers)).
           { destruct (map _ _) as [|x r]; [inversion Hbehind|].
             apply elem_of_cons. right. exact Hbehind. }
           apply ids_of_behind in Hb as (h0 & Hh0 & ->).
           apply Hin. exact (subseteq_drop _ _ _ Hh0).
      * exact (Hinv _ _ Hh).
    + injection Hun as _ <-. exact Hinv.
Qed.

End channel_unsubscribe.

Example unsubscribe_removes_witness :
  exists ch',
    event_channel.unsubscribe (E := event_log.t) (fun f => f) 2 sample.channel
    = Returns true ch'
    /\ map event_channel.callback_id
           (event_channel.handlers_of (unique_event_id (E := event_log.t)) ch')
       = [0; 3]
    /\ map event_channel.callback_id
           (event_channel.handlers_of (unique_event_id (E := sample.ping)) ch')
       = [1]
    /\ event_channel.cbid_count_ ch' = 4.
Proof.
  destruct (unsubscribe_removes (E := event_log.t) (fun f => f) 2
              sample.channel
              [{| event_channel.callback_function :=
                    event_channel.packaged (E := event_log.t) (sample.note 10);
                  event_channel.callback_id := 0 |}]
              [{| event_channel.callback_function :=
                    event_channel.packaged (E := event_log.t) (sample.note 30);
                  event_channel.callback_id := 3 |}]
              {| event_channel.callback_function :=
                   event_channel.packaged (E := event_log.t) (sample.note 20);
                 event_channel.callback_id := 2 |})
    as (ch' & Hun & Hkept & Hother & Hcount).
  - reflexivity.
  - reflexivity.
  - intros h' Hin. apply list_elem_of_In in Hin. simpl in Hin.
    destruct Hin as [<-|[<-|[]]]; simpl; discriminate.
  - exists ch'. split; [exact Hun|]. split; [rewrite Hkept; reflexivity|].
    split; [|rewrite Hcount; reflexivity].
    rewrite (Hother (unique_event_id (E := sample.ping)));
      [reflexivity|discriminate].
Defined.

Example unsubscribe_unknown_id_undefined_witness :
  event_channel.unsubscribe (E := event_log.t) (fun f => f) 1 sample.channel
  = Undefined.
Proof.
  refine (unsubscribe_unknown_id_undefined (E := event_log.t) (fun f => f) 1
            sample.channel
            (event_channel.handlers_of (unique_event_id (E := event_log.t))
                                       sample.channel) _ _).
  - reflexivity.
  - intros h Hin. apply list_elem_of_In in Hin. simpl in Hin.
    destruct Hin as [<-|[<-|[<-|[]]]]; simpl; discriminate.
Defined.

Example ids_stay_below_counter_witness :
  (forall (E : Type) (I : is_event E)
          (handler : E -> list Z -> outcome unit (list Z)) (cbid : Z)
          (ch' : event_channel.t (list Z)),
      event_channel.subscribe handler event_channel.new = Returns cbid ch' ->
      event_channel.ids_below_counter ch'
      /\ forall ueid (h : event_channel.evhandler_t (list Z)),
           h ∈ event_channel.handlers_of ueid event_channel.new ->
           event_channel.callback_id h <> cbid)
  /\ (forall (E : Type) (I : is_event E)
             (hollowed : event_channel.evcallback_t (list Z)
                         -> event_channel.evcallback_t (list Z)) (id : Z)
             (removed : bool) (ch' : event_channel.t (list Z)),
        event_channel.unsubscribe (E := E) hollowed id event_channel.new
        = Returns removed ch' ->
        event_channel.ids_below_counter ch').
Proof.
  apply (ids_stay_below_counter event_channel.new).
  intros ueid h Hin. unfold event_channel.handlers_of in Hin.
  simpl in Hin. rewrite lookup_empty in Hin. inversion Hin.
Defined.

(** ** Descriptors: [readfd] and [nonblocking_socket_stream] *)

(** X24. [readfd] that returns has stored exactly [size] bytes: the bytes
    its [read] calls delivered, in order, and nothing else; the calls that
    failed with [EINTR] or [EAGAIN] were repeated and left no trace. *)
Theorem readfd_receives (answers rest : list io.answer) (got got' : list byte)
        (left : Z) :
  0 <= left <= Mach.SIZE_MAX ->
  io.readfd answers left got = Some (Returns rest got') ->
  exists used,
    answers = used ++ rest
    /\ got' = got ++ io.delivered used
    /\ Z.of_nat (length (io.delivered used)) = left.
Proof.
  revert got left. induction answers as [|a answers IH]; intros got left Hleft.
  - cbn [io.readfd]. destruct (Z.gtb_spec left 0) as [Hpos|Hzero].
    + discriminate.
    + intros Hr. injection Hr as <- <-. exists [].
      split; [reflexivity|]. split; [symmetry; apply app_nil_r|].
      simpl. lia.
  - cbn [io.readfd]. destruct (Z.gtb_spec left 0) as [Hpos|Hzero].
    + destruct a as [bytes|n|errno].
      * destruct (Z.leb_spec (Z.of_nat (length bytes)) left) as [Hfit|_];
          [|discriminate].
        rewrite to_size_t_small by lia. intros Hr.
        destruct (IH (got ++ bytes) (left - Z.of_nat (length bytes))
                     ltac:(lia) Hr) as (used & -> & -> & Hlen).
        exists (io.moved bytes :: used). cbn [io.delivered app].
        split; [reflexivity|]. split; [symmetry; apply app_assoc|].
        rewrite length_app. lia.
      * discriminate.
      * destruct (io.transient errno); [|discriminate]. intros Hr.
        destruct (IH _ _ Hleft Hr) as (used & -> & -> & Hlen).
        exists (io.failed errno :: used).
        split; [reflexivity|]. split; [reflexivity|]. exact Hlen.
    + intros Hr. injection Hr as <- <-. exists [].
      split; [reflexivity|]. split; [symmetry; apply app_nil_r|].
      simpl. lia.
Qed.

Example readfd_receives_witness :
  exists used,
    [io.moved [x01; x02]; io.failed io.EINTR; io.moved [x03]; io.moved [x04]]
    = used ++ [io.moved [x04]]
    /\ [x01; x02; x03] = [] ++ io.delivered used
    /\ Z.of_nat (length (io.delivered used)) = 3.
Proof.
  refine (readfd_receives
            [io.moved [x01; x02]; io.failed io.EINTR; io.moved [x03];
             io.moved [x04]]
            [io.moved [x04]] [] [x01; x02; x03] 3 _ _).
  - unfold Mach.SIZE_MAX, Mach.size_modulus. lia.
  - reflexivity.
Defined.

(** X25. [readfd] does not notice the end of the file: a [read] that
    answers 0 only makes the loop go round again. While bytes are still
    wanted, no run of such answers, and of failures with [EINTR] or
    [EAGAIN], however long, lets [readfd] return or throw. *)
Theorem readfd_spins_at_end_of_file (answers : list io.answer)
        (got : list byte) (left : Z) :
  0 < left <= Mach.SIZE_MAX ->
  Forall (fun a => a = io.moved []
                   \/ exists errno,
                        a = io.failed errno /\ io.transient errno = true)
         answers ->
  io.readfd answers left got = None.
Proof.
  intros Hleft Hall. revert got.
  induction Hall as [|a answers Ha _ IH]; intros got.
  - cbn [io.readfd]. destruct (Z.gtb_spec left 0); [reflexivity|lia].
  - cbn [io.readfd]. destruct (Z.gtb_spec left 0) as [_|]; [|lia].
    destruct Ha as [->|(errno & -> & Htr)].
    + cbn [length]. destruct (Z.leb_spec (Z.of_nat 0) left); [|lia].
      replace (left - Z.of_nat 0) with left by lia.
      rewrite to_size_t_small by lia. apply IH.
    + rewrite Htr. apply IH.
Qed.

Example readfd_spins_at_end_of_file_witness :
  io.readfd [io.moved []; io.failed io.EAGAIN; io.moved []; io.moved []]
            4 [] = None.
Proof.
  refine (readfd_spins_at_end_of_file
            [io.moved []; io.failed io.EAGAIN; io.moved []; io.moved []]
            [] 4 _ _).
  - unfold Mach.SIZE_MAX, Mach.size_modulus. lia.
  - constructor; [left; reflexivity|].
    constructor; [right; exists io.EAGAIN; split; reflexivity|].
    constructor; [left; reflexivity|].
    constructor; [left; reflexivity|]. constructor.
Defined.

(** X26. [nonblocking_socket_stream::write(buffer)] sends the first
    string field of the buffer and nothing else: on a buffer that starts
    with a length in 8 bytes and that many bytes of data, it hands
    [writefd] the data, neither the length nor what follows, so that the
    descriptor has taken exactly the data when it returns. On a buffer of
    fewer than 8 bytes it returns without writing anything. *)
Theorem nonblocking_write_sends_first_field (buffer short : unique_array_buffer.t)
        (data rest : list byte) (answers : list io.answer)
        (sent : list byte) :
  stream.is_object buffer ->
  unique_array_buffer.mem_ buffer
  = Mach.encode_le 8 (Z.of_nat (length data)) ++ data ++ rest ->
  stream.is_object short -> unique_array_buffer.capacity_ short < 8 ->
  io.nonblocking_write buffer answers sent
  = io.writefd answers data (Z.of_nat (length data)) sent
  /\ (forall answers' sent',
        io.nonblocking_write buffer answers sent
        = Some (Returns answers' sent') ->
        sent' = sent ++ data)
  /\ io.nonblocking_write short answers sent = Some (Returns answers sent).
Proof.
  intros Hobj Hmem Hshort Hcap.
  assert (Hw : io.nonblocking_write buffer answers sent
               = io.writefd answers data (Z.of_nat (length data)) sent).
  { unfold io.nonblocking_write.
    rewrite (get_as_view_inside (stream.open buffer) [] data rest Hobj);
      [reflexivity| |reflexivity].
    cbn [stream.open stream.buffer_ contents unique_is_buffer].
    rewrite Hmem, <- app_assoc. reflexivity. }
  split; [exact Hw|]. split.
  - intros answers' sent' Hr. rewrite Hw in Hr.
    apply (writefd_sends _ _ _ _ _ _ eq_refl) in Hr; [exact Hr|].
    destruct Hobj as (_ & _ & Hlen & Hmax). cbn in Hlen, Hmax.
    rewrite Hmem, !length_app in Hlen.
    unfold Mach.PTRDIFF_MAX in Hmax.
    unfold Mach.SIZE_MAX, Mach.size_modulus. lia.
  - unfold io.nonblocking_write, stream.get_as_view.
    destruct (access_behind_capacity_reference (stream.open short) 0
                Mach.sizeof_size_t) as [Hr _].
    + unfold Mach.sizeof_size_t. lia.
    + cbn [stream.open stream.buffer_ capacity unique_is_buffer].
      unfold Mach.sizeof_size_t, Mach.SIZE_MAX, Mach.size_modulus. lia.
    + cbn [stream.open stream.position_] in *. rewrite Hr.
      change (0 =? 0) with true. cbn iota.
      destruct answers; reflexivity.
Qed.

Example nonblocking_write_sends_first_field_witness :
  let buffer :=
    {| unique_array_buffer.allocator_ :=
         {| heap_allocator.ptrs_ := [4096];
            heap_allocator.calls := [Malloc 12 4096] |};
       unique_array_buffer.ptr_ := 4096;
       unique_array_buffer.capacity_ := 12;
       unique_array_buffer.mem_ :=
         Mach.encode_le 8 2 ++ [x68; x69] ++ [x21; x21] |} in
  io.nonblocking_write buffer [io.count 2] []
  = io.writefd [io.count 2] [x68; x69] 2 []
  /\ (forall answers' sent',
        io.nonblocking_write buffer [io.count 2] []
        = Some (Returns answers' sent') ->
        sent' = [] ++ [x68; x69])
  /\ io.nonblocking_write sample.text [io.count 2] []
     = Some (Returns [io.count 2] []).
Proof.
  intros buffer.
  refine (nonblocking_write_sends_first_field buffer sample.text
            [x68; x69] [x21; x21] [io.count 2] [] _ _ _ _).
  - vm_compute. repeat split; discriminate.
  - reflexivity.
  - vm_compute. repeat split; discriminate.
  - simpl. lia.
Defined.

(** X27. [nonblocking_socket_stream::read()] on a message shorter than
    1024 bytes that arrives in one [recv]: the buffer returned has the
    capacity 1024 it was built with, and holds the message followed by
    zero bytes. The length of the message is not in the result. *)
Theorem nonblocking_read_pads (L : libc) (data : list byte)
        (rest : list io.answer) :
  never_fails L ->
  0 < Z.of_nat (length data) < 1024 ->
  exists b,
    io.nonblocking_read L (io.moved data :: io.failed io.EAGAIN :: rest)
    = Some (Returns b tt)
    /\ unique_array_buffer.capacity_ b = 1024
    /\ unique_array_buffer.mem_ b
       = data ++ replicate (1024 - length data) x00.
Proof.
  intros [Hmalloc _] Hlen.
  destruct (Hmalloc [] 1024) as [Hp Hfit].
  { unfold Mach.PTRDIFF_MAX. lia. }
  assert (Hsmall : Mach.to_size_t (Z.of_nat (length data))
                   = Z.of_nat (length data)).
  { apply to_size_t_small. unfold Mach.SIZE_MAX, Mach.size_modulus. lia. }
  unfold io.nonblocking_read, unique_array_buffer.construct,
    heap_allocator.allocate.
  remember (replicate (Z.to_nat 1024) x00) as zeros eqn:Hzeros.
  assert (Hzl : Z.of_nat (length zeros) = 1024)
    by (rewrite Hzeros, length_replicate; reflexivity).
  remember (Z.of_nat (length data)) as r eqn:Hr.
  simpl. destruct (Z.eqb_spec (malloc L [] 1024) 0) as [E|_]; [lia|].
  simpl. rewrite <- Hr.
  destruct (Z.eqb_spec r 0) as [E|_]; [lia|].
  destruct (Z.gtb_spec r 1024) as [Hgt|_]; [lia|].
  unfold stream.append_raw, stream.grow. simpl.
  rewrite !(Z.add_0_l r), !Hsmall.
  destruct (Z.geb_spec r 1024) as [Hge|_]; [lia|]. simpl.
  unfold stream.mark_eof_at. simpl.
  destruct (Z.eqb_spec r 1024) as [E|_]; [lia|]. simpl.
  rewrite Z.sub_diag. change (Mach.to_size_t 0) with 0.
  unfold stream.write, stream.accessible. simpl.
  rewrite ?(Z.add_0_l r), ?Hsmall, Hzl.
  destruct (Z.gtb_spec r 1024) as [Hgt|_]; [lia|].
  destruct (Z.leb_spec 0 r) as [_|Hneg]; [|lia].
  destruct (Z.leb_spec r 1024) as [_|Hbig]; [|lia].
  rewrite <- Hr, Z.leb_refl. simpl.
  eexists. split; [reflexivity|]. simpl. split; [reflexivity|].
  unfold Mach.blit. rewrite Hr, Nat2Z.id, firstn_all. simpl.
  f_equal. rewrite Hzeros, drop_replicate. f_equal.
Qed.

Example nonblocking_read_pads_witness :
  exists b,
    io.nonblocking_read (arena 4096)
      (io.moved [x68; x69] :: io.failed io.EAGAIN :: [])
    = Some (Returns b tt)
    /\ unique_array_buffer.capacity_ b = 1024
    /\ unique_array_buffer.mem_ b
       = [x68; x69] ++ replicate (1024 - length [x68; x69]) x00.
Proof.
  refine (nonblocking_read_pads (arena 4096) [x68; x69] [] _ _).
  - apply arena_never_fails. lia.
  - simpl. lia.
Defined.

(** ** The timer *)

(** [n] ticks on a task that runs without end or has runs left over,
    from any state in which the countdown is between 1 and the gap. [m]
    counts the ticks since the countdown was last set. *)
Lemma timer_ticks_from (n : nat) (g c s t : Z) :
  1 <= c <= g ->
  let m := Z.of_nat n + (g - c) in
  0 <= s -> s + m / g < timer.INT64_MAX -> g <= timer.INT64_MAX ->
  t <= s \/ s + m / g < t ->
  timer.ticks n {| timer.gap := g; timer.countdown := c; timer.spend := s;
                   timer.total := t |}
  = Some ({| timer.gap := g; timer.countdown := g - m mod g;
             timer.spend := s + m / g; timer.total := t |}, m / g).
Proof.
  revert c s. induction n as [|n IH]; intros c s Hc m Hs Hmax Hg Hleft.
  - subst m. cbn [timer.ticks]. change (Z.of_nat 0) with 0.
    rewrite Z.add_0_l. rewrite Z.mod_small, Z.div_small by lia.
    do 3 f_equal; lia.
  - cbn [timer.ticks]. unfold timer.tick_task.
    cbn [timer.gap timer.countdown timer.spend timer.total].
    destruct (Z.eqb_spec c timer.INT64_MIN) as [E|_];
      [unfold timer.INT64_MIN in E; lia|].
    assert (Hm : m = Z.of_nat n + (g - c) + 1) by (subst m; lia).
    clearbody m.
    destruct (Z.eqb_spec (c - 1) 0) as [Hzero|Hmore].
    + assert (Hc1 : c = 1) by lia. subst c.
      assert (Hdiv : m = Z.of_nat n + 1 * g) by lia.
      assert (Hq : m / g = Z.of_nat n / g + 1)
        by (rewrite Hdiv, Z.div_add by lia; reflexivity).
      assert (Hr : m mod g = Z.of_nat n mod g)
        by (rewrite Hdiv, Z.mod_add by lia; reflexivity).
      pose proof (Z.div_pos (Z.of_nat n) g ltac:(lia) ltac:(lia)) as Hnn.
      rewrite Hq in Hmax, Hleft. rewrite Hq, Hr.
      pose proof (IH g (s + 1)) as IH'. cbn zeta in IH'.
      replace (Z.of_nat n + (g - g)) with (Z.of_nat n) in IH' by lia.
      clear Hm Hdiv Hq Hr IH. clear m.
      set (q := Z.of_nat n / g) in *. clearbody q.
      assert (Hs1 : s <> timer.INT64_MAX /\ s + 1 <> t)
        by (clear IH'; lia).
      destruct Hs1 as [Hs1 Hs2].
      destruct (Z.eqb_spec s timer.INT64_MAX) as [E|_]; [contradiction|].
      destruct (Z.eqb_spec (s + 1) t) as [E|_]; [contradiction|].
      rewrite IH' by lia. cbn iota.
      replace (1 + q) with (q + 1) by lia.
      replace (s + 1 + q) with (s + (q + 1)) by lia. reflexivity.
    + rewrite (IH (c - 1) s).
      * replace (Z.of_nat n + (g - (c - 1))) with m by lia.
        do 3 f_equal.
      * lia.
      * exact Hs.
      * replace (Z.of_nat n + (g - (c - 1))) with m by lia. exact Hmax.
      * exact Hg.
      * replace (Z.of_nat n + (g - (c - 1))) with m by lia. exact Hleft.
Qed.

(** X28. A task made by [make_tv(gap, times)] with [gap] at least 1, as
    long as it is not at its last run ([times] is not positive, as with
    [inf_times], or fewer than [times] runs are due): after [n] ticks its
    callback has run [n / gap] times, that is on every [gap]-th tick, and
    the task shows [spend = n / gap] and [countdown = gap - n % gap]. *)
Theorem timer_task_fires_every_gap (n : nat) (gap times : Z) :
  1 <= gap <= timer.INT64_MAX ->
  Z.of_nat n / gap < timer.INT64_MAX ->
  times <= 0 \/ Z.of_nat n / gap < times ->
  timer.ticks n (timer.make_tv gap times)
  = Some ({| timer.gap := gap;
             timer.countdown := gap - Z.of_nat n mod gap;
             timer.spend := Z.of_nat n / gap;
             timer.total := times |}, Z.of_nat n / gap).
Proof.
  intros Hgap Hmax Hleft. unfold timer.make_tv.
  pose proof (timer_ticks_from n gap gap 0 times) as Hticks.
  cbn zeta in Hticks.
  replace (Z.of_nat n + (gap - gap)) with (Z.of_nat n) in Hticks by lia.
  rewrite !Z.add_0_l in Hticks. apply Hticks; lia.
Qed.

Example timer_task_fires_every_gap_witness :
  timer.ticks 7 (timer.make_tv 3 timer.inf_times)
  = Some ({| timer.gap := 3; timer.countdown := 3 - Z.of_nat 7 mod 3;
             timer.spend := Z.of_nat 7 / 3; timer.total := timer.inf_times |},
          Z.of_nat 7 / 3).
Proof.
  refine (timer_task_fires_every_gap 7 3 timer.inf_times _ _ _).
  - unfold timer.INT64_MAX. lia.
  - vm_compute. reflexivity.
  - left. unfold timer.inf_times. lia.
Defined.

(** A task made with a gap of 0 or less never runs: the countdown
    starts at the gap and is decremented before it is compared with 0, so
    it only moves away from 0. After [n] ticks the callback has not run
    and the countdown is [gap - n]. *)
Lemma timer_task_nonpositive_gap_never_fires (n : nat) (gap times : Z) :
  gap <= 0 -> timer.INT64_MIN <= gap - Z.of_nat n ->
  timer.ticks n (timer.make_tv gap times)
  = Some ({| timer.gap := gap; timer.countdown := gap - Z.of_nat n;
             timer.spend := 0; timer.total := times |}, 0).
Proof.
  intros Hgap Hmin. unfold timer.make_tv.
  assert (Hgen : forall c,
             c <= 0 -> timer.INT64_MIN <= c - Z.of_nat n ->
             timer.ticks n {| timer.gap := gap; timer.countdown := c;
                              timer.spend := 0; timer.total := times |}
             = Some ({| timer.gap := gap;
                        timer.countdown := c - Z.of_nat n;
                        timer.spend := 0; timer.total := times |}, 0)).
  { clear Hmin. induction n as [|n IH]; intros c Hc Hmin.
    - cbn [timer.ticks]. do 3 f_equal. lia.
    - cbn [timer.ticks]. unfold timer.tick_task.
      cbn [timer.gap timer.countdown timer.spend timer.total].
      destruct (Z.eqb_spec c timer.INT64_MIN) as [E|_]; [lia|].
      destruct (Z.eqb_spec (c - 1) 0) as [E|_]; [lia|].
      rewrite (IH (c - 1)) by lia. do 3 f_equal. lia. }
  apply Hgen; assumption.
Qed.

Lemma tick_task_throws_nothing (tv : timer.tv_t) (e : exception)
      (tv' : timer.tv_t) :
  timer.tick_task tv = Throws e tv' -> False.
Proof.
  unfold timer.tick_task.
  repeat match goal with
         | |- context [if ?c then _ else _] => destruct c
         end; discriminate.
Qed.

Section timer_tasks.

Context {CB : Type}.

Lemma tick_all_last_run (l : list (Z * timer.task_t CB)) (cid : Z)
      (task : timer.task_t CB) :
  (cid, task) ∈ l ->
  timer.countdown (timer.tv task) = 1 ->
  timer.spend (timer.tv task) + 1 = timer.total (timer.tv task) ->
  timer.tick_all l = Undefined.
Proof.
  intros Hin Hc Hs. induction l as [|[cid' task'] l IH]; [inversion Hin|].
  apply elem_of_cons in Hin as [Heq|Hin].
  - injection Heq as <- <-. cbn [timer.tick_all]. unfold timer.tick_task.
    rewrite Hc. change (1 =? timer.INT64_MIN) with false.
    change (1 - 1 =? 0) with true. cbn iota.
    destruct (timer.spend (timer.tv task) =? timer.INT64_MAX);
      [reflexivity|].
    rewrite Hs, Z.eqb_refl. reflexivity.
  - cbn [timer.tick_all]. rewrite (IH Hin).
    destruct (timer.tick_task (timer.tv task'))
      as [[fired erased] tv'|e tv'|] eqn:Htask.
    + destruct erased; reflexivity.
    + destruct (tick_task_throws_nothing _ _ _ Htask).
    + reflexivity.
Qed.

(** X29. The last run of a task with a finite number of runs. On the tick
    on which a task is due for the last of its [total] runs (its countdown
    is 1 and one run is missing), the handler erases the task from the map
    inside the range-for that stands on it: whatever else the timer holds,
    the behaviour of the handler on that tick is undefined. *)
Theorem timer_last_run_undefined (tm : timer.t CB) (cid : Z)
        (task : timer.task_t CB) :
  timer.tasks_ tm !! cid = Some task ->
  timer.countdown (timer.tv task) = 1 ->
  timer.spend (timer.tv task) + 1 = timer.total (timer.tv task) ->
  timer.on_tick tm = Undefined.
Proof.
  intros Hlookup Hc Hs. unfold timer.on_tick.
  rewrite (tick_all_last_run _ cid task); [reflexivity| |exact Hc|exact Hs].
  apply elem_of_map_to_list. exact Hlookup.
Qed.

(** X30. [add], [query] and [cancel]. On a timer whose ids in use are
    below the counter, [add] returns an id that was not in use; [query] of
    it returns the [tv] given and [query] of every other id is as before;
    [cancel] of it returns [true] and leaves the tasks as they were before
    [add], after which [query] returns the invalid [tv] and a second
    [cancel] returns [false]. *)
Theorem timer_add_query_cancel (tm tm' : timer.t CB) (v : timer.tv_t)
        (f : CB) (cid : Z) :
  timer.ids_below_counter tm ->
  timer.add v f tm = Returns cid tm' ->
  timer.query cid tm = timer.invalid
  /\ timer.query cid tm' = v
  /\ (forall other, other <> cid ->
        timer.query other tm' = timer.query other tm)
  /\ timer.ids_below_counter tm'
  /\ exists tm'',
       timer.cancel cid tm' = (true, tm'')
       /\ timer.tasks_ tm'' = timer.tasks_ tm
       /\ timer.query cid tm'' = timer.invalid
       /\ timer.cancel cid tm'' = (false, tm'').
Proof.
  intros Hinv Hadd. unfold timer.add in Hadd.
  destruct (timer.cid_count_ tm =? Mach.INT_MAX); [discriminate Hadd|].
  injection Hadd as <- <-.
  assert (Hfresh : timer.tasks_ tm !! timer.cid_count_ tm = None).
  { destruct (timer.tasks_ tm !! timer.cid_count_ tm) as [task|] eqn:Hl;
      [|reflexivity].
    pose proof (Hinv _ _ Hl). lia. }
  unfold timer.query, timer.cancel. cbn [timer.tasks_ timer.cid_count_].
  rewrite Hfresh, lookup_insert_eq. cbn [timer.tv].
  split; [reflexivity|]. split; [reflexivity|]. split.
  { intros other Hne. rewrite lookup_insert_ne by congruence. reflexivity. }
  split.
  { intros other task Hl. cbn [timer.tasks_ timer.cid_count_] in *.
    destruct (decide (other = timer.cid_count_ tm)) as [->|Hne]; [lia|].
    rewrite lookup_insert_ne in Hl by congruence.
    pose proof (Hinv _ _ Hl). lia. }
  eexists. split; [reflexivity|]. cbn [timer.tasks_].
  rewrite delete_insert_id by exact Hfresh. rewrite Hfresh.
  split; [reflexivity|]. split; reflexivity.
Qed.

End timer_tasks.

Example timer_last_run_undefined_witness :
  timer.on_tick
    {| timer.tasks_ :=
         {[ 0 := {| timer.tv := timer.make_tv 5 timer.inf_times; timer.cb := tt |};
            1 := {| timer.tv := timer.make_tv 1 1; timer.cb := tt |} ]};
       timer.cid_count_ := 2; timer.flag_ := false |}
  = Undefined.
Proof.
  refine (timer_last_run_undefined
            {| timer.tasks_ :=
                 {[ 0 := {| timer.tv := timer.make_tv 5 timer.inf_times;
                            timer.cb := tt |};
                    1 := {| timer.tv := timer.make_tv 1 1; timer.cb := tt |} ]};
               timer.cid_count_ := 2; timer.flag_ := false |}
            1 {| timer.tv := timer.make_tv 1 1; timer.cb := tt |} _ _ _).
  - reflexivity.
  - reflexivity.
  - reflexivity.
Defined.

Example timer_add_query_cancel_witness :
  let tm' := {| timer.tasks_ :=
                  <[0 := {| timer.tv := timer.make_tv 20 timer.inf_times;
                            timer.cb := tt |}]> ∅;
                timer.cid_count_ := 0 + 1; timer.flag_ := false |} in
  timer.query 0 (timer.new (CB := unit)) = timer.invalid
  /\ timer.query 0 tm' = timer.make_tv 20 timer.inf_times
  /\ (forall other, other <> 0 ->
        timer.query other tm' = timer.query other (timer.new (CB := unit)))
  /\ timer.ids_below_counter tm'
  /\ exists tm'',
       timer.cancel 0 tm' = (true, tm'')
       /\ timer.tasks_ tm'' = timer.tasks_ (timer.new (CB := unit))
       /\ timer.query 0 tm'' = timer.invalid
       /\ timer.cancel 0 tm'' = (false, tm'').
Proof.
  intros tm'.
  refine (timer_add_query_cancel timer.new tm'
            (timer.make_tv 20 timer.inf_times) tt 0 _ _).
  - intros cid task Hl. simpl in Hl. rewrite lookup_empty in Hl.
    discriminate Hl.
  - reflexivity.
Defined.
